(** * ts-llvm: lowering of a TypeScript AST to LLVM IR

    A shallow embedding of [src/mangle.ts] and of the [LLVMGenerator] class
    (the code generator, [emitLLVM] and its methods), with the properties of
    the lowering stated and proved over it.

    The generator drives three mutable objects: the LLVM module under
    construction (functions, basic blocks, instructions), the IRBuilder's
    insertion point, and the symbol table (a stack of [Scope] objects that
    are also handed around by reference).  They are gathered in one
    [State]; every method is a function [State -> Result _] and a thrown
    exception is the outcome [Err], which keeps the state reached so far:
    a JavaScript exception does not undo the mutations made before it. *)

From stdpp Require Import base option list strings pretty gmap.
From Stdlib Require Import ZArith Lia.

Set Warnings "-register-all".

(** ** The TypeScript AST, as far as the generator looks at it *)

(** [ts.SyntaxKind[kind]], the label of a syntax kind.  Kinds the generator
    has no case for are kept by that label only. *)
Record SyntaxKind := { label : string }.

(** The target type of a source type: what [getLLVMType] (types.ts, the type
    resolver) returns for a type node.  The AST below carries the resolved
    type where the generator asks for one. *)
Inductive LType :=
| VoidTy
| DoubleTy
| IntTy (bits : nat)
| Int8PtrTy
| StringTy.                        (* getStringType: { i8*, i32 } *)

Definition isVoidTy (t : LType) : bool :=
  match t with VoidTy => true | _ => false end.

(** [expression.operatorToken.kind] *)
Inductive OperatorToken :=
| EqualsToken
| PlusToken
| OtherToken (kind : SyntaxKind).

(** [ts.Expression], by [expression.kind] *)
Inductive Expression :=
| BinaryExpression (left : Expression) (operatorToken : OperatorToken) (right : Expression)
| CallExpression (expression : Expression) (arguments : list Expression)
| PropertyAccessExpression (expression : Expression) (name : string)
| Identifier (text : string)
| TrueKeyword
| FalseKeyword
| StringLiteral (text : string)
| OtherExpression (kind : SyntaxKind).

Record ParameterDeclaration := {
  parameter_name : string;
  parameter_type : LType;
}.

(** One declaration of a [let]/[const]/[var] list.  [initializer] is read
    with a non-null assertion in the source, so it may be absent. *)
Record VariableDeclaration := {
  declaration_name : string;
  declaration_isConst : bool;          (* isConst(declaration), tsc-utils *)
  declaration_initializer : option Expression;
  declaration_type : LType;            (* getLLVMType of the checker's type *)
}.

(** [ts.Node], by [node.kind] *)
Inductive Node :=
| FunctionDeclaration (name : string) (parameters : list ParameterDeclaration)
    (returnType : LType) (body : option (list Node))
| ModuleDeclaration (name : string) (body : list Node)
| Block (statements : list Node)
| ExpressionStatement (expression : Expression)
| IfStatement (expression : Expression) (thenStatement : Node) (elseStatement : option Node)
| ReturnStatement (expression : option Expression)
| VariableStatement (declarations : list VariableDeclaration)
| EndOfFileToken
| OtherNode (kind : SyntaxKind).

(** ** LLVM values, instructions, blocks and functions *)

(** The run-time class of an instruction handle ([instanceof]). *)
Inductive InstKind :=
| AllocaInst | LoadInst | StoreInst | CallInst | BinaryOperator | ReturnInst | BranchInst.

(** [llvm.Value]: a handle.  Functions, blocks and instructions are objects
    of the module and are named by their index of creation. *)
Inductive Value :=
| VFunction (f : nat)
| VArgument (f : nat) (index : nat)
| VConstantInt (bits : nat) (n : Z)
| VGlobalStringPtr (g : nat)
| VConstantStruct (type : LType) (ptr : Value) (length : Value)
| VConstantFAdd (lhs : Value) (rhs : Value)     (* the sum of two constants, folded *)
| VInstruction (id : nat) (k : InstKind).

Inductive Opcode :=
| Ret (value : option Value)
| Br (dest : nat)
| CondBr (condition : Value) (thenBlock : nat) (elseBlock : nat)
| Call (callee : Value) (args : list Value)
| Load (ptr : Value)
| Store (value : Value) (ptr : Value)
| Alloca (type : LType)
| FAdd (lhs : Value) (rhs : Value).

Record Instruction := {
  inst_id : nat;
  inst_op : Opcode;
}.

Definition kindOf (op : Opcode) : InstKind :=
  match op with
  | Ret _ => ReturnInst
  | Br _ | CondBr _ _ _ => BranchInst
  | Call _ _ => CallInst
  | Load _ => LoadInst
  | Store _ _ => StoreInst
  | Alloca _ => AllocaInst
  | FAdd _ _ => BinaryOperator
  end.

Definition isTerminator (i : Instruction) : bool :=
  match inst_op i with
  | Ret _ | Br _ | CondBr _ _ _ => true
  | _ => false
  end.

Record BasicBlock := {
  bb_name : string;                   (* the name asked for *)
  bb_parent : nat;
  bb_insts : list Instruction;
}.

Inductive LinkageTypes := ExternalLinkage.

Record Function := {
  fn_name : string;
  fn_returnType : LType;
  fn_parameterTypes : list LType;
  fn_linkage : LinkageTypes;
  fn_blocks : list nat;               (* handles of its blocks, entry first *)
}.

(** ** Scopes *)

(** What a scope binds a name to: [type ScopeValue = llvm.Value | Scope];
    a scope is bound by reference. *)
Inductive ScopeValue :=
| SValue (v : Value)
| SScope (scope : nat).

(** Modelled from the spec: the [Scope] class of symbol-table.ts, which is
    not part of the sources at hand: "a named (possibly anonymous) binding
    frame" with "a mapping from identifier to bound value"; [bind] "inserts
    or overwrites a binding in the given frame". *)
Record Scope := {
  scope_name : option string;
  scope_entries : gmap string ScopeValue;
}.

Definition newScope (name : option string) : Scope :=
  {| scope_name := name; scope_entries := ∅ |}.

(** What an expression statically typed [llvm.Value] holds at run time.  The
    casts [as llvm.Value] of the generator are not checked, so it can be a
    scope, or [undefined] ([None]) after a lookup that found nothing. *)
Abbreviation Dyn := (option ScopeValue).

(** ** Outcomes *)

(** Modelled from the spec: the error taxonomy of diagnostics.ts and of the
    collaborators.  [error(message)] of the generator is
    [UnsupportedExpression]; a failed symbol-table lookup is
    [UnresolvedName]; a function the verifier rejects is
    [VerificationFailure]; [TypeError] is what JavaScript or the llvm-node
    binding throw when handed [undefined] or an object of the wrong class. *)
Inductive Error :=
| UnresolvedName (identifier : string)
| UnsupportedExpression (message : string)
| VerificationFailure (f : nat)
| TypeError (message : string).

(** ** The state of one run of [emitLLVM] *)

Record State := {
  functions : list Function;          (* the module's functions *)
  blocks : list BasicBlock;           (* every basic block created *)
  globals : list string;              (* global string constants *)
  names : list (Value * string);      (* names asked for values, latest first *)
  nextInst : nat;                     (* instructions created so far *)
  insertBlock : option nat;           (* builder.getInsertBlock() *)
  scopes : list Scope;                (* the Scope objects allocated *)
  scopeStack : list nat;              (* symbolTable.scopes, innermost first *)
  warnings : list string;             (* what warn() reported *)
  verified : list nat;                (* functions verifyFunction accepted *)
  lastUnique : nat;                   (* the module's counter of unique names *)
}.

Inductive Result (A : Type) :=
| OK (a : A) (s : State)
| Err (e : Error) (s : State).
Arguments OK {A} a s.
Arguments Err {A} e s.

Definition M (A : Type) : Type := State -> Result A.

Definition ret {A} (a : A) : M A := fun s => OK a s.

Definition bind {A B} (c : M A) (k : A -> M B) : M B :=
  fun s => match c s with
           | OK a s' => k a s'
           | Err e s' => Err e s'
           end.

Definition throw {A} (e : Error) : M A := fun s => Err e s.

Notation "x <- c ;; k" := (bind c (fun x => k))
  (at level 62, c at next level, right associativity).
Notation "c ;;; k" := (bind c (fun _ => k))
  (at level 62, right associativity).

(** [for (const x of xs) f(x)] and [xs.forEach(f)] *)
Definition forEach {A} (f : A -> M unit) : list A -> M unit :=
  fix go (l : list A) : M unit :=
    match l with
    | [] => ret tt
    | x :: r => f x ;;; go r
    end.

(** [xs.map(f)] for an effectful [f] *)
Definition mapM {A B} (f : A -> M B) : list A -> M (list B) :=
  fix go (l : list A) : M (list B) :=
    match l with
    | [] => ret []
    | x :: r => y <- f x ;; ys <- go r ;; ret (y :: ys)
    end.

(** ** Updating one field of the state *)

Definition set_functions (x : list Function) (s : State) : State :=
  {| functions := x; blocks := blocks s; globals := globals s;
     names := names s; nextInst := nextInst s; insertBlock := insertBlock s;
     scopes := scopes s; scopeStack := scopeStack s; warnings := warnings s;
     verified := verified s; lastUnique := lastUnique s |}.

Definition set_blocks (x : list BasicBlock) (s : State) : State :=
  {| functions := functions s; blocks := x; globals := globals s;
     names := names s; nextInst := nextInst s; insertBlock := insertBlock s;
     scopes := scopes s; scopeStack := scopeStack s; warnings := warnings s;
     verified := verified s; lastUnique := lastUnique s |}.

Definition set_globals (x : list string) (s : State) : State :=
  {| functions := functions s; blocks := blocks s; globals := x;
     names := names s; nextInst := nextInst s; insertBlock := insertBlock s;
     scopes := scopes s; scopeStack := scopeStack s; warnings := warnings s;
     verified := verified s; lastUnique := lastUnique s |}.

Definition set_names (x : list (Value * string)) (s : State) : State :=
  {| functions := functions s; blocks := blocks s; globals := globals s;
     names := x; nextInst := nextInst s; insertBlock := insertBlock s;
     scopes := scopes s; scopeStack := scopeStack s; warnings := warnings s;
     verified := verified s; lastUnique := lastUnique s |}.

Definition set_nextInst (x : nat) (s : State) : State :=
  {| functions := functions s; blocks := blocks s; globals := globals s;
     names := names s; nextInst := x; insertBlock := insertBlock s;
     scopes := scopes s; scopeStack := scopeStack s; warnings := warnings s;
     verified := verified s; lastUnique := lastUnique s |}.

Definition set_insertBlock (x : option nat) (s : State) : State :=
  {| functions := functions s; blocks := blocks s; globals := globals s;
     names := names s; nextInst := nextInst s; insertBlock := x;
     scopes := scopes s; scopeStack := scopeStack s; warnings := warnings s;
     verified := verified s; lastUnique := lastUnique s |}.

Definition set_scopes (x : list Scope) (s : State) : State :=
  {| functions := functions s; blocks := blocks s; globals := globals s;
     names := names s; nextInst := nextInst s; insertBlock := insertBlock s;
     scopes := x; scopeStack := scopeStack s; warnings := warnings s;
     verified := verified s; lastUnique := lastUnique s |}.

Definition set_scopeStack (x : list nat) (s : State) : State :=
  {| functions := functions s; blocks := blocks s; globals := globals s;
     names := names s; nextInst := nextInst s; insertBlock := insertBlock s;
     scopes := scopes s; scopeStack := x; warnings := warnings s;
     verified := verified s; lastUnique := lastUnique s |}.

Definition set_warnings (x : list string) (s : State) : State :=
  {| functions := functions s; blocks := blocks s; globals := globals s;
     names := names s; nextInst := nextInst s; insertBlock := insertBlock s;
     scopes := scopes s; scopeStack := scopeStack s; warnings := x;
     verified := verified s; lastUnique := lastUnique s |}.

Definition set_verified (x : list nat) (s : State) : State :=
  {| functions := functions s; blocks := blocks s; globals := globals s;
     names := names s; nextInst := nextInst s; insertBlock := insertBlock s;
     scopes := scopes s; scopeStack := scopeStack s; warnings := warnings s;
     verified := x; lastUnique := lastUnique s |}.

Definition set_lastUnique (x : nat) (s : State) : State :=
  {| functions := functions s; blocks := blocks s; globals := globals s;
     names := names s; nextInst := nextInst s; insertBlock := insertBlock s;
     scopes := scopes s; scopeStack := scopeStack s; warnings := warnings s;
     verified := verified s; lastUnique := x |}.

(** ** src/mangle.ts *)

(** [parentScope.name ? parentScope.name + "__" : ""]: an absent name and
    the empty string are both falsy. *)
Definition mangleFunctionDeclaration (declarationName : string) (parentScope : Scope) : string :=
  let scopePrefix :=
    match scope_name parentScope with
    | Some n => if decide (n = "") then "" else n +:+ "__"
    | None => ""
    end in
  scopePrefix +:+ declarationName.

(** ** diagnostics.ts *)

(** Modelled from the spec: [warn] of diagnostics.ts, "report a non-fatal
    warning": the message is recorded and the caller goes on. *)
Definition warn (message : string) : M unit :=
  fun s => OK tt (set_warnings (warnings s ++ [message]) s).

(** Modelled from the spec: [error] of diagnostics.ts, "a fatal error
    (unsupported expression) with a human-readable message": it throws. *)
Definition error {A} (message : string) : M A :=
  throw (UnsupportedExpression message).

(** ** symbol-table.ts *)

(** The scope object behind a reference.  A reference the generator holds is
    always to an allocated scope; any other number reads as an empty scope. *)
Definition getScope (s : State) (scope : nat) : Scope :=
  default (newScope None) (scopes s !! scope).

(** [new Scope(name)]: a fresh frame without bindings. *)
Definition Scope_new (name : option string) : M nat :=
  fun s => OK (length (scopes s)) (set_scopes (scopes s ++ [newScope name]) s).

Definition bindEntry (k : string) (v : ScopeValue) (sc : Scope) : Scope :=
  {| scope_name := scope_name sc; scope_entries := <[k := v]> (scope_entries sc) |}.

(** Modelled from the spec: [scope.set(k, v)], the [bind] of the scope
    table, "inserts or overwrites a binding in the given frame. No error on
    shadowing". *)
Definition Scope_set (scope : nat) (k : string) (v : ScopeValue) : M unit :=
  fun s => OK tt (set_scopes (alter (bindEntry k v) scope (scopes s)) s).

(** Modelled from the spec: [scope.get(k)], the [qualifiedResolve] of the
    scope table, "looks up propertyName directly inside scopeValue only (no
    ancestor search)"; [None] is the [undefined] of a name that is not
    bound there. *)
Definition Scope_get (s : State) (scope : nat) (k : string) : Dyn :=
  scope_entries (getScope s scope) !! k.

(** Modelled from the spec: [resolve] of the scope table, "searches the
    given frame, then its ancestor chain, terminating at the global frame.
    Fails with UnresolvedName if absent anywhere in the chain". *)
Fixpoint resolve (s : State) (stack : list nat) (identifier : string) : option ScopeValue :=
  match stack with
  | [] => None
  | scope :: outer =>
      match Scope_get s scope identifier with
      | Some v => Some v
      | None => resolve s outer identifier
      end
  end.

(** [symbolTable.get(identifier)]: [resolve] from the innermost frame of
    the stack. *)
Definition SymbolTable_get (identifier : string) : M ScopeValue :=
  fun s => match resolve s (scopeStack s) identifier with
           | Some v => OK v s
           | None => Err (UnresolvedName identifier) s
           end.

(** [symbolTable.globalScope]: the outermost frame. *)
Definition globalScope (s : State) : nat := default 0 (last (scopeStack s)).

(** Modelled from the spec: [withScope(name, body)] of the symbol table,
    that is [enter], "creates a child frame under the current frame", the
    body, and the discarding of the frame "when lowering of that construct
    completes".  When the body throws the frame is not discarded. *)
Definition withScope (name : option string) (body : nat -> M unit) : M unit :=
  scope <- Scope_new name ;;
  (fun s => OK tt (set_scopeStack (scope :: scopeStack s) s)) ;;;
  body scope ;;;
  (fun s => OK tt (set_scopeStack (tail (scopeStack s)) s)).

(** ** llvm-node: names *)

#[global] Instance LType_eq_dec : EqDecision LType.
Proof. solve_decision. Defined.
#[global] Instance InstKind_eq_dec : EqDecision InstKind.
Proof. solve_decision. Defined.
#[global] Instance Value_eq_dec : EqDecision Value.
Proof. solve_decision. Defined.

(** The module keeps the names of its functions unique.  A function asked
    for under a name that is in use gets that name followed by a dot and
    the next number of the module's counter that gives a free name
    ([ValueSymbolTable::makeUniqueName]); no more names can be found in use
    than the module has names, which bounds the search. *)
Fixpoint makeUniqueName (fuel : nat) (taken : list string) (base : string) (last : nat)
    : string * nat :=
  let candidate := base +:+ "." +:+ pretty (S last) in
  match fuel with
  | S fuel =>
      if decide (candidate ∈ taken) then makeUniqueName fuel taken base (S last)
      else (candidate, S last)
  | 0 => (candidate, S last)
  end.

(** The name a new symbol gets among [taken], and the counter afterwards.
    The empty name is no name: a value without a name is not a symbol. *)
Definition uniqueName (taken : list string) (name : string) (last : nat) : string * nat :=
  if decide (name = "") then (name, last)
  else if decide (name ∈ taken) then makeUniqueName (length taken) taken name last
  else (name, last).

(** [func.name] *)
Definition functionName (s : State) (f : nat) : string :=
  from_option fn_name "" (functions s !! f).

Fixpoint lookupName (v : Value) (l : list (Value * string)) : string :=
  match l with
  | [] => ""
  | (w, n) :: r => if decide (w = v) then n else lookupName v r
  end.

(** The name last asked for an argument or an instruction.  LLVM derives
    the name of the value from it, with a number behind it when the
    function has a value of that name already.  The generator never reads
    the name of such a value, only whether it has one, and that does not
    depend on the number: the state keeps the name asked for. *)
Definition requestedName (s : State) (v : Value) : string :=
  match v with
  | VArgument _ _ | VInstruction _ _ => lookupName v (names s)
  | _ => ""
  end.

(** [value.hasName()].  A constant that is not a global value has no name. *)
Definition hasName (s : State) (v : Value) : bool :=
  match v with
  | VFunction f => if decide (functionName s f = "") then false else true
  | VArgument _ _ | VInstruction _ _ => if decide (requestedName s v = "") then false else true
  | _ => false
  end.

Definition renameFunction (n : string) (f : Function) : Function :=
  {| fn_name := n; fn_returnType := fn_returnType f;
     fn_parameterTypes := fn_parameterTypes f; fn_linkage := fn_linkage f;
     fn_blocks := fn_blocks f |}.

(** [value.name = n].  A function that has the name already keeps it;
    otherwise it gives up its name and gets [n], made unique among the
    other functions.  For an argument or an instruction the name asked for
    is recorded.  LLVM keeps no name on a constant that is not a global
    value: the assignment is then without effect. *)
Definition setName (v : Value) (n : string) : M unit :=
  fun s => match v with
           | VFunction f =>
               if decide (functionName s f = n) then OK tt s
               else
                 let unique := uniqueName (fn_name <$> delete f (functions s)) n
                                 (lastUnique s) in
                 OK tt (set_lastUnique unique.2
                          (set_functions (alter (renameFunction unique.1) f (functions s)) s))
           | VArgument _ _ | VInstruction _ _ => OK tt (set_names ((v, n) :: names s) s)
           | _ => OK tt s
           end.

(** ** llvm-node: functions, blocks, the builder *)

(** [llvm.Function.create(type, linkage, name, module)]: the function is in
    the module from then on, under [name] when no function of the module
    has that name, under a unique name made from it otherwise. *)
Definition Function_create (returnType : LType) (parameterTypes : list LType)
    (linkage : LinkageTypes) (name : string) : M nat :=
  fun s =>
    let unique := uniqueName (fn_name <$> functions s) name (lastUnique s) in
    OK (length (functions s))
      (set_lastUnique unique.2
         (set_functions (functions s ++
            [{| fn_name := unique.1; fn_returnType := returnType;
                fn_parameterTypes := parameterTypes; fn_linkage := linkage;
                fn_blocks := [] |}]) s)).

(** [func.getArguments()] *)
Definition getArguments (func : nat) (parameterTypes : list LType) : list Value :=
  imap (fun i _ => VArgument func i) parameterTypes.

Definition addBlock (b : nat) (f : Function) : Function :=
  {| fn_name := fn_name f; fn_returnType := fn_returnType f;
     fn_parameterTypes := fn_parameterTypes f; fn_linkage := fn_linkage f;
     fn_blocks := fn_blocks f ++ [b] |}.

(** [llvm.BasicBlock.create(context, name, parent)]: a new empty block, last
    in its function. *)
Definition BasicBlock_create (name : string) (parent : nat) : M nat :=
  fun s => OK (length (blocks s))
    (set_functions (alter (addBlock (length (blocks s))) parent (functions s))
       (set_blocks (blocks s ++ [{| bb_name := name; bb_parent := parent; bb_insts := [] |}]) s)).

(** [block.getTerminator()]: the last instruction of the block when that is
    a terminator, [undefined] otherwise. *)
Definition getTerminator (s : State) (b : nat) : option Instruction :=
  match blocks s !! b with
  | Some bb =>
      match last (bb_insts bb) with
      | Some i => if isTerminator i then Some i else None
      | None => None
      end
  | None => None
  end.

Definition appendInst (i : Instruction) (bb : BasicBlock) : BasicBlock :=
  {| bb_name := bb_name bb; bb_parent := bb_parent bb; bb_insts := bb_insts bb ++ [i] |}.

(** A builder positioned on a block ([setInsertionPoint(block)],
    [new IRBuilder(block)]) inserts at the end of that block, whatever the
    block holds already; a builder without a block creates the instruction
    and inserts it nowhere. *)
Definition insertAtEnd (b : option nat) (op : Opcode) : M Value :=
  fun s =>
    let i := {| inst_id := nextInst s; inst_op := op |} in
    OK (VInstruction (nextInst s) (kindOf op))
       (set_nextInst (S (nextInst s))
          match b with
          | Some b => set_blocks (alter (appendInst i) b (blocks s)) s
          | None => s
          end).

Definition insert (op : Opcode) : M Value :=
  fun s => insertAtEnd (insertBlock s) op s.

(** [builder.setInsertionPoint(block)] *)
Definition setInsertionPoint (b : nat) : M unit :=
  fun s => OK tt (set_insertBlock (Some b) s).

Definition value (v : Value) : Dyn := Some (SValue v).

(** The binding's check of an argument declared [Value]. *)
Definition asValue (method : string) (d : Dyn) : M Value :=
  match d with
  | Some (SValue v) => ret v
  | _ => throw (TypeError method)
  end.

Definition createRetVoid : M Value := insert (Ret None).

Definition createRet (v : Dyn) : M Value :=
  v <- asValue "createRet" v ;; insert (Ret (Some v)).

Definition createBr (dest : nat) : M Value := insert (Br dest).

Definition createCondBr (condition : Dyn) (thenBlock elseBlock : nat) : M Value :=
  c <- asValue "createCondBr" condition ;; insert (CondBr c thenBlock elseBlock).

Definition createLoad (ptr : Value) : M Value := insert (Load ptr).

Definition createStore (v ptr : Dyn) : M Value :=
  v <- asValue "createStore" v ;;
  p <- asValue "createStore" ptr ;;
  insert (Store v p).

(** [llvm.Constant]: what is no argument and no instruction. *)
Definition isConstant (v : Value) : bool :=
  match v with VArgument _ _ | VInstruction _ _ => false | _ => true end.

(** [builder.createFAdd(lhs, rhs)]: the builder folds an operation on two
    constants; the result is then a constant and no instruction is
    inserted. *)
Definition createFAdd (lhs rhs : Dyn) : M Value :=
  l <- asValue "createFAdd" lhs ;;
  r <- asValue "createFAdd" rhs ;;
  if isConstant l && isConstant r then ret (VConstantFAdd l r)
  else insert (FAdd l r).

Definition createCall (callee : Dyn) (args : list Dyn) : M Value :=
  c <- asValue "createCall" callee ;;
  a <- mapM (asValue "createCall") args ;;
  insert (Call c a).

(** [builder.createGlobalStringPtr(text)]: a new global of the module the
    insertion block belongs to; without an insertion block there is no
    module to reach and the call does not return. *)
Definition createGlobalStringPtr (text : string) : M Value :=
  fun s => match insertBlock s with
           | Some _ => OK (VGlobalStringPtr (length (globals s)))
                          (set_globals (globals s ++ [text]) s)
           | None => Err (TypeError "createGlobalStringPtr") s
           end.

(** Modelled from the spec: the per-function verification, of which the
    block structure is kept: "the constructed function ... fails structural
    well-formedness (e.g., a block lacking a terminator ...); fatal".  A
    block passes when its last instruction is its only terminator.  LLVM's
    verifier checks more than that (types, dominance): what it accepts
    passes here, and what is rejected here it rejects. *)
Definition wellTerminated (insts : list Instruction) : bool :=
  match reverse insts with
  | [] => false
  | i :: before => isTerminator i && forallb (fun j => negb (isTerminator j)) before
  end.

Definition blockWellFormed (s : State) (b : nat) : bool :=
  match blocks s !! b with
  | Some bb => wellTerminated (bb_insts bb)
  | None => false
  end.

Definition functionWellFormed (s : State) (f : nat) : bool :=
  match functions s !! f with
  | Some fn => forallb (blockWellFormed s) (fn_blocks fn)
  | None => false
  end.

(** [llvm.verifyFunction(func)]: throws when the function is rejected. *)
Definition verifyFunction (f : nat) : M unit :=
  fun s => if functionWellFormed s f
           then OK tt (set_verified (verified s ++ [f]) s)
           else Err (VerificationFailure f) s.

(** [llvm.verifyModule(module)] *)
Definition verifyModule : M unit :=
  fun s => match list_find (fun f => functionWellFormed s f = false) (seq 0 (length (functions s))) with
           | Some (_, f) => Err (VerificationFailure f) s
           | None => OK tt s
           end.

(** ** The generator: helpers *)

(** [this.builder.getInsertBlock().getTerminator()] *)
Definition insertBlockTerminator : M (option Instruction) :=
  fun s => match insertBlock s with
           | Some b => OK (getTerminator s b) s
           | None => Err (TypeError "getTerminator") s
           end.

(** [get currentFunction()] *)
Definition currentFunction : M nat :=
  fun s => match insertBlock s ≫= (fun b => blocks s !! b) with
           | Some bb => OK (bb_parent bb) s
           | None => Err (TypeError "parent") s
           end.

Definition createLoadIfAlloca (v : Dyn) : M Dyn :=
  match v with
  | Some (SValue (VInstruction id AllocaInst)) =>
      l <- createLoad (VInstruction id AllocaInst) ;; ret (value l)
  | _ => ret v
  end.

(** [new llvm.IRBuilder(entryBlock).createAlloca(type, undefined, name)] *)
Definition createEntryBlockAlloca (type : LType) (name : string) : M Value :=
  f <- currentFunction ;;
  fun s =>
    match functions s !! f ≫= (fun fn => head (fn_blocks fn)) with
    | Some entryBlock =>
        (alloca <- insertAtEnd (Some entryBlock) (Alloca type) ;;
         setName alloca name ;;;
         ret alloca) s
    | None => Err (TypeError "IRBuilder") s
    end.

(** ** The generator: expressions *)

Section Expressions.
(** The methods call each other through [this.emitExpression]. *)
Variable emitExpression : Expression -> M Dyn.

Definition emitBinaryExpression (left : Expression) (operatorToken : OperatorToken)
      (right : Expression) : M Dyn :=
    left <- emitExpression left ;;
    right <- emitExpression right ;;
    match operatorToken with
    | EqualsToken =>
        v <- createLoadIfAlloca right ;;
        store <- createStore v left ;;
        ret (value store)
    | PlusToken =>
        l <- createLoadIfAlloca left ;;
        r <- createLoadIfAlloca right ;;
        sum <- createFAdd l r ;;
        ret (value sum)
    | OtherToken kind =>
        error ("Unhandled ts.BinaryExpression operator '" +:+ label kind +:+ "'")
    end.

Definition emitCallExpression (expression : Expression) (arguments : list Expression) : M Dyn :=
    callee <- emitExpression expression ;;
    args <- mapM emitExpression arguments ;;
    call <- createCall callee args ;;
    ret (value call).
End Expressions.

Definition emitPropertyAccessExpression (left : Expression) (propertyName : string) : M Dyn :=
  match left with
  | Identifier text =>
      v <- SymbolTable_get text ;;
      match v with
      | SScope scope => fun s => OK (Scope_get s scope propertyName) s
      | SValue _ => error "Object property access not implemented yet"
      end
  | _ => error "Object property access not implemented yet"
  end.

Definition emitIdentifier (text : string) : M Dyn :=
  v <- SymbolTable_get text ;; ret (Some v).

(** [llvm.ConstantInt.getTrue(context)] and [getFalse]: the two [i1]. *)
Definition emitBooleanLiteral (isTrue : bool) : M Dyn :=
  if isTrue then ret (value (VConstantInt 1 1)) else ret (value (VConstantInt 1 0)).

(** The UTF-16 units of one byte of UTF-8 text: the first byte of a
    character of up to three bytes stands for one unit, that of a character
    of four bytes for two (a surrogate pair), a continuation byte for
    none. *)
Definition utf16Units (byte : Ascii.ascii) : nat :=
  let n := Ascii.nat_of_ascii byte in
  if decide (n < 128) then 1
  else if decide (n < 192) then 0
  else if decide (n < 240) then 1
  else 2.

(** [text.length]: the length of a JavaScript string in UTF-16 units, which
    is below 2^31 and so fits the 32 bits of the constant made from it.  A
    text is held here as its UTF-8 bytes, which is also what the global
    made from it holds. *)
Fixpoint utf16Length (text : string) : nat :=
  match text with
  | EmptyString => 0
  | String byte rest => utf16Units byte + utf16Length rest
  end.

Definition emitStringLiteral (text : string) : M Dyn :=
  ptr <- createGlobalStringPtr text ;;
  ret (value (VConstantStruct StringTy ptr (VConstantInt 32 (Z.of_nat (utf16Length text))))).

Fixpoint emitExpression (expression : Expression) {struct expression} : M Dyn :=
  match expression with
  | BinaryExpression lhs operatorToken rhs =>
      emitBinaryExpression emitExpression lhs operatorToken rhs
  | CallExpression callee arguments =>
      emitCallExpression emitExpression callee arguments
  | PropertyAccessExpression lhs name =>
      emitPropertyAccessExpression lhs name
  | Identifier text => emitIdentifier text
  | TrueKeyword => emitBooleanLiteral true
  | FalseKeyword => emitBooleanLiteral false
  | StringLiteral text => emitStringLiteral text
  | OtherExpression kind =>
      error ("Unhandled ts.Expression '" +:+ label kind +:+ "'")
  end.

(** ** The generator: statements and declarations *)

Definition emitExpressionStatement (expression : Expression) : M unit :=
  emitExpression expression ;;; ret tt.

Definition emitReturnStatement (expression : option Expression) : M unit :=
  match expression with
  | Some expression =>
      e <- emitExpression expression ;;
      v <- createLoadIfAlloca e ;;
      createRet v ;;; ret tt
  | None => createRetVoid ;;; ret tt
  end.

Definition emitVariableDeclaration (declaration : VariableDeclaration) (parentScope : nat) : M unit :=
  let name := declaration_name declaration in
  e <- match declaration_initializer declaration with
       | Some e => emitExpression e
       | None => throw (TypeError "kind")
       end ;;
  initializer <- createLoadIfAlloca e ;;
  if declaration_isConst declaration then
    match initializer with
    | Some (SValue v) =>
        (fun s => if hasName s v then OK tt s else setName v name s) ;;;
        Scope_set parentScope name (SValue v)
    | _ => throw (TypeError "hasName")
    end
  else
    alloca <- createEntryBlockAlloca (declaration_type declaration) name ;;
    createStore initializer (value alloca) ;;;
    Scope_set parentScope name (SValue alloca).

Definition emitVariableStatement (declarations : list VariableDeclaration) (parentScope : nat) : M unit :=
  forEach (fun declaration => emitVariableDeclaration declaration parentScope) declarations.

(** The end of the body of a function declaration (the [if] that closes the
    callback given to [withScope] in [emitFunctionDeclaration]). *)
Definition terminateBody (returnType : LType) : M unit :=
  terminator <- insertBlockTerminator ;;
  match terminator with
  | None =>
      if isVoidTy returnType then createRetVoid ;;; ret tt
      else ret tt               (* TODO: Emit LLVM 'unreachable' instruction. *)
  | Some _ => ret tt
  end.

(** [checker.getSignatureFromDeclaration(declaration).parameters]: the
    declared parameters, but for a leading [this] parameter, which the
    checker keeps apart from the parameters of the signature. *)
Definition signatureParameters (parameters : list ParameterDeclaration)
    : list ParameterDeclaration :=
  match parameters with
  | parameter :: rest =>
      if decide (parameter_name parameter = "this") then rest else parameters
  | [] => []
  end.

Section Nodes.
(** The methods call each other through [this.emitNode]. *)
Variable emitNode : Node -> nat -> M unit.

Definition emitFunctionDeclaration (name : string) (parameters : list ParameterDeclaration)
      (returnType : LType) (body : option (list Node)) (parentScope : nat) : M unit :=
    let parameterTypes := map parameter_type parameters in
    qualifiedName <- (fun s => OK (mangleFunctionDeclaration name (getScope s parentScope)) s) ;;
    func <- Function_create returnType parameterTypes ExternalLinkage qualifiedName ;;
    match body with
    | Some statements =>
        withScope (Some qualifiedName) (fun bodyScope =>
          forEach (fun '(parameter, argument) =>
                     setName argument (parameter_name parameter) ;;;
                     Scope_set bodyScope (parameter_name parameter) (SValue argument))
                  (zip (signatureParameters parameters)
                     (getArguments func parameterTypes)) ;;;
          entryBlock <- BasicBlock_create "entry" func ;;
          setInsertionPoint entryBlock ;;;
          forEach (fun node => emitNode node bodyScope) statements ;;;
          terminateBody returnType)
    | None => ret tt
    end ;;;
    verifyFunction func ;;;
    Scope_set parentScope name (SValue (VFunction func)).

Definition emitModuleDeclaration (name : string) (body : list Node) (parentScope : nat) : M unit :=
    scope <- Scope_new (Some name) ;;
    forEach (fun node => emitNode node scope) body ;;;
    Scope_set parentScope name (SScope scope).

Definition emitBlock (statements : list Node) : M unit :=
    withScope None (fun scope =>
      forEach (fun statement => emitNode statement scope) statements).

Definition emitFoo (block : option Node) (destination continuation : nat)
      (parentScope : nat) : M unit :=
    setInsertionPoint destination ;;;
    match block with
    | Some block => emitNode block parentScope
    | None => ret tt
    end ;;;
    terminator <- insertBlockTerminator ;;
    match terminator with
    | None => createBr continuation ;;; ret tt
    | Some _ => ret tt
    end.

Definition emitIfStatement (expression : Expression) (thenStatement : Node)
      (elseStatement : option Node) (parentScope : nat) : M unit :=
    condition <- emitExpression expression ;;
    f <- currentFunction ;;
    thenBlock <- BasicBlock_create "then" f ;;
    f <- currentFunction ;;
    elseBlock <- BasicBlock_create "else" f ;;
    f <- currentFunction ;;
    endBlock <- BasicBlock_create "endif" f ;;
    createCondBr condition thenBlock elseBlock ;;;
    emitFoo (Some thenStatement) thenBlock endBlock parentScope ;;;
    emitFoo elseStatement elseBlock endBlock parentScope ;;;
    setInsertionPoint endBlock.
End Nodes.

Fixpoint emitNode (node : Node) (parentScope : nat) {struct node} : M unit :=
  match node with
  | FunctionDeclaration name parameters returnType body =>
      emitFunctionDeclaration emitNode name parameters returnType body parentScope
  | ModuleDeclaration name body =>
      emitModuleDeclaration emitNode name body parentScope
  | Block statements => emitBlock emitNode statements
  | ExpressionStatement expression => emitExpressionStatement expression
  | IfStatement expression thenStatement elseStatement =>
      emitIfStatement emitNode expression thenStatement elseStatement parentScope
  | ReturnStatement expression => emitReturnStatement expression
  | VariableStatement declarations => emitVariableStatement declarations parentScope
  | EndOfFileToken => ret tt
  | OtherNode kind => warn ("Unhandled ts.Node '" +:+ label kind +:+ "'")
  end.

(** [sourceFile.forEachChild(node => this.emitNode(node, globalScope))] *)
Definition emitSourceFile (sourceFile : list Node) : M unit :=
  fun s => forEach (fun node => emitNode node (globalScope s)) sourceFile s.

(** [new LLVMGenerator(...)]: an empty module, a builder without insertion
    point, a symbol table holding the global scope. *)
Definition initialState : State :=
  {| functions := []; blocks := []; globals := []; names := []; nextInst := 0;
     insertBlock := None; scopes := [newScope None]; scopeStack := [0];
     warnings := []; verified := []; lastUnique := 0 |}.

Definition emitLLVM (program : list (list Node)) : Result unit :=
  (forEach emitSourceFile program ;;; verifyModule) initialState.

(** ** Notions the properties are stated with *)

(** [s'] differs from [s] in names and bindings only: the module, the
    builder, the scope stack and the logs are those of [s]. *)
Definition sameCode (s s' : State) : Prop :=
  functions s' = functions s /\ blocks s' = blocks s /\ globals s' = globals s
  /\ nextInst s' = nextInst s /\ insertBlock s' = insertBlock s
  /\ scopeStack s' = scopeStack s /\ warnings s' = warnings s
  /\ verified s' = verified s /\ length (scopes s') = length (scopes s).

Definition isArgument (v : Value) : Prop :=
  match v with VArgument _ _ => True | _ => False end.

(** The state an outcome carries. *)
Definition stateOf {A} (r : Result A) : State :=
  match r with OK _ s => s | Err _ s => s end.

(** The instructions of block [b]. *)
Definition instructions (s : State) (b : nat) : list Instruction :=
  from_option bb_insts [] (blocks s !! b).

(** The blocks of function [f]. *)
Definition blocksOf (s : State) (f : nat) : list nat :=
  from_option fn_blocks [] (functions s !! f).

Definition isAlloca (v : Value) : bool :=
  match v with VInstruction _ AllocaInst => true | _ => false end.

(** The state after the builder has inserted one instruction, or several in
    a row, at its insertion point. *)
Definition inserted (op : Opcode) (s : State) : State := stateOf (insert op s).

Definition insertedAll (ops : list Opcode) (s : State) : State :=
  foldl (fun s op => inserted op s) s ops.

(** [ops] as instructions numbered from [n] on. *)
Definition numbered (n : nat) (ops : list Opcode) : list Instruction :=
  imap (fun i op => {| inst_id := n + i; inst_op := op |}) ops.

(** Block [b] ends in a return. *)
Definition endsWithReturn (s : State) (b : nat) : bool :=
  match last (instructions s b) with
  | Some {| inst_op := Ret _ |} => true
  | _ => false
  end.

(** Function [f] is made of four blocks, the second and the third of which
    (then, else) end in a return. *)
Definition ifElseShape (s : State) (f : nat) : bool :=
  match blocksOf s f with
  | [_; thenBlock; elseBlock; _] => endsWithReturn s thenBlock && endsWithReturn s elseBlock
  | _ => false
  end.

(** Instructions none of which is a terminator. *)
Definition nonTerminators (l : list Instruction) : Prop :=
  Forall (fun i => isTerminator i = false) l.

(** From [s] to [s'] the builder has stayed on its block and has only
    appended instructions that are not terminators to it: no function and
    no block is created, no block changes owner, and the scopes and the logs
    are those of [s]. *)
Definition straightLine (s s' : State) : Prop :=
  functions s' = functions s
  /\ insertBlock s' = insertBlock s
  /\ scopes s' = scopes s
  /\ scopeStack s' = scopeStack s
  /\ warnings s' = warnings s
  /\ verified s' = verified s
  /\ length (blocks s') = length (blocks s)
  /\ nextInst s <= nextInst s'
  /\ (forall x, bb_parent <$> blocks s' !! x = bb_parent <$> blocks s !! x)
  /\ (forall x, exists added,
        instructions s' x = instructions s x ++ added
        /\ nonTerminators added
        /\ (insertBlock s <> Some x -> added = [])).

(** A computation that is straight-line code in every state, whether it
    succeeds or fails. *)
Definition straight {A} (c : M A) : Prop :=
  forall s, straightLine s (stateOf (c s)).

(** ** Sample programs *)

(** [boolean] resolves to [i1]. *)
Definition boolTy : LType := IntTy 1.

(** [ts.SyntaxKind[ts.SyntaxKind.NumericLiteral]]: the enumeration gives the
    same number to [FirstLiteralToken] after [NumericLiteral], and the
    reverse mapping keeps the later label. *)
Definition NumericLiteral : SyntaxKind := {| label := "FirstLiteralToken" |}.

(** [1], [2], ...: a numeric literal, a kind [emitExpression] has no case for. *)
Definition numericLiteral : Expression := OtherExpression NumericLiteral.

Definition booleanLiteral (b : bool) : Expression :=
  if b then TrueKeyword else FalseKeyword.

(** The constant a boolean literal is lowered to. *)
Definition booleanConstant (b : bool) : Value :=
  VConstantInt 1 (if b then 1 else 0).

Definition parameter_c : ParameterDeclaration :=
  {| parameter_name := "c"; parameter_type := boolTy |}.

Definition parameter_this : ParameterDeclaration :=
  {| parameter_name := "this"; parameter_type := boolTy |}.

(** [let x = true] *)
Definition let_x_true : Node :=
  VariableStatement
    [{| declaration_name := "x"; declaration_isConst := false;
        declaration_initializer := Some TrueKeyword; declaration_type := boolTy |}].

(** [function f(): number {}] *)
Definition nonVoidWithoutReturn : Node :=
  FunctionDeclaration "f" [] DoubleTy (Some []).

(** [function f(c: boolean): void { if (c) { let x = true; } }] *)
Definition slotInBranch : Node :=
  FunctionDeclaration "f" [parameter_c] VoidTy
    (Some [IfStatement (Identifier "c") (Block [let_x_true]) None]).

(** [function f(): void {}  f();] *)
Definition callAfterFunction : list Node :=
  [FunctionDeclaration "f" [] VoidTy (Some []);
   ExpressionStatement (CallExpression (Identifier "f") []);
   EndOfFileToken].

(** [function f(): void { return; return; }] *)
Definition returnTwice : Node :=
  FunctionDeclaration "f" [] VoidTy (Some [ReturnStatement None; ReturnStatement None]).

(** [if (c) { return 1; } else { return 2; }] *)
Definition ifReturnsNumbers : Node :=
  IfStatement (Identifier "c")
    (Block [ReturnStatement (Some numericLiteral)])
    (Some (Block [ReturnStatement (Some numericLiteral)])).

(** [if (c) { return b1; } else { return b2; }] for boolean literals *)
Definition ifReturnsBooleans (c : string) (b1 b2 : bool) : Node :=
  IfStatement (Identifier c)
    (Block [ReturnStatement (Some (booleanLiteral b1))])
    (Some (Block [ReturnStatement (Some (booleanLiteral b2))])).

(** The state in which the statement that follows [before] in the body of
    [function f(c: boolean): returnType { before ... }] is lowered: the
    lowering of the function is stopped there, at a statement it fails on. *)
Definition stateInBody (returnType : LType) (before : list Node) : State :=
  stateOf (emitNode (FunctionDeclaration "f" [parameter_c] returnType
                       (Some (before ++ [ExpressionStatement numericLiteral])))
             0 initialState).

(** The state in which the body of a function declaration is lowered, the
    function created, its scope entered, its parameters bound and the
    builder on its entry block: the state the declaration stops in when
    the first statement of its body is one the lowering fails on. *)
Definition stateAtBodyStart (name : string) (parameters : list ParameterDeclaration)
    (returnType : LType) (scope : nat) (s : State) : State :=
  stateOf (emitNode (FunctionDeclaration name parameters returnType
                       (Some [ExpressionStatement numericLiteral])) scope s).

(** The outcome of lowering [if (c) { return 1; } else { return 2; }] in the
    body of [function f(c: boolean): number]. *)
Definition ifReturnsNumbersOutcome : Result unit :=
  emitNode ifReturnsNumbers 1 (stateInBody DoubleTy []).

(** [function g(): void {}], and the state inside [f] after it, in
    [function f(c: boolean): void { function g(): void {} ... }]. *)
Definition nestedFunction : Node := FunctionDeclaration "g" [] VoidTy (Some []).

Definition stateAfterNestedFunction : State := stateInBody VoidTy [nestedFunction].

(** Inside [f], after [let x = true]. *)
Definition stateAfterLet : State := stateInBody VoidTy [let_x_true].

(** Inside the then-branch of [if (c) { ... }] in [f]. *)
Definition stateInThen : State :=
  stateOf (emitNode (FunctionDeclaration "f" [parameter_c] VoidTy
                       (Some [IfStatement (Identifier "c")
                                (Block [ExpressionStatement numericLiteral]) None]))
             0 initialState).

(** After [namespace M { function g(): void; }  function h(): void;]. *)
Definition stateWithNamespace : State :=
  stateOf (emitSourceFile
             [ModuleDeclaration "M" [FunctionDeclaration "g" [] VoidTy None];
              FunctionDeclaration "h" [] VoidTy None] initialState).

(** After [namespace M { function h(): void;  function g(c: boolean): void; }]. *)
Definition stateWithMembers : State :=
  stateOf (emitNode (ModuleDeclaration "M"
                       [FunctionDeclaration "h" [] VoidTy None;
                        FunctionDeclaration "g" [parameter_c] VoidTy None])
             0 initialState).

(** In the body of [f], after [let x = true], with [g] declared before [f]:
    [declare function g(c: boolean): boolean;
     function f(c: boolean): void { let x = true; ... }]. *)
Definition stateInCaller : State :=
  stateOf (emitSourceFile
             [FunctionDeclaration "g" [parameter_c] boolTy None;
              FunctionDeclaration "f" [parameter_c] VoidTy
                (Some [let_x_true; ExpressionStatement numericLiteral])]
             initialState).

(** ** Notions the frame properties are stated with *)

(** The function block [b] belongs to; the function the builder is in (what
    [currentFunction] returns); the entry block of a function
    ([getEntryBlock()], the first of its blocks); the entry block of the
    function the builder is in. *)
Definition parentOf (s : State) (b : nat) : option nat := bb_parent <$> blocks s !! b.

Definition currentFunctionOf (s : State) : option nat := insertBlock s ≫= parentOf s.

Definition entryBlockOf (s : State) (f : nat) : option nat := head (blocksOf s f).

Definition currentEntryBlock (s : State) : option nat :=
  currentFunctionOf s ≫= entryBlockOf s.

(** The type of function [f]. *)
Definition signatureOf (s : State) (f : nat) : option (LType * list LType) :=
  (fun fn => (fn_returnType fn, fn_parameterTypes fn)) <$> functions s !! f.

(** What has become, in [s], of the module and the builder of [s0]:
    functions and blocks are only added; a function of [s0] keeps its type
    and its blocks, and gets new blocks only when it is the function the
    builder was in; a block of [s0] keeps its function and its
    instructions, and gets new instructions, at its end, only when it is
    the block the builder was on or the entry block of that block's
    function; the builder is where it was or on a new block; a new block
    belongs to the function the builder was in or to a new function; the
    entry block of a new function is a new block. *)
Definition codeFrame (s0 s : State) : Prop :=
  length (functions s0) <= length (functions s)
  /\ length (blocks s0) <= length (blocks s)
  /\ (forall f, f < length (functions s0) ->
        signatureOf s f = signatureOf s0 f
        /\ exists added, blocksOf s f = blocksOf s0 f ++ added
             /\ Forall (fun b => length (blocks s0) <= b) added
             /\ (currentFunctionOf s0 <> Some f -> added = []))
  /\ (forall b, b < length (blocks s0) ->
        parentOf s b = parentOf s0 b
        /\ exists added, instructions s b = instructions s0 b ++ added
             /\ (insertBlock s0 <> Some b -> currentEntryBlock s0 <> Some b -> added = []))
  /\ (insertBlock s = insertBlock s0
      \/ exists b, insertBlock s = Some b /\ length (blocks s0) <= b)
  /\ (forall b f, length (blocks s0) <= b -> parentOf s b = Some f ->
        currentFunctionOf s0 = Some f \/ length (functions s0) <= f)
  /\ (forall f e, length (functions s0) <= f -> entryBlockOf s f = Some e ->
        length (blocks s0) <= e).

(** What has become, in [s], of the scopes of [s0], when [parentScope] is
    the scope the lowering was given: scopes are only added; a scope of
    [s0] keeps its name and the names it binds, and it is left as it was
    unless it is [parentScope]. *)
Definition scopeFrame (s0 : State) (parentScope : nat) (s : State) : Prop :=
  length (scopes s0) <= length (scopes s)
  /\ forall scope, scope < length (scopes s0) ->
       scope_name <$> scopes s !! scope = scope_name <$> scopes s0 !! scope
       /\ (forall k, is_Some (Scope_get s0 scope k) -> is_Some (Scope_get s scope k))
       /\ (scope <> parentScope -> scopes s !! scope = scopes s0 !! scope).

(** The logs and the counter only grow. *)
Definition logFrame (s0 s : State) : Prop :=
  warnings s0 `prefix_of` warnings s
  /\ verified s0 `prefix_of` verified s
  /\ nextInst s0 <= nextInst s.

Definition frame (s0 : State) (parentScope : nat) (s : State) : Prop :=
  codeFrame s0 s /\ scopeFrame s0 parentScope s /\ logFrame s0 s.

(** [c], run in a state where [P] holds, ends in a state where [Q] holds of
    its result, or fails in a state where [E] holds. *)
Definition hoare {A} (P : State -> Prop) (c : M A) (Q : A -> State -> Prop)
    (E : State -> Prop) : Prop :=
  forall s, P s -> match c s with OK a s' => Q a s' | Err _ s' => E s' end.

(** The frame of a lowering that started in [s0] with the scope
    [parentScope], as it is in [s]: [inv] when the scope stack is [stack],
    [invE], for a lowering that failed, when [stack] is what remains of the
    scope stack under the scopes that were not left. *)
Definition inv (s0 : State) (parentScope : nat) (stack : list nat) (s : State) : Prop :=
  frame s0 parentScope s /\ scopeStack s = stack.

Definition invE (s0 : State) (parentScope : nat) (stack : list nat) (s : State) : Prop :=
  frame s0 parentScope s /\ stack `suffix_of` scopeStack s.

(** A computation that keeps the frame of any lowering it is part of. *)
Definition framed {A} (c : M A) : Prop :=
  forall s0 parentScope stack,
    hoare (inv s0 parentScope stack) c (fun _ => inv s0 parentScope stack)
      (invE s0 parentScope stack).


(** A function signature without a body, [declare function name(parameters):
    returnType;], and the function it is lowered to at the top level of a
    source file. *)
Definition signatureDeclaration (d : string * list ParameterDeclaration * LType) : Node :=
  let '(name, parameters, returnType) := d in
  FunctionDeclaration name parameters returnType None.

Definition externalFunction (d : string * list ParameterDeclaration * LType) : Function :=
  let '(name, parameters, returnType) := d in
  {| fn_name := name; fn_returnType := returnType;
     fn_parameterTypes := map parameter_type parameters;
     fn_linkage := ExternalLinkage; fn_blocks := [] |}.

(** * Properties *)

(** ** Lists *)

Lemma lookup_snoc {A} (l : list A) (x : A) : (l ++ [x]) !! length l = Some x.
Proof. by apply list_lookup_middle. Qed.

Lemma lookup_app_at {A} (l k : list A) j : (l ++ k) !! (length l + j) = k !! j.
Proof. rewrite lookup_app_r by lia. f_equal. lia. Qed.

(** ** Running the monad *)

Lemma bind_OK {A B} (c : M A) (k : A -> M B) s a s1 :
  c s = OK a s1 -> bind c k s = k a s1.
Proof. intros H. unfold bind. by rewrite H. Qed.

Lemma bind_Err {A B} (c : M A) (k : A -> M B) s e s1 :
  c s = Err e s1 -> bind c k s = Err e s1.
Proof. intros H. unfold bind. by rewrite H. Qed.

Lemma forEach_cons {A} (f : A -> M unit) x r :
  forEach f (x :: r) = (f x ;;; forEach f r).
Proof. reflexivity. Qed.

Lemma forEach_Err {A} (f : A -> M unit) x r s e s1 :
  f x s = Err e s1 -> forEach f (x :: r) s = Err e s1.
Proof. intros H. rewrite forEach_cons. by apply bind_Err. Qed.

Lemma bind_OK_inv {A B} (c : M A) (k : A -> M B) s b s' :
  bind c k s = OK b s' -> exists a s1, c s = OK a s1 /\ k a s1 = OK b s'.
Proof.
  unfold bind. destruct (c s) as [a s1|e s1]; [|discriminate]. eauto.
Qed.

Lemma asValue_OK_inv method d s v s' :
  asValue method d s = OK v s' -> d = value v /\ s' = s.
Proof.
  destruct d as [[w|sc]|]; simpl; unfold ret, throw; intros H; inversion H; done.
Qed.

(** ** The name mangler *)

Lemma string_app_assoc (a b c : string) : (a +:+ b) +:+ c = a +:+ b +:+ c.
Proof.
  induction a as [|x a IH]; [reflexivity|].
  change (String x ((a +:+ b) +:+ c) = String x (a +:+ b +:+ c)).
  by rewrite IH.
Qed.

(** C5. Mangling is a function of the declaration's simple name and of the
    name of the enclosing scope alone (the bindings of the scope play no
    part, and there is no state to consult); under a scope without a name,
    such as the global scope, the simple name comes back unchanged; under a
    scope with a non-empty name the result is that name, the separator
    [__], and the simple name; so [f] mangles to [f] at the global scope and
    to [M__f] under the scope named [M]. *)
Theorem mangle_deterministic_global_qualified :
  (forall n scopeName entries1 entries2,
      mangleFunctionDeclaration n {| scope_name := scopeName; scope_entries := entries1 |}
      = mangleFunctionDeclaration n {| scope_name := scopeName; scope_entries := entries2 |})
  /\ (forall n entries,
      mangleFunctionDeclaration n {| scope_name := None; scope_entries := entries |} = n)
  /\ (forall n c m entries,
      mangleFunctionDeclaration n {| scope_name := Some (String c m); scope_entries := entries |}
      = String c m +:+ "__" +:+ n)
  /\ mangleFunctionDeclaration "f" (getScope initialState (globalScope initialState)) = "f"
  /\ mangleFunctionDeclaration "f" (newScope (Some "M")) = "M__f".
Proof.
  repeat split.
  - intros n c m entries. unfold mangleFunctionDeclaration. simpl.
    destruct (decide (String c m = "")) as [E|_]; [discriminate E|].
    by rewrite string_app_assoc.
Qed.

(** ** Unhandled syntax *)

Lemma sameCode_refl s : sameCode s s.
Proof. repeat split. Qed.

Lemma getArguments_isArgument func tys : Forall isArgument (getArguments func tys).
Proof.
  unfold getArguments. apply Forall_lookup. intros i v H.
  rewrite list_lookup_imap in H. destruct (tys !! i); simplify_eq/=. exact I.
Qed.

(** The loop over the parameters of a function names the arguments and
    binds them; it never fails and leaves the rest of the state alone. *)
Lemma bind_parameters_OK (bodyScope : nat) (parameters : list ParameterDeclaration) :
  forall (args : list Value) s,
    Forall isArgument args ->
    exists s',
      forEach (fun '(parameter, argument) =>
                 setName argument (parameter_name parameter) ;;;
                 Scope_set bodyScope (parameter_name parameter) (SValue argument))
              (zip parameters args) s
      = OK tt s'
      /\ sameCode s s'
      /\ forall scope, scope <> bodyScope -> scopes s' !! scope = scopes s !! scope.
Proof.
  induction parameters as [|p parameters IH]; intros args s Hargs.
  - exists s. split; [done | split; [apply sameCode_refl | done]].
  - destruct args as [|a args];
      [exists s; split; [done | split; [apply sameCode_refl | done]]|].
    inversion Hargs as [|? ? Ha Hargs']; subst.
    destruct a; try contradiction.
    edestruct (IH args) as (s' & Hrun & Hsame & Hother); [exact Hargs'|].
    eexists. split; [|split].
    + simpl. unfold bind, setName, Scope_set. simpl. exact Hrun.
    + unfold sameCode in *. simpl in Hsame. rewrite length_alter in Hsame. exact Hsame.
    + intros scope Hne. rewrite (Hother scope Hne). simpl.
      by rewrite list_lookup_alter_ne.
Qed.

(** C8. A statement or top-level node of a kind the generator has no case
    for is skipped: a warning naming the kind is recorded, nothing else
    changes, and the siblings that follow are lowered (in a body, and in a
    source file).  An expression of an unhandled kind makes [emitExpression]
    fail with an error carrying the label of the kind; a binary expression
    with an unhandled operator never yields a value: once both operands are
    lowered it fails with an error carrying the label of the operator.  The
    failure is fatal to the enclosing unit: the siblings are not lowered,
    and the function whose body holds the expression is neither verified
    nor bound (the scopes that existed keep the bindings they had). *)
Theorem unhandled_node_skipped_unhandled_expression_fatal :
  (forall kind parentScope s,
      emitNode (OtherNode kind) parentScope s
      = OK tt (set_warnings (warnings s ++ ["Unhandled ts.Node '" +:+ label kind +:+ "'"]) s))
  /\ (forall kind rest parentScope s,
      forEach (fun node => emitNode node parentScope) (OtherNode kind :: rest) s
      = forEach (fun node => emitNode node parentScope) rest
          (set_warnings (warnings s ++ ["Unhandled ts.Node '" +:+ label kind +:+ "'"]) s))
  /\ (forall kind rest s,
      emitSourceFile (OtherNode kind :: rest) s
      = emitSourceFile rest
          (set_warnings (warnings s ++ ["Unhandled ts.Node '" +:+ label kind +:+ "'"]) s))
  /\ (forall kind s,
      emitExpression (OtherExpression kind) s
      = Err (UnsupportedExpression ("Unhandled ts.Expression '" +:+ label kind +:+ "'")) s)
  /\ (forall lhs kind rhs s,
      match emitExpression lhs s with
      | OK _ s1 =>
          match emitExpression rhs s1 with
          | OK _ s2 =>
              emitExpression (BinaryExpression lhs (OtherToken kind) rhs) s
              = Err (UnsupportedExpression
                       ("Unhandled ts.BinaryExpression operator '" +:+ label kind +:+ "'")) s2
          | Err e s2 =>
              emitExpression (BinaryExpression lhs (OtherToken kind) rhs) s = Err e s2
          end
      | Err e s1 =>
          emitExpression (BinaryExpression lhs (OtherToken kind) rhs) s = Err e s1
      end)
  /\ (forall kind rest parentScope s,
      forEach (fun node => emitNode node parentScope)
        (ExpressionStatement (OtherExpression kind) :: rest) s
      = Err (UnsupportedExpression ("Unhandled ts.Expression '" +:+ label kind +:+ "'")) s)
  /\ (forall name parameters returnType kind rest parentScope s,
      exists s',
        emitNode (FunctionDeclaration name parameters returnType
                    (Some (ExpressionStatement (OtherExpression kind) :: rest))) parentScope s
        = Err (UnsupportedExpression ("Unhandled ts.Expression '" +:+ label kind +:+ "'")) s'
        /\ verified s' = verified s
        /\ warnings s' = warnings s
        /\ take (length (scopes s)) (scopes s') = scopes s).
Proof.
  split; [reflexivity|].
  split; [reflexivity|].
  split; [reflexivity|].
  split; [reflexivity|].
  split.
  { intros lhs kind rhs s. simpl. unfold emitBinaryExpression, bind.
    destruct (emitExpression lhs s) as [l s1|e s1]; [|reflexivity].
    destruct (emitExpression rhs s1) as [r s2|e s2]; reflexivity. }
  split; [reflexivity|].
  intros name parameters returnType kind rest parentScope s.
  simpl. unfold emitFunctionDeclaration.
  set (q := mangleFunctionDeclaration name (getScope s parentScope)).
  unfold bind at 1. unfold bind at 1. unfold Function_create at 1.
  set (s0 := set_lastUnique _ _).
  unfold bind at 1. unfold withScope. unfold bind at 1. unfold Scope_new at 1.
  unfold bind at 1.
  set (s1 := set_scopeStack _ _).
  destruct (bind_parameters_OK (length (scopes s0)) (signatureParameters parameters)
              (getArguments (length (functions s)) (map parameter_type parameters)) s1
              (getArguments_isArgument _ _)) as (s2 & Hrun & Hsame & Hother).
  unfold bind at 1. unfold bind at 1. rewrite Hrun.
  eexists. split; [reflexivity|].
  destruct Hsame as (Hf & Hb & Hg & Hn & Hi & Hst & Hw & Hv & Hl).
  simpl. split; [exact Hv|]. split; [exact Hw|].
  apply list_eq. intros scope.
  destruct (decide (scope < length (scopes s))) as [Hlt|Hge].
  - rewrite lookup_take_lt by done.
    rewrite Hother; [|simpl; lia]. simpl.
    by rewrite lookup_app_l.
  - rewrite lookup_take_ge by lia. symmetry. apply lookup_ge_None_2. lia.
Qed.

(** ** Function declarations *)

Lemma string_app_inj (a b c : string) : a +:+ b = a +:+ c -> b = c.
Proof.
  induction a as [|x a IH]; [done|].
  change (String x (a +:+ b) = String x (a +:+ c) -> b = c).
  intros [= H]. by apply IH.
Qed.

Lemma numbered_name_inj (base : string) (j k : nat) :
  base +:+ "." +:+ pretty j = base +:+ "." +:+ pretty k -> j = k.
Proof.
  intros H. apply string_app_inj in H.
  apply (string_app_inj ".") in H. by apply (inj pretty).
Qed.

Lemma numbered_name_other (base : string) (k : nat) : base +:+ "." +:+ pretty k <> base.
Proof.
  intros H. assert (H' : base +:+ "." +:+ pretty k = base +:+ "").
  { rewrite H. clear H. induction base as [|x base IH]; [done|].
    change (String x base = String x (base +:+ "")). by rewrite <- IH. }
  apply string_app_inj in H'. discriminate.
Qed.

Lemma makeUniqueName_numbered fuel taken base : forall last,
  exists k, last < k
    /\ makeUniqueName fuel taken base last = (base +:+ "." +:+ pretty k, k).
Proof.
  induction fuel as [|fuel IH]; intros last; simpl.
  - exists (S last). split; [lia|done].
  - case_decide; [|exists (S last); split; [lia|done]].
    destruct (IH (S last)) as (k & Hk & ->). exists k. split; [lia|done].
Qed.

(** The search for a unique name ends on a name that is not in use: every
    name it finds in use is another name of the module. *)
Lemma makeUniqueName_fresh taken base : forall fuel rest last,
  length rest <= fuel ->
  (forall x, x ∈ taken -> x ∈ rest \/ exists j, j <= last /\ x = base +:+ "." +:+ pretty j) ->
  (makeUniqueName fuel taken base last).1 ∉ taken.
Proof.
  induction fuel as [|fuel IH]; intros rest last Hlen Hrest; simpl.
  - intros Hin. destruct (Hrest _ Hin) as [Hin'|(j & Hj & Heq)].
    + destruct rest; [by apply not_elem_of_nil in Hin' | simpl in Hlen; lia].
    + apply numbered_name_inj in Heq. lia.
  - case_decide as Htaken; [|done].
    apply (IH (filter (fun x => x <> base +:+ "." +:+ pretty (S last)) rest) (S last)).
    + assert (Hin : base +:+ "." +:+ pretty (S last) ∈ rest).
      { destruct (Hrest _ Htaken) as [?|(j & Hj & Heq)]; [done|].
        apply numbered_name_inj in Heq. lia. }
      pose proof (length_filter_lt (fun x => x <> base +:+ "." +:+ pretty (S last)) rest _ Hin)
        as Hlt.
      specialize (Hlt ltac:(intros H; by apply H)). lia.
    + intros x Hx.
      destruct (decide (x = base +:+ "." +:+ pretty (S last))) as [->|Hne].
      * right. exists (S last). split; [lia|done].
      * destruct (Hrest x Hx) as [Hin|(j & Hj & Heq)].
        -- left. by apply list_elem_of_filter.
        -- right. exists j. split; [lia|done].
Qed.

(** The name a new symbol gets: the name asked for when that is free, or
    empty; otherwise that name with a number behind it, another name, which
    is free. *)
Lemma uniqueName_outcome taken name last :
  (name = "" \/ name ∉ taken -> uniqueName taken name last = (name, last))
  /\ (name <> "" -> name ∈ taken ->
      exists k, last < k
        /\ uniqueName taken name last = (name +:+ "." +:+ pretty k, k)
        /\ name +:+ "." +:+ pretty k <> name
        /\ name +:+ "." +:+ pretty k ∉ taken).
Proof.
  unfold uniqueName. split.
  - intros [->|Hfree]; [done|]. case_decide; [done|]. by rewrite decide_False.
  - intros Hname Htaken. rewrite decide_False, decide_True by done.
    destruct (makeUniqueName_numbered (length taken) taken name last) as (k & Hk & Heq).
    exists k. split; [done|]. split; [done|]. split; [apply numbered_name_other|].
    pose proof (makeUniqueName_fresh taken name (length taken) taken last (le_n _)) as Hfresh.
    rewrite Heq in Hfresh. apply Hfresh. auto.
Qed.

(** C9. A function declaration without a body creates the function in the
    module, with external linkage, has it verified, and binds it in the
    enclosing scope under its simple name; no scope is allocated or
    entered, no basic block is created and the builder stays where it was.
    The function is created under its mangled name when no function of the
    module has that name.  When one has, as for the second signature of an
    overloaded function, the module makes the name unique: the function is
    created under another name, the mangled name with a number behind it. *)
Theorem declaration_only_function name parameters returnType parentScope s :
  let func := length (functions s) in
  let qualifiedName := mangleFunctionDeclaration name (getScope s parentScope) in
  let unique := uniqueName (fn_name <$> functions s) qualifiedName (lastUnique s) in
  let declared :=
    {| fn_name := unique.1;
       fn_returnType := returnType;
       fn_parameterTypes := map parameter_type parameters;
       fn_linkage := ExternalLinkage;
       fn_blocks := [] |} in
  let s' :=
    set_scopes (alter (bindEntry name (SValue (VFunction func))) parentScope (scopes s))
      (set_verified (verified s ++ [func])
         (set_lastUnique unique.2 (set_functions (functions s ++ [declared]) s))) in
  emitNode (FunctionDeclaration name parameters returnType None) parentScope s = OK tt s'
  /\ functions s' !! func = Some declared
  /\ (qualifiedName = "" \/ qualifiedName ∉ fn_name <$> functions s ->
      fn_name declared = qualifiedName)
  /\ (qualifiedName <> "" -> qualifiedName ∈ fn_name <$> functions s ->
      exists k, lastUnique s < k
        /\ fn_name declared = qualifiedName +:+ "." +:+ pretty k
        /\ fn_name declared <> qualifiedName
        /\ fn_name declared ∉ fn_name <$> functions s)
  /\ take func (functions s') = functions s
  /\ blocksOf s' func = []
  /\ blocks s' = blocks s
  /\ insertBlock s' = insertBlock s
  /\ verified s' = verified s ++ [func]
  /\ scopeStack s' = scopeStack s
  /\ length (scopes s') = length (scopes s)
  /\ scope_entries <$> scopes s' !! parentScope
     = (fun sc => <[name := SValue (VFunction func)]> (scope_entries sc))
         <$> scopes s !! parentScope.
Proof.
  intros func qualifiedName unique declared s'.
  assert (Hlook : (functions s ++ [declared]) !! func = Some declared)
    by apply lookup_snoc.
  destruct (uniqueName_outcome (fn_name <$> functions s) qualifiedName (lastUnique s))
    as (Hfree & Htaken).
  split.
  { simpl. unfold emitFunctionDeclaration, bind, Function_create, verifyFunction,
      functionWellFormed, Scope_set, ret. simpl.
    fold qualifiedName. fold unique. fold func. fold declared. by rewrite Hlook. }
  split; [exact Hlook|].
  split; [intros H; simpl; unfold unique; by rewrite (Hfree H)|].
  split.
  { intros Hname Hin. destruct (Htaken Hname Hin) as (k & Hk & Heq & Hother & Hnew).
    exists k. simpl. unfold unique. rewrite Heq. done. }
  split; [simpl; unfold func; by rewrite take_app_length|].
  split; [unfold blocksOf; simpl; by rewrite Hlook|].
  repeat (split; [reflexivity|]).
  split; [simpl; apply length_alter|].
  simpl. rewrite list_lookup_alter_eq.
  by destruct (scopes s !! parentScope).
Qed.

(** C9 (as stated). The two signatures of an overloaded function,
    [function f(c: boolean): void; function f(): void;]: the second
    function is not created under its mangled name [f], which the first
    has, but under [f.1]. *)
Lemma overload_signature_renamed :
  mangleFunctionDeclaration "f" (getScope initialState 0) = "f"
  /\ fn_name <$> functions (stateOf (emitSourceFile
                                       [FunctionDeclaration "f" [parameter_c] VoidTy None;
                                        FunctionDeclaration "f" [] VoidTy None]
                                       initialState))
     = ["f"; "f.1"].
Proof. vm_compute. split; reflexivity. Qed.

(** ** Qualified access *)

(** C7. In [a.b], when [a] is an identifier that the symbol table resolves
    to a scope, the expression is what [b] is bound to in that scope itself
    (the scope is not searched through its ancestors, and the state is left
    as it was); when [a] resolves to a value that is not a scope, and when
    [a] is not an identifier at all, lowering fails with the
    [UnsupportedExpression] error of property access; when [a] is an
    identifier that resolves to nothing, lowering fails too, but in the
    lookup, with [UnresolvedName], not with [UnsupportedExpression]. *)
Theorem qualified_access lhs b s :
  emitExpression (PropertyAccessExpression lhs b) s =
  match lhs with
  | Identifier a =>
      match resolve s (scopeStack s) a with
      | Some (SScope scope) => OK (Scope_get s scope b) s
      | Some (SValue _) =>
          Err (UnsupportedExpression "Object property access not implemented yet") s
      | None => Err (UnresolvedName a) s
      end
  | _ => Err (UnsupportedExpression "Object property access not implemented yet") s
  end.
Proof.
  simpl. unfold emitPropertyAccessExpression.
  destruct lhs; try reflexivity.
  unfold bind, SymbolTable_get.
  destruct (resolve s (scopeStack s) text) as [[v|scope]|]; reflexivity.
Qed.

(** After [namespace M { function g(): void; }  function h(): void;]:
    [M.g] is the function bound to [g] in [M]; [M.h] finds nothing, although
    [h] is bound in the global scope; [h.g] is not supported; and an unbound
    left-hand side fails in the lookup. *)
Example qualified_access_in_namespace :
  emitExpression (PropertyAccessExpression (Identifier "M") "g") stateWithNamespace
  = OK (value (VFunction 0)) stateWithNamespace
  /\ emitExpression (PropertyAccessExpression (Identifier "M") "h") stateWithNamespace
     = OK None stateWithNamespace
  /\ emitExpression (Identifier "h") stateWithNamespace
     = OK (value (VFunction 1)) stateWithNamespace
  /\ emitExpression (PropertyAccessExpression (Identifier "h") "g") stateWithNamespace
     = Err (UnsupportedExpression "Object property access not implemented yet")
           stateWithNamespace
  /\ emitExpression (PropertyAccessExpression (Identifier "N") "g") stateWithNamespace
     = Err (UnresolvedName "N") stateWithNamespace.
Proof. vm_compute. repeat split. Qed.

(** C7 (as stated). In [a.b] with [a] bound nowhere, [a] does not resolve
    to a namespace scope, and lowering fails, but with the [UnresolvedName]
    error of the lookup, not with [UnsupportedExpression]. *)
Lemma unbound_qualifier_is_unresolved :
  resolve initialState (scopeStack initialState) "a" = None
  /\ emitExpression (PropertyAccessExpression (Identifier "a") "b") initialState
     = Err (UnresolvedName "a") initialState.
Proof. vm_compute. split; reflexivity. Qed.

(** ** What the builder inserts *)

Lemma inserted_fields op s :
  nextInst (inserted op s) = S (nextInst s)
  /\ insertBlock (inserted op s) = insertBlock s
  /\ length (blocks (inserted op s)) = length (blocks s)
  /\ functions (inserted op s) = functions s
  /\ scopes (inserted op s) = scopes s
  /\ scopeStack (inserted op s) = scopeStack s.
Proof.
  unfold inserted, insert, insertAtEnd. simpl.
  destruct (insertBlock s) eqn:E; simpl; repeat split; try apply length_alter; done.
Qed.

Lemma instructions_inserted op s b :
  insertBlock s = Some b -> b < length (blocks s) ->
  instructions (inserted op s) b
  = instructions s b ++ [{| inst_id := nextInst s; inst_op := op |}].
Proof.
  intros Hb Hlt. unfold instructions, inserted, insert, insertAtEnd.
  rewrite Hb. simpl. rewrite list_lookup_alter_eq.
  destruct (lookup_lt_is_Some_2 _ _ Hlt) as [bb ->]. reflexivity.
Qed.

Lemma instructions_inserted_other op s b :
  insertBlock s <> Some b ->
  instructions (inserted op s) b = instructions s b.
Proof.
  intros Hb. unfold instructions, inserted, insert, insertAtEnd.
  destruct (insertBlock s) as [c|]; simpl; [|done].
  rewrite list_lookup_alter_ne; [done | congruence].
Qed.

Lemma numbered_cons n op ops :
  numbered n (op :: ops) = {| inst_id := n; inst_op := op |} :: numbered (S n) ops.
Proof.
  unfold numbered. simpl. rewrite Nat.add_0_r. f_equal.
  apply imap_ext. intros i x _. simpl. f_equal. lia.
Qed.

Lemma instructions_insertedAll ops : forall s b,
  insertBlock s = Some b -> b < length (blocks s) ->
  instructions (insertedAll ops s) b = instructions s b ++ numbered (nextInst s) ops.
Proof.
  induction ops as [|op ops IH]; intros s b Hb Hlt.
  - simpl. by rewrite app_nil_r.
  - change (insertedAll (op :: ops) s) with (insertedAll ops (inserted op s)).
    destruct (inserted_fields op s) as (Hn & Hi & Hl & _).
    rewrite IH; [|congruence|lia].
    rewrite instructions_inserted by done.
    rewrite numbered_cons, Hn. by rewrite <- app_assoc.
Qed.

(** ** Assignment *)

(** C10. In [a = b], once both sides are lowered to values, the generator
    inserts a load of the right-hand side when that is a stack slot, then a
    store whose pointer operand is the value of the left-hand side as it
    came out of the lowering (a stack slot is not loaded from), and the
    value of the expression is the store instruction: the last instruction
    inserted. *)
Theorem assignment_yields_store lhs rhs s lv rv s1 s2 :
  emitExpression lhs s = OK (value lv) s1 ->
  emitExpression rhs s1 = OK (value rv) s2 ->
  let n := nextInst s2 in
  let stored := if isAlloca rv then VInstruction n LoadInst else rv in
  let ops := if isAlloca rv then [Load rv; Store stored lv] else [Store stored lv] in
  let store := n + length ops - 1 in
  emitExpression (BinaryExpression lhs EqualsToken rhs) s
  = OK (value (VInstruction store StoreInst)) (insertedAll ops s2)
  /\ last (numbered n ops) = Some {| inst_id := store; inst_op := Store stored lv |}
  /\ forall b, insertBlock s2 = Some b -> b < length (blocks s2) ->
       instructions (insertedAll ops s2) b = instructions s2 b ++ numbered n ops.
Proof.
  intros Hl Hr n stored ops store.
  split; [|split].
  - simpl. unfold emitBinaryExpression.
    rewrite (bind_OK _ _ _ _ _ Hl), (bind_OK _ _ _ _ _ Hr).
    subst n stored ops store.
    assert (Hn1 : forall m, m + 1 - 1 = m) by (intros; lia).
    assert (Hn2 : forall m, m + 2 - 1 = S m) by (intros; lia).
    destruct rv as [ | | | | | |id []]; simpl; rewrite ?Hn1, ?Hn2; reflexivity.
  - subst ops store. destruct (isAlloca rv); simpl; repeat f_equal; lia.
  - intros b Hb Hlt. by apply instructions_insertedAll.
Qed.

(** In the body of [f], after [let x = true], the assignment [x = false]
    is the store of [false] into the slot of [x], without any load. *)
Lemma assignment_yields_store_witness :
  emitExpression (BinaryExpression (Identifier "x") EqualsToken FalseKeyword) stateAfterLet
  = OK (value (VInstruction 2 StoreInst))
       (insertedAll [Store (VConstantInt 1 0) (VInstruction 0 AllocaInst)] stateAfterLet)
  /\ instructions
       (insertedAll [Store (VConstantInt 1 0) (VInstruction 0 AllocaInst)] stateAfterLet) 0
     = instructions stateAfterLet 0
       ++ [{| inst_id := 2; inst_op := Store (VConstantInt 1 0) (VInstruction 0 AllocaInst) |}].
Proof.
  assert (Hl : emitExpression (Identifier "x") stateAfterLet
               = OK (value (VInstruction 0 AllocaInst)) stateAfterLet)
    by (vm_compute; reflexivity).
  assert (Hr : emitExpression FalseKeyword stateAfterLet
               = OK (value (VConstantInt 1 0)) stateAfterLet)
    by (vm_compute; reflexivity).
  destruct (assignment_yields_store _ _ _ _ _ _ _ Hl Hr) as (Hrun & _ & Hcode).
  split; [exact Hrun|].
  apply (Hcode 0); [vm_compute; reflexivity | vm_compute; lia].
Defined.

(** ** Variable declarations *)

Lemma createLoadIfAlloca_value iv s :
  createLoadIfAlloca (value iv) s
  = OK (value (if isAlloca iv then VInstruction (nextInst s) LoadInst else iv))
       (if isAlloca iv then inserted (Load iv) s else s).
Proof. destruct iv as [ | | | | | |id []]; reflexivity. Qed.

Lemma setName_fields v name s :
  blocks (stateOf (setName v name s)) = blocks s
  /\ nextInst (stateOf (setName v name s)) = nextInst s
  /\ scopes (stateOf (setName v name s)) = scopes s
  /\ scopeStack (stateOf (setName v name s)) = scopeStack s
  /\ insertBlock (stateOf (setName v name s)) = insertBlock s.
Proof. destruct v; simpl; try case_decide; done. Qed.

Lemma setName_OK v name s : setName v name s = OK tt (stateOf (setName v name s)).
Proof. destruct v; simpl; try case_decide; done. Qed.

Lemma const_declaration d parentScope s init iv s1 :
  declaration_isConst d = true ->
  declaration_initializer d = Some init ->
  emitExpression init s = OK (value iv) s1 ->
  let name := declaration_name d in
  let v := if isAlloca iv then VInstruction (nextInst s1) LoadInst else iv in
  let s2 := if isAlloca iv then inserted (Load iv) s1 else s1 in
  let s3 := if hasName s2 v then s2 else stateOf (setName v name s2) in
  let s' := set_scopes (alter (bindEntry name (SValue v)) parentScope (scopes s3)) s3 in
  emitVariableDeclaration d parentScope s = OK tt s'
  /\ blocks s' = blocks s2
  /\ nextInst s' = nextInst s2
  /\ scope_entries <$> scopes s' !! parentScope
     = (fun sc => <[name := SValue v]> (scope_entries sc)) <$> scopes s2 !! parentScope.
Proof.
  intros Hc Hi He name v s2 s3 s'.
  assert (Hs3 : blocks s3 = blocks s2 /\ nextInst s3 = nextInst s2 /\ scopes s3 = scopes s2).
  { subst s3. destruct (hasName s2 v); [done|].
    destruct (setName_fields v name s2) as (? & ? & ? & _). done. }
  destruct Hs3 as (Hb & Hn & Hsc).
  split; [|split; [exact Hb | split; [exact Hn|]]].
  - unfold emitVariableDeclaration. rewrite Hc, Hi.
    rewrite (bind_OK _ _ _ _ _ He), (bind_OK _ _ _ _ _ (createLoadIfAlloca_value iv s1)).
    fold v s2. unfold value, bind, Scope_set. subst s' s3 name.
    destruct (hasName s2 v); [reflexivity|].
    by rewrite setName_OK.
  - subst s'. simpl. rewrite Hsc, list_lookup_alter_eq.
    by destruct (scopes s2 !! parentScope).
Qed.

Lemma mutable_declaration d parentScope s init iv s1 b bb fn entryBlock :
  declaration_isConst d = false ->
  declaration_initializer d = Some init ->
  emitExpression init s = OK (value iv) s1 ->
  let name := declaration_name d in
  let v := if isAlloca iv then VInstruction (nextInst s1) LoadInst else iv in
  let s2 := if isAlloca iv then inserted (Load iv) s1 else s1 in
  insertBlock s2 = Some b ->
  blocks s2 !! b = Some bb ->
  functions s2 !! bb_parent bb = Some fn ->
  head (fn_blocks fn) = Some entryBlock ->
  let n := nextInst s2 in
  let alloca := VInstruction n AllocaInst in
  let s3 := stateOf (insertAtEnd (Some entryBlock) (Alloca (declaration_type d)) s2) in
  let s4 := inserted (Store v alloca) (set_names ((alloca, name) :: names s3) s3) in
  let s' := set_scopes (alter (bindEntry name (SValue alloca)) parentScope (scopes s4)) s4 in
  emitVariableDeclaration d parentScope s = OK tt s'
  /\ (forall x, x < length (blocks s2) ->
        instructions s' x
        = instructions s2 x
          ++ (if decide (x = entryBlock)
              then [{| inst_id := n; inst_op := Alloca (declaration_type d) |}] else [])
          ++ (if decide (x = b)
              then [{| inst_id := S n; inst_op := Store v alloca |}] else []))
  /\ requestedName s' alloca = name
  /\ scope_entries <$> scopes s' !! parentScope
     = (fun sc => <[name := SValue alloca]> (scope_entries sc)) <$> scopes s2 !! parentScope.
Proof.
  intros Hc Hi He name v s2 Hb Hbb Hfn Hentry n alloca s3 s4 s'.
  split; [|split; [|split]].
  - unfold emitVariableDeclaration. rewrite Hc, Hi.
    rewrite (bind_OK _ _ _ _ _ He), (bind_OK _ _ _ _ _ (createLoadIfAlloca_value iv s1)).
    fold v s2.
    unfold createEntryBlockAlloca, currentFunction, bind at 1 2.
    rewrite Hb. simpl. rewrite Hbb, Hfn. simpl. rewrite Hentry.
    reflexivity.
  - intros x Hx. subst s' s4 s3. unfold instructions, inserted, insert, insertAtEnd.
    simpl. rewrite Hb. simpl.
    rewrite !list_lookup_alter.
    destruct (lookup_lt_is_Some_2 _ _ Hx) as [xb Hxb].
    repeat case_decide; subst; try congruence; rewrite ?Hxb; simpl;
      rewrite ?app_nil_r, <- ?app_assoc; reflexivity.
  - subst s' s4 s3 alloca. unfold requestedName, inserted, insert, insertAtEnd. simpl.
    destruct (insertBlock s2); simpl; by rewrite decide_True.
  - subst s' s4 s3. unfold inserted, insert, insertAtEnd. simpl.
    rewrite list_lookup_alter_eq.
    destruct (insertBlock s2); simpl; by destruct (scopes s2 !! parentScope).
Qed.

(** C6. For a declaration of a variable statement whose initializer lowers
    to a value [iv], load-resolved to [v] ([iv] itself, or the load the
    builder inserts when [iv] is a stack slot):  when the declaration is
    immutable, [v] itself is bound to the declared name, no instruction is
    created (no stack slot, no store), and the declared name is given to
    [v] only when [v] has no name yet;  when it is mutable, a stack slot of
    the resolved type, asked to be named after the variable, is appended to
    the entry block of the function that owns the block the builder is
    positioned on, [v] is stored into it at the insertion point, and the
    slot is what the declared name is bound to.  The remaining declarations
    of the statement are then lowered in the resulting state.

    The function that owns the builder's block is not always the function
    the declaration stands in: after a nested function declaration the
    builder is left on the last block of the nested function, and the slot
    and the store of a declaration that follows go there, behind its
    [ret void]. *)
Theorem variable_declaration_binding d rest parentScope s init iv s1 :
  declaration_initializer d = Some init ->
  emitExpression init s = OK (value iv) s1 ->
  let name := declaration_name d in
  let v := if isAlloca iv then VInstruction (nextInst s1) LoadInst else iv in
  let s2 := if isAlloca iv then inserted (Load iv) s1 else s1 in
  (declaration_isConst d = true ->
   let s3 := if hasName s2 v then s2 else stateOf (setName v name s2) in
   let s' := set_scopes (alter (bindEntry name (SValue v)) parentScope (scopes s3)) s3 in
   emitNode (VariableStatement (d :: rest)) parentScope s
   = emitNode (VariableStatement rest) parentScope s'
   /\ blocks s' = blocks s2
   /\ nextInst s' = nextInst s2
   /\ scope_entries <$> scopes s' !! parentScope
      = (fun sc => <[name := SValue v]> (scope_entries sc)) <$> scopes s2 !! parentScope)
  /\ (declaration_isConst d = false ->
      forall b bb fn entryBlock,
        insertBlock s2 = Some b ->
        blocks s2 !! b = Some bb ->
        functions s2 !! bb_parent bb = Some fn ->
        head (fn_blocks fn) = Some entryBlock ->
        let n := nextInst s2 in
        let alloca := VInstruction n AllocaInst in
        let s3 := stateOf (insertAtEnd (Some entryBlock) (Alloca (declaration_type d)) s2) in
        let s4 := inserted (Store v alloca) (set_names ((alloca, name) :: names s3) s3) in
        let s' := set_scopes (alter (bindEntry name (SValue alloca)) parentScope (scopes s4)) s4 in
        emitNode (VariableStatement (d :: rest)) parentScope s
        = emitNode (VariableStatement rest) parentScope s'
        /\ (forall x, x < length (blocks s2) ->
              instructions s' x
              = instructions s2 x
                ++ (if decide (x = entryBlock)
                    then [{| inst_id := n; inst_op := Alloca (declaration_type d) |}] else [])
                ++ (if decide (x = b)
                    then [{| inst_id := S n; inst_op := Store v alloca |}] else []))
        /\ requestedName s' alloca = name
        /\ scope_entries <$> scopes s' !! parentScope
           = (fun sc => <[name := SValue alloca]> (scope_entries sc))
               <$> scopes s2 !! parentScope).
Proof.
  intros Hi He name v s2. split.
  - intros Hc.
    destruct (const_declaration d parentScope s init iv s1 Hc Hi He)
      as (Hrun & Hrest).
    split; [|exact Hrest].
    change (emitNode (VariableStatement (d :: rest)) parentScope s)
      with ((emitVariableDeclaration d parentScope ;;;
             emitVariableStatement rest parentScope) s).
    by rewrite (bind_OK _ _ _ _ _ Hrun).
  - intros Hc b bb fn entryBlock Hb Hbb Hfn Hentry.
    destruct (mutable_declaration d parentScope s init iv s1 b bb fn entryBlock
                Hc Hi He Hb Hbb Hfn Hentry) as (Hrun & Hrest).
    split; [|exact Hrest].
    change (emitNode (VariableStatement (d :: rest)) parentScope s)
      with ((emitVariableDeclaration d parentScope ;;;
             emitVariableStatement rest parentScope) s).
    by rewrite (bind_OK _ _ _ _ _ Hrun).
Qed.

(** The declaration [const y = true] in the then-branch of [f] binds the
    constant and creates nothing.  In
    [function f(c: boolean): void { function g(): void {} let x = true; }]
    the declaration of [x] is lowered with the builder on the entry block
    of [g], block 1: the slot of [x] and its store are appended to that
    block, behind the [ret void] of [g], and the entry block of [f],
    block 0, the function the declaration stands in, gets nothing. *)
Lemma variable_declaration_binding_witness :
  (blocks (stateOf (emitNode
             (VariableStatement
                [{| declaration_name := "y"; declaration_isConst := true;
                    declaration_initializer := Some TrueKeyword;
                    declaration_type := boolTy |}]) 2 stateInThen))
   = blocks stateInThen)
  /\ parentOf stateAfterNestedFunction 0 = Some 0
  /\ parentOf stateAfterNestedFunction 1 = Some 1
  /\ insertBlock stateAfterNestedFunction = Some 1
  /\ instructions (stateOf (emitNode let_x_true 1 stateAfterNestedFunction)) 1
     = [{| inst_id := 0; inst_op := Ret None |};
        {| inst_id := 1; inst_op := Alloca boolTy |};
        {| inst_id := 2; inst_op := Store (VConstantInt 1 1) (VInstruction 1 AllocaInst) |}]
  /\ instructions (stateOf (emitNode let_x_true 1 stateAfterNestedFunction)) 0 = [].
Proof.
  split.
  - assert (He : emitExpression TrueKeyword stateInThen
                 = OK (value (VConstantInt 1 1)) stateInThen)
      by (vm_compute; reflexivity).
    destruct (variable_declaration_binding
                {| declaration_name := "y"; declaration_isConst := true;
                   declaration_initializer := Some TrueKeyword;
                   declaration_type := boolTy |}
                [] 2 stateInThen TrueKeyword _ _ eq_refl He) as (Hconst & _).
    destruct (Hconst eq_refl) as (Hrun & Hblocks & _).
    rewrite Hrun. vm_compute. reflexivity.
  - assert (He : emitExpression TrueKeyword stateAfterNestedFunction
                 = OK (value (VConstantInt 1 1)) stateAfterNestedFunction)
      by (vm_compute; reflexivity).
    destruct (variable_declaration_binding
                {| declaration_name := "x"; declaration_isConst := false;
                   declaration_initializer := Some TrueKeyword;
                   declaration_type := boolTy |}
                [] 1 stateAfterNestedFunction TrueKeyword _ _ eq_refl He) as (_ & Hmut).
    assert (Hb : insertBlock stateAfterNestedFunction = Some 1) by (vm_compute; reflexivity).
    assert (Hbb : blocks stateAfterNestedFunction !! 1
                  = Some {| bb_name := "entry"; bb_parent := 1;
                            bb_insts := [{| inst_id := 0; inst_op := Ret None |}] |})
      by (vm_compute; reflexivity).
    assert (Hfn : functions stateAfterNestedFunction !! 1
                  = Some {| fn_name := "f__g"; fn_returnType := VoidTy;
                            fn_parameterTypes := []; fn_linkage := ExternalLinkage;
                            fn_blocks := [1] |})
      by (vm_compute; reflexivity).
    destruct (Hmut eq_refl 1 _ _ 1 Hb Hbb Hfn eq_refl) as (Hrun & Hcode & _).
    split; [vm_compute; reflexivity|].
    split; [vm_compute; reflexivity|].
    split; [exact Hb|].
    unfold let_x_true. rewrite Hrun.
    change (stateOf (emitNode (VariableStatement []) 1 ?s')) with s'.
    split.
    + etransitivity; [apply (Hcode 1); vm_compute; lia | vm_compute; reflexivity].
    + etransitivity; [apply (Hcode 0); vm_compute; lia | vm_compute; reflexivity].
Defined.

(** ** Branches *)

Lemma getTerminator_inserted op s b :
  insertBlock s = Some b -> b < length (blocks s) ->
  isTerminator {| inst_id := nextInst s; inst_op := op |} = true ->
  getTerminator (inserted op s) b = Some {| inst_id := nextInst s; inst_op := op |}.
Proof.
  intros Hb Hlt Hterm. unfold getTerminator.
  pose proof (instructions_inserted op s b Hb Hlt) as Hins.
  unfold instructions in Hins.
  destruct (inserted_fields op s) as (_ & _ & Hlen & _).
  destruct (lookup_lt_is_Some_2 (blocks (inserted op s)) b) as [bb' Hbb']; [lia|].
  rewrite Hbb' in *. simpl in Hins. rewrite Hins, last_snoc. by rewrite Hterm.
Qed.

Lemma emitFoo_unfold block destination continuation parentScope s :
  emitFoo emitNode block destination continuation parentScope s =
  match match block with
        | Some statement => emitNode statement parentScope
        | None => ret tt
        end (set_insertBlock (Some destination) s) with
  | OK _ s1 =>
      match insertBlock s1 with
      | Some current =>
          match getTerminator s1 current with
          | Some _ => OK tt s1
          | None => OK tt (inserted (Br continuation) s1)
          end
      | None => Err (TypeError "getTerminator") s1
      end
  | Err e s1 => Err e s1
  end.
Proof.
  unfold emitFoo, bind, setInsertionPoint, insertBlockTerminator.
  set (lower := match block with
                | Some statement => emitNode statement parentScope
                | None => ret tt
                end).
  destruct (lower (set_insertBlock (Some destination) s)) as [[] s1|e s1]; [|done].
  destruct (insertBlock s1) as [current|]; [|done].
  by destruct (getTerminator s1 current).
Qed.

(** C4. The branch helper positions the builder on the destination block
    and lowers the statement there when there is one.  Where that leaves
    the builder on a block whose last instruction is a terminator, nothing
    is added; otherwise an unconditional branch to the continuation block
    is appended to that block.  Either way the block the builder is on ends
    in a terminator afterwards, and an absent statement makes the
    destination itself fall through to the continuation. *)
Theorem branch_helper_contract block destination continuation parentScope s s1 current :
  match block with
  | Some statement => emitNode statement parentScope
  | None => ret tt
  end (set_insertBlock (Some destination) s) = OK tt s1 ->
  insertBlock s1 = Some current ->
  current < length (blocks s1) ->
  let branch := {| inst_id := nextInst s1; inst_op := Br continuation |} in
  let s' := match getTerminator s1 current with
            | Some _ => s1
            | None => inserted (Br continuation) s1
            end in
  emitFoo emitNode block destination continuation parentScope s = OK tt s'
  /\ instructions s' current
     = instructions s1 current
       ++ match getTerminator s1 current with Some _ => [] | None => [branch] end
  /\ is_Some (getTerminator s' current)
  /\ insertBlock s' = Some current
  /\ (block = None -> current = destination /\ instructions s1 current = instructions s current).
Proof.
  intros Hlower Hcur Hlt branch s'.
  split; [|split; [|split; [|split]]].
  - rewrite emitFoo_unfold, Hlower, Hcur. subst s'.
    by destruct (getTerminator s1 current).
  - subst s'. destruct (getTerminator s1 current).
    + by rewrite app_nil_r.
    + by apply instructions_inserted.
  - subst s'. destruct (getTerminator s1 current) eqn:Hterm.
    + rewrite Hterm. by eexists.
    + rewrite getTerminator_inserted by done. by eexists.
  - subst s'. destruct (getTerminator s1 current); [done|].
    destruct (inserted_fields (Br continuation) s1) as (_ & Hi & _). congruence.
  - intros ->. unfold ret in Hlower. inversion Hlower; subst s1.
    simpl in Hcur. split; [congruence | reflexivity].
Qed.

(** The absent else-branch of [if (c) { ... }] in [f]: the else-block (2)
    gets a branch to the end-of-if block (3). *)
Lemma branch_helper_contract_witness :
  emitFoo emitNode None 2 3 1 stateInThen
  = OK tt (inserted (Br 3) (set_insertBlock (Some 2) stateInThen))
  /\ instructions (inserted (Br 3) (set_insertBlock (Some 2) stateInThen)) 2
     = [{| inst_id := 1; inst_op := Br 3 |}].
Proof.
  destruct (branch_helper_contract None 2 3 1 stateInThen
              (set_insertBlock (Some 2) stateInThen) 2)
    as (Hrun & Hcode & _); [reflexivity | reflexivity | vm_compute; lia |].
  split; [exact Hrun | exact Hcode].
Defined.

(** ** The end of a function body *)

(** A function with an empty body, in any state: with a void return type it
    gets the entry block [ret void] and is verified; with any other return
    type its entry block stays empty and the verification rejects it. *)
Lemma empty_body_outcome name parameters returnType parentScope s :
  let func := length (functions s) in
  let entryBlock := length (blocks s) in
  let declaration := FunctionDeclaration name parameters returnType (Some []) in
  exists s',
    emitNode declaration parentScope s
    = (if isVoidTy returnType then OK tt s' else Err (VerificationFailure func) s')
    /\ blocksOf s' func = [entryBlock]
    /\ instructions s' entryBlock
       = (if isVoidTy returnType
          then [{| inst_id := nextInst s; inst_op := Ret None |}] else [])
    /\ getTerminator s' entryBlock
       = (if isVoidTy returnType
          then Some {| inst_id := nextInst s; inst_op := Ret None |} else None)
    /\ verified s' = verified s ++ (if isVoidTy returnType then [func] else []).
Proof.
  intros func entryBlock declaration. subst declaration.
  simpl emitNode. unfold emitFunctionDeclaration.
  set (q := mangleFunctionDeclaration name (getScope s parentScope)).
  unfold bind at 1. unfold bind at 1. unfold Function_create at 1.
  set (s0 := set_lastUnique _ _).
  unfold bind at 1. unfold withScope. unfold bind at 1. unfold Scope_new at 1.
  unfold bind at 1.
  set (s1 := set_scopeStack _ _).
  destruct (bind_parameters_OK (length (scopes s0)) (signatureParameters parameters)
              (getArguments (length (functions s)) (map parameter_type parameters)) s1
              (getArguments_isArgument _ _)) as (s2 & Hrun & Hsame & Hother).
  unfold bind at 1. unfold bind at 1. rewrite Hrun.
  destruct Hsame as (Hf & Hb & Hg & Hn & Hi & Hst & Hw & Hv & Hl).
  clear Hrun Hother Hl Hw Hst Hi Hg.
  destruct s2 as [fs2 bs2 gs2 ns2 n2 ib2 sc2 st2 w2 v2].
  simpl in Hf, Hb, Hn, Hv. subst fs2 bs2 n2 v2.
  fold func.
  assert (Hfun : forall g, (alter (addBlock entryBlock) func (functions s ++ [g])) !! func
                           = Some (addBlock entryBlock g)).
  { intros g. rewrite list_lookup_alter_eq. unfold func. by rewrite lookup_snoc. }
  assert (Hblk : forall bb, (blocks s ++ [bb]) !! entryBlock = Some bb)
    by (intros; apply lookup_snoc).
  assert (Hblk' : forall f bb, alter f entryBlock (blocks s ++ [bb]) !! entryBlock = Some (f bb)).
  { intros f bb. by rewrite list_lookup_alter_eq, Hblk. }
  cbn -[alter lookup]. unfold getTerminator at 1. cbn -[alter lookup].
  fold func entryBlock. rewrite Hblk. cbn -[alter lookup].
  unfold bind, verifyFunction, functionWellFormed, blockWellFormed, Scope_set.
  destruct (isVoidTy returnType) eqn:Hvoid.
  - cbn -[alter lookup]. rewrite Hfun. cbn -[alter lookup]. rewrite Hblk'.
    cbn -[alter lookup].
    eexists. split; [reflexivity|].
    unfold blocksOf, instructions, getTerminator. cbn -[alter lookup].
    rewrite Hfun, !Hblk'. done.
  - cbn -[alter lookup]. rewrite Hfun. cbn -[alter lookup]. rewrite Hblk.
    cbn -[alter lookup].
    eexists. split; [reflexivity|].
    unfold blocksOf, instructions, getTerminator. cbn -[alter lookup].
    rewrite Hfun, !Hblk. by rewrite app_nil_r.
Qed.

(** C1. At the end of a body that leaves the builder on a block without
    terminator the generator appends a void return when the declared return
    type is void, after which the block ends in that return.  For any other
    return type it appends nothing, where the claim has the path marked as
    unreachable: the state is left as it is and the block stays without
    terminator; for the empty body the entry block stays empty and the
    verification that follows rejects the function, as it does
    [function f(): number {}]. *)
Theorem end_of_body_termination :
  (forall returnType s b,
      insertBlock s = Some b -> b < length (blocks s) -> getTerminator s b = None ->
      let s' := if isVoidTy returnType then inserted (Ret None) s else s in
      terminateBody returnType s = OK tt s'
      /\ getTerminator s' b
         = if isVoidTy returnType
           then Some {| inst_id := nextInst s; inst_op := Ret None |} else None)
  /\ (forall name parameters returnType parentScope s,
      isVoidTy returnType = false ->
      exists s',
        emitNode (FunctionDeclaration name parameters returnType (Some [])) parentScope s
        = Err (VerificationFailure (length (functions s))) s'
        /\ blocksOf s' (length (functions s)) = [length (blocks s)]
        /\ instructions s' (length (blocks s)) = [])
  /\ (emitNode nonVoidWithoutReturn 0 initialState
      = Err (VerificationFailure 0) (stateOf (emitNode nonVoidWithoutReturn 0 initialState))
      /\ blocksOf (stateOf (emitNode nonVoidWithoutReturn 0 initialState)) 0 = [0]
      /\ instructions (stateOf (emitNode nonVoidWithoutReturn 0 initialState)) 0 = []).
Proof.
  split; [|split; [|vm_compute; repeat split]].
  - intros returnType s b Hb Hlt Hterm s'.
    unfold terminateBody, bind, insertBlockTerminator. rewrite Hb, Hterm. subst s'.
    destruct (isVoidTy returnType); [|done].
    split; [reflexivity|]. by apply getTerminator_inserted.
  - intros name parameters returnType parentScope s Hvoid.
    destruct (empty_body_outcome name parameters returnType parentScope s)
      as (s' & Hrun & Hblocks & Hinsts & _).
    rewrite Hvoid in Hrun, Hinsts. by exists s'.
Qed.

(** In the body of [function f(c: boolean): number], on the empty entry
    block, the end of the body changes nothing. *)
Lemma end_of_body_termination_witness :
  terminateBody DoubleTy (stateInBody DoubleTy []) = OK tt (stateInBody DoubleTy [])
  /\ getTerminator (stateInBody DoubleTy []) 0 = None.
Proof.
  apply (proj1 end_of_body_termination DoubleTy (stateInBody DoubleTy []) 0);
    [vm_compute; reflexivity | vm_compute; lia | vm_compute; reflexivity].
Defined.


(** ** Expressions are straight-line code *)

Lemma nothing_added (l : list Instruction) (P : Prop) :
  exists added, l = l ++ added /\ nonTerminators added /\ (P -> added = []).
Proof.
  exists []. split; [by rewrite app_nil_r | split; [constructor | done]].
Qed.

Lemma straightLine_refl s : straightLine s s.
Proof. repeat split; try done. intros x. apply nothing_added. Qed.

Lemma straightLine_trans s1 s2 s3 :
  straightLine s1 s2 -> straightLine s2 s3 -> straightLine s1 s3.
Proof.
  intros (Hf & Hi & Hsc & Hst & Hw & Hv & Hl & Hn & Hp & Hc)
         (Hf' & Hi' & Hsc' & Hst' & Hw' & Hv' & Hl' & Hn' & Hp' & Hc').
  repeat split; try congruence; try lia.
  intros x. destruct (Hc x) as (a1 & E1 & N1 & O1), (Hc' x) as (a2 & E2 & N2 & O2).
    exists (a1 ++ a2). split; [by rewrite E2, E1, app_assoc|].
    split; [by apply Forall_app|].
    intros Hx. rewrite O1 by done. rewrite O2 by congruence. done.
Qed.

Lemma straight_ret {A} (a : A) : straight (ret a).
Proof. intros s. apply straightLine_refl. Qed.

Lemma straight_throw {A} e : straight (@throw A e).
Proof. intros s. apply straightLine_refl. Qed.

Lemma straight_bind {A B} (c : M A) (k : A -> M B) :
  straight c -> (forall a, straight (k a)) -> straight (bind c k).
Proof.
  intros Hc Hk s. unfold bind. specialize (Hc s).
  destruct (c s) as [a s1|e s1]; [|exact Hc].
  eapply straightLine_trans; [exact Hc | apply Hk].
Qed.

Lemma straight_insert op :
  isTerminator {| inst_id := 0; inst_op := op |} = false -> straight (insert op).
Proof.
  intros Hop s. unfold insert, insertAtEnd. simpl.
  destruct (insertBlock s) as [b|] eqn:Hb; simpl.
  - repeat split; simpl; try done; try lia.
    + apply length_alter.
    + intros x. rewrite list_lookup_alter. case_decide; [subst|done].
      by destruct (blocks s !! x).
    + intros x. unfold instructions. simpl. rewrite list_lookup_alter.
      case_decide.
      * subst x. destruct (blocks s !! b) as [bb|]; simpl.
        -- eexists. split; [reflexivity|]. split; [|intros; congruence].
           constructor; [exact Hop | constructor].
        -- apply nothing_added.
      * apply nothing_added.
  - repeat split; simpl; try done; try lia.
    intros x. apply nothing_added.
Qed.

Lemma straight_mapM {A B} (f : A -> M B) (l : list A) :
  Forall (fun x => straight (f x)) l -> straight (mapM f l).
Proof.
  induction 1 as [|x l Hx Hl IH]; simpl.
  - apply straight_ret.
  - apply straight_bind; [exact Hx|]. intros y.
    apply straight_bind; [exact IH|]. intros ys. apply straight_ret.
Qed.

Lemma straight_asValue method d : straight (asValue method d).
Proof. destruct d as [[v|sc]|]; [apply straight_ret | apply straight_throw ..]. Qed.

Lemma straight_createLoadIfAlloca d : straight (createLoadIfAlloca d).
Proof.
  destruct d as [[v|sc]|]; try apply straight_ret.
  destruct v as [ | | | | | |id []]; try apply straight_ret.
  simpl. apply straight_bind; [by apply straight_insert|]. intros l. apply straight_ret.
Qed.

Lemma straight_SymbolTable_get identifier : straight (SymbolTable_get identifier).
Proof.
  intros s. unfold SymbolTable_get.
  destruct (resolve s (scopeStack s) identifier); apply straightLine_refl.
Qed.

Lemma straight_createGlobalStringPtr text : straight (createGlobalStringPtr text).
Proof.
  intros s. unfold createGlobalStringPtr.
  destruct (insertBlock s) eqn:Hb; simpl; [|apply straightLine_refl].
  repeat split; try done. intros x. apply nothing_added.
Qed.

Lemma Expression_nested_ind (P : Expression -> Prop) :
  (forall lhs operatorToken rhs, P lhs -> P rhs -> P (BinaryExpression lhs operatorToken rhs)) ->
  (forall callee arguments, P callee -> Forall P arguments -> P (CallExpression callee arguments)) ->
  (forall lhs name, P lhs -> P (PropertyAccessExpression lhs name)) ->
  (forall text, P (Identifier text)) ->
  P TrueKeyword -> P FalseKeyword ->
  (forall text, P (StringLiteral text)) ->
  (forall kind, P (OtherExpression kind)) ->
  forall e, P e.
Proof.
  intros HB HC HP HI HT HF HS HO.
  fix IH 1. intros [lhs op rhs|callee arguments|lhs name|text| | |text|kind].
  - apply HB; apply IH.
  - apply HC; [apply IH|].
    revert arguments. fix IHargs 1. intros [|x arguments].
    + constructor.
    + constructor; [apply IH | apply IHargs].
  - apply HP, IH.
  - apply HI.
  - apply HT.
  - apply HF.
  - apply HS.
  - apply HO.
Qed.

(** Lowering an expression never moves the builder, creates no block and no
    function, and leaves the scopes alone: all it does to the module is to
    append instructions that are not terminators to the insertion block. *)
Lemma straight_emitExpression e : straight (emitExpression e).
Proof.
  induction e as [lhs op rhs IHl IHr|callee arguments IHc IHargs|lhs name _|text
                 | | |text|kind] using Expression_nested_ind; simpl.
  - unfold emitBinaryExpression.
    apply straight_bind; [exact IHl|]. intros l.
    apply straight_bind; [exact IHr|]. intros r.
    destruct op.
    + apply straight_bind; [apply straight_createLoadIfAlloca|]. intros v.
      apply straight_bind; [|intros; apply straight_ret].
      unfold createStore.
      apply straight_bind; [apply straight_asValue|]. intros v'.
      apply straight_bind; [apply straight_asValue|]. intros p.
      by apply straight_insert.
    + apply straight_bind; [apply straight_createLoadIfAlloca|]. intros a.
      apply straight_bind; [apply straight_createLoadIfAlloca|]. intros b.
      apply straight_bind; [|intros; apply straight_ret].
      unfold createFAdd.
      apply straight_bind; [apply straight_asValue|]. intros a'.
      apply straight_bind; [apply straight_asValue|]. intros b'.
      destruct (isConstant a' && isConstant b'); [apply straight_ret|].
      by apply straight_insert.
    + apply straight_throw.
  - unfold emitCallExpression.
    apply straight_bind; [exact IHc|]. intros c.
    apply straight_bind; [by apply straight_mapM|]. intros args.
    apply straight_bind; [|intros; apply straight_ret].
    unfold createCall.
    apply straight_bind; [apply straight_asValue|]. intros c'.
    apply straight_bind.
    { apply straight_mapM. apply Forall_forall. intros; apply straight_asValue. }
    intros a. by apply straight_insert.
  - unfold emitPropertyAccessExpression.
    destruct lhs; try apply straight_throw.
    apply straight_bind; [apply straight_SymbolTable_get|].
    intros [v|scope]; [apply straight_throw|].
    intros s. apply straightLine_refl.
  - unfold emitIdentifier.
    apply straight_bind; [apply straight_SymbolTable_get|]. intros; apply straight_ret.
  - apply straight_ret.
  - apply straight_ret.
  - unfold emitStringLiteral.
    apply straight_bind; [apply straight_createGlobalStringPtr|]. intros; apply straight_ret.
  - apply straight_throw.
Qed.

(** ** If/else *)

Lemma currentFunction_at s b bb :
  insertBlock s = Some b -> blocks s !! b = Some bb ->
  currentFunction s = OK (bb_parent bb) s.
Proof. intros Hb Hbb. unfold currentFunction. rewrite Hb. simpl. by rewrite Hbb. Qed.

Lemma emitIdentifier_resolved c v s :
  resolve s (scopeStack s) c = Some v ->
  emitExpression (Identifier c) s = OK (Some v) s.
Proof.
  intros H. simpl. unfold emitIdentifier, bind, SymbolTable_get. by rewrite H.
Qed.

(** A branch [{ return e; }] whose lowering succeeds: the destination block
    gets the code of [e], which holds no terminator, and then the return of
    its value; no branch to the continuation is added. *)
Lemma emitFoo_return e destination continuation parentScope s s' :
  destination < length (blocks s) ->
  emitFoo emitNode (Some (Block [ReturnStatement (Some e)]))
    destination continuation parentScope s = OK tt s' ->
  exists code r v,
    inst_op r = Ret (Some v)
    /\ nonTerminators code
    /\ instructions s' destination = instructions s destination ++ code ++ [r]
    /\ (forall x, x <> destination -> instructions s' x = instructions s x)
    /\ functions s' = functions s
    /\ length (blocks s') = length (blocks s)
    /\ insertBlock s' = Some destination.
Proof.
  intros Hlt Hrun. rewrite emitFoo_unfold in Hrun.
  set (sp := set_scopeStack (length (scopes s) :: scopeStack s)
               (set_scopes (scopes s ++ [newScope None])
                  (set_insertBlock (Some destination) s))).
  change (emitNode (Block [ReturnStatement (Some e)]) parentScope
            (set_insertBlock (Some destination) s))
    with (((emitReturnStatement (Some e) ;;; ret tt) ;;;
           (fun s => OK tt (set_scopeStack (tail (scopeStack s)) s))) sp) in Hrun.
  destruct (((emitReturnStatement (Some e) ;;; ret tt) ;;; _) sp) as [[] s1|] eqn:Hblock;
    [|discriminate].
  apply bind_OK_inv in Hblock as ([] & s2 & Hret & Hpop).
  apply bind_OK_inv in Hret as ([] & s3 & Hret & Hs3). inversion Hs3; subst s3; clear Hs3.
  inversion Hpop; subst s1; clear Hpop.
  unfold emitReturnStatement in Hret.
  apply bind_OK_inv in Hret as (d & se & He & Hret).
  apply bind_OK_inv in Hret as (d' & sl & Hl & Hret).
  apply bind_OK_inv in Hret as (r & sr & Hr & Hs2). inversion Hs2; subst sr; clear Hs2.
  unfold createRet in Hr.
  apply bind_OK_inv in Hr as (v & sl' & Hv & Hins).
  apply asValue_OK_inv in Hv as [-> ->].
  pose proof (straight_emitExpression e sp) as Fe. rewrite He in Fe. simpl in Fe.
  pose proof (straight_createLoadIfAlloca d se) as Fl. rewrite Hl in Fl. simpl in Fl.
  pose proof (straightLine_trans _ _ _ Fe Fl) as F.
  destruct F as (Hf & Hi & Hsc & Hst & Hw & Hv & Hlen & Hn & Hp & Hc).
  simpl in Hf, Hi, Hlen.
  assert (Hs2 : s2 = inserted (Ret (Some v)) sl) by (inversion Hins; reflexivity).
  subst s2. clear Hins.
  assert (Hib : insertBlock sl = Some destination) by (rewrite Hi; reflexivity).
  assert (Hlt' : destination < length (blocks sl)) by (rewrite Hlen; simpl; lia).
  destruct (inserted_fields (Ret (Some v)) sl) as (_ & Hib' & Hlen' & Hf' & _).
  assert (Hterm : getTerminator (set_scopeStack (tail (scopeStack (inserted (Ret (Some v)) sl)))
                                   (inserted (Ret (Some v)) sl)) destination
                  = Some {| inst_id := nextInst sl; inst_op := Ret (Some v) |})
    by (apply (getTerminator_inserted (Ret (Some v)) sl destination); done).
  assert (Hib2 : insertBlock (set_scopeStack (tail (scopeStack (inserted (Ret (Some v)) sl)))
                                (inserted (Ret (Some v)) sl)) = Some destination)
    by (change (insertBlock (inserted (Ret (Some v)) sl) = Some destination); congruence).
  rewrite Hib2, Hterm in Hrun.
  inversion Hrun; subst s'; clear Hrun.
  destruct (Hc destination) as (code & Hcode & Hnon & _).
  exists code, {| inst_id := nextInst sl; inst_op := Ret (Some v) |}, v.
  split; [reflexivity|]. split; [exact Hnon|].
  split; [|split; [|split; [|split]]].
  - change (instructions (inserted (Ret (Some v)) sl) destination
            = instructions s destination ++ code ++ [{| inst_id := nextInst sl;
                                                       inst_op := Ret (Some v) |}]).
    rewrite instructions_inserted by done. rewrite Hcode. by rewrite <- app_assoc.
  - intros x Hx.
    change (instructions (inserted (Ret (Some v)) sl) x = instructions s x).
    rewrite instructions_inserted_other by congruence.
    destruct (Hc x) as (added & Hadded & _ & Hnil).
    rewrite Hadded, Hnil; [by rewrite app_nil_r | simpl; congruence].
  - change (functions (inserted (Ret (Some v)) sl) = functions s). congruence.
  - change (length (blocks (inserted (Ret (Some v)) sl)) = length (blocks s)).
    rewrite Hlen'. exact Hlen.
  - exact Hib2.
Qed.


(** A branch [{ return b; }] puts the return in the destination block and
    gets no branch to the continuation. *)
Lemma emitFoo_return_boolean b destination continuation parentScope s :
  destination < length (blocks s) ->
  emitFoo emitNode (Some (Block [ReturnStatement (Some (booleanLiteral b))]))
    destination continuation parentScope s
  = OK tt
      (set_scopeStack (scopeStack s)
         (inserted (Ret (Some (booleanConstant b)))
            (set_scopeStack (length (scopes s) :: scopeStack s)
               (set_scopes (scopes s ++ [newScope None])
                  (set_insertBlock (Some destination) s))))).
Proof.
  intros Hlt. rewrite emitFoo_unfold.
  set (s0 := set_scopeStack _ (set_scopes _ (set_insertBlock (Some destination) s))).
  assert (Hrun : emitNode (Block [ReturnStatement (Some (booleanLiteral b))]) parentScope
                   (set_insertBlock (Some destination) s)
                 = OK tt (set_scopeStack (scopeStack s)
                            (inserted (Ret (Some (booleanConstant b))) s0)))
    by (destruct b; reflexivity).
  rewrite Hrun. simpl insertBlock.
  assert (Hterm : getTerminator (inserted (Ret (Some (booleanConstant b))) s0) destination
                  = Some {| inst_id := nextInst s0; inst_op := Ret (Some (booleanConstant b)) |})
    by (apply getTerminator_inserted; done).
  unfold getTerminator in *. simpl blocks in *. by rewrite Hterm.
Qed.

(** With boolean literals for [e1] and [e2] and a condition that resolves to
    a value the lowering does succeed, and the then-block and the else-block
    hold the return alone. *)
Lemma if_else_returning_booleans c b1 b2 parentScope s cv entryBlock bb fn :
  resolve s (scopeStack s) c = Some (SValue cv) ->
  insertBlock s = Some entryBlock ->
  blocks s !! entryBlock = Some bb ->
  functions s !! bb_parent bb = Some fn ->
  fn_blocks fn = [entryBlock] ->
  let n := length (blocks s) in
  let i := nextInst s in
  let f := bb_parent bb in
  exists s',
    emitNode (ifReturnsBooleans c b1 b2) parentScope s = OK tt s'
    /\ blocksOf s' f = [entryBlock; n; n + 1; n + 2]
    /\ instructions s' entryBlock
       = bb_insts bb ++ [{| inst_id := i; inst_op := CondBr cv n (n + 1) |}]
    /\ instructions s' n
       = [{| inst_id := i + 1; inst_op := Ret (Some (booleanConstant b1)) |}]
    /\ instructions s' (n + 1)
       = [{| inst_id := i + 2; inst_op := Ret (Some (booleanConstant b2)) |}]
    /\ instructions s' (n + 2) = []
    /\ insertBlock s' = Some (n + 2)
    /\ ifElseShape s' f = true.
Proof.
  intros Hc Hib Hbb Hfn Hfb n i f.
  assert (Hlt : entryBlock < n) by (eapply lookup_lt_Some; exact Hbb).
  destruct s as [fs bs gs ns i0 ib sc st w v].
  simpl in Hc, Hib, Hbb, Hfn, n, i. subst ib.
  eexists. split.
  - unfold ifReturnsBooleans. simpl emitNode. unfold emitIfStatement.
    erewrite bind_OK by (apply emitIdentifier_resolved; exact Hc).
    erewrite bind_OK by (eapply currentFunction_at; [reflexivity | exact Hbb]).
    erewrite bind_OK by reflexivity.
    erewrite bind_OK
      by (eapply currentFunction_at; [reflexivity | simpl; apply lookup_app_l_Some; exact Hbb]).
    erewrite bind_OK by reflexivity.
    erewrite bind_OK
      by (eapply currentFunction_at;
          [reflexivity | simpl; do 2 apply lookup_app_l_Some; exact Hbb]).
    erewrite bind_OK by reflexivity.
    erewrite bind_OK by reflexivity.
    erewrite bind_OK
      by (apply emitFoo_return_boolean; simpl; rewrite length_alter, !length_app; simpl; lia).
    erewrite bind_OK
      by (apply emitFoo_return_boolean; unfold inserted; simpl;
          rewrite !length_alter, !length_app; simpl; lia).
    reflexivity.
  - unfold ifElseShape, endsWithReturn, blocksOf, instructions, inserted. simpl.
    rewrite !length_app. simpl length. rewrite <- !app_assoc. simpl app.
    fold n i f.
    set (B := alter _ (n + 1) _).
    set (F := alter _ f _).
    assert (HF : F !! f = Some {| fn_name := fn_name fn; fn_returnType := fn_returnType fn;
                                  fn_parameterTypes := fn_parameterTypes fn;
                                  fn_linkage := fn_linkage fn;
                                  fn_blocks := [entryBlock; n; n + 1; n + 2] |}).
    { subst F. fold f in Hfn. rewrite !list_lookup_alter_eq, Hfn. unfold addBlock. simpl.
      rewrite Hfb. simpl. by replace (n + 1 + 1) with (n + 2) by lia. }
    assert (HBe : B !! entryBlock
                  = Some (appendInst {| inst_id := i; inst_op := CondBr cv n (n + 1) |} bb)).
    { subst B. rewrite !list_lookup_alter_ne by lia.
      rewrite list_lookup_alter_eq, lookup_app_l by done. by rewrite Hbb. }
    assert (HBt : B !! n
                  = Some {| bb_name := "then"; bb_parent := f;
                            bb_insts := [{| inst_id := i + 1;
                                            inst_op := Ret (Some (booleanConstant b1)) |}] |}).
    { subst B. rewrite list_lookup_alter_ne by lia.
      rewrite list_lookup_alter_eq, list_lookup_alter_ne by lia.
      rewrite list_lookup_middle by done. unfold appendInst. simpl.
      by replace (i + 1) with (S i) by lia. }
    assert (HBl : B !! (n + 1)
                  = Some {| bb_name := "else"; bb_parent := f;
                            bb_insts := [{| inst_id := i + 2;
                                            inst_op := Ret (Some (booleanConstant b2)) |}] |}).
    { subst B. rewrite list_lookup_alter_eq.
      rewrite !list_lookup_alter_ne by lia.
      unfold n. rewrite lookup_app_at. unfold appendInst. simpl.
      by replace (i + 2) with (S (S i)) by lia. }
    assert (HBn : B !! (n + 2)
                  = Some {| bb_name := "endif"; bb_parent := f; bb_insts := [] |}).
    { subst B. rewrite !list_lookup_alter_ne by lia.
      unfold n. by rewrite lookup_app_at. }
    rewrite HF, HBe, HBt, HBl, HBn. simpl.
    repeat split; [f_equal; lia|].
    by rewrite HBt, HBl.
Qed.

(** C3 (as amended). For [if (c) { return e1; } else { return e2; }] lowered
    with the builder on the only block of the current function: whenever
    the lowering of the statement succeeds, that function has exactly four
    blocks afterwards (entry, then, else, end-of-if) and the then-block and
    the else-block each end in a return, with nothing but instructions that
    are not terminators before it, so without a branch to the end-of-if
    block, which stays empty.  The lowering does succeed when [c] resolves
    to a value and [e1], [e2] are boolean literals, as in
    [if (c) { return true; } else { return false; }]; each of the two
    blocks is then the return of the literal alone. *)
Theorem if_else_of_returns :
  (forall condition e1 e2 parentScope s s' entryBlock bb fn,
      insertBlock s = Some entryBlock ->
      blocks s !! entryBlock = Some bb ->
      functions s !! bb_parent bb = Some fn ->
      fn_blocks fn = [entryBlock] ->
      emitNode (IfStatement condition
                  (Block [ReturnStatement (Some e1)])
                  (Some (Block [ReturnStatement (Some e2)]))) parentScope s = OK tt s' ->
      let n := length (blocks s) in
      let f := bb_parent bb in
      blocksOf s' f = [entryBlock; n; n + 1; n + 2]
      /\ (exists code br v,
            nonTerminators code /\ inst_op br = CondBr v n (n + 1)
            /\ instructions s' entryBlock = bb_insts bb ++ code ++ [br])
      /\ (exists code r v,
            nonTerminators code /\ inst_op r = Ret (Some v)
            /\ instructions s' n = code ++ [r])
      /\ (exists code r v,
            nonTerminators code /\ inst_op r = Ret (Some v)
            /\ instructions s' (n + 1) = code ++ [r])
      /\ instructions s' (n + 2) = []
      /\ insertBlock s' = Some (n + 2)
      /\ ifElseShape s' f = true)
  /\ (forall c b1 b2 parentScope s cv entryBlock bb fn,
      resolve s (scopeStack s) c = Some (SValue cv) ->
      insertBlock s = Some entryBlock ->
      blocks s !! entryBlock = Some bb ->
      functions s !! bb_parent bb = Some fn ->
      fn_blocks fn = [entryBlock] ->
      let n := length (blocks s) in
      let i := nextInst s in
      let f := bb_parent bb in
      exists s',
        emitNode (ifReturnsBooleans c b1 b2) parentScope s = OK tt s'
        /\ blocksOf s' f = [entryBlock; n; n + 1; n + 2]
        /\ instructions s' entryBlock
           = bb_insts bb ++ [{| inst_id := i; inst_op := CondBr cv n (n + 1) |}]
        /\ instructions s' n
           = [{| inst_id := i + 1; inst_op := Ret (Some (booleanConstant b1)) |}]
        /\ instructions s' (n + 1)
           = [{| inst_id := i + 2; inst_op := Ret (Some (booleanConstant b2)) |}]
        /\ instructions s' (n + 2) = []
        /\ insertBlock s' = Some (n + 2)
        /\ ifElseShape s' f = true).
Proof.
  split; [|exact if_else_returning_booleans].
  {
    intros condition e1 e2 parentScope s s' entryBlock bb fn Hib Hbb Hfn Hfb Hrun n f.
    assert (Hlt : entryBlock < n) by (eapply lookup_lt_Some; exact Hbb).
    simpl emitNode in Hrun. unfold emitIfStatement in Hrun.
    apply bind_OK_inv in Hrun as (cond & s1 & Hcond & Hrun).
    pose proof (straight_emitExpression condition s) as Fc. rewrite Hcond in Fc.
    destruct Fc as (Hf1 & Hi1 & _ & _ & _ & _ & Hlen1 & _ & Hp1 & Hc1). simpl in *.
    rewrite Hib in Hi1.
    destruct (blocks s1 !! entryBlock) as [bb1|] eqn:Hbb1;
      [|specialize (Hp1 entryBlock); rewrite Hbb1, Hbb in Hp1; discriminate].
    assert (Hpar : bb_parent bb1 = f).
    { specialize (Hp1 entryBlock). rewrite Hbb1, Hbb in Hp1. by inversion Hp1. }
    assert (Hcur : forall s2, insertBlock s2 = Some entryBlock ->
                              blocks s2 !! entryBlock = Some bb1 ->
                              currentFunction s2 = OK f s2).
    { intros s2 H1 H2. rewrite <- Hpar. by apply (currentFunction_at s2 entryBlock bb1). }
    rewrite (bind_OK _ _ _ _ _ (Hcur s1 Hi1 Hbb1)) in Hrun.
    erewrite bind_OK in Hrun by reflexivity.
    erewrite bind_OK in Hrun
      by (apply Hcur; [exact Hi1 | simpl; apply lookup_app_l_Some; exact Hbb1]).
    erewrite bind_OK in Hrun by reflexivity.
    erewrite bind_OK in Hrun
      by (apply Hcur; [exact Hi1 | simpl; do 2 apply lookup_app_l_Some; exact Hbb1]).
    erewrite bind_OK in Hrun by reflexivity.
    simpl blocks in Hrun. rewrite !length_app in Hrun. simpl length in Hrun.
    rewrite Hlen1 in Hrun. fold n in Hrun.
    replace (n + 1 + 1) with (n + 2) in Hrun by lia.
    match type of Hrun with _ ?st = _ => set (s4 := st) in Hrun end.
    assert (Hf4 : functions s4
                  = alter (addBlock (n + 2)) f
                      (alter (addBlock (n + 1)) f (alter (addBlock n) f (functions s))))
      by (subst s4; simpl; by rewrite Hf1).
    assert (Hb4 : blocks s4
                  = blocks s1 ++ [{| bb_name := "then"; bb_parent := f; bb_insts := [] |};
                                  {| bb_name := "else"; bb_parent := f; bb_insts := [] |};
                                  {| bb_name := "endif"; bb_parent := f; bb_insts := [] |}])
      by (subst s4; simpl; by rewrite <- !app_assoc).
    assert (Hi4 : insertBlock s4 = Some entryBlock) by exact Hi1.
    clearbody s4.
    assert (Hlen4 : length (blocks s4) = n + 3)
      by (rewrite Hb4, length_app, Hlen1; reflexivity).
    assert (Hins4 : forall x, x < n -> instructions s4 x = instructions s1 x).
    { intros x Hx. unfold instructions. rewrite Hb4, lookup_app_l by lia. done. }
    assert (Hnew4 : instructions s4 n = [] /\ instructions s4 (n + 1) = []
                    /\ instructions s4 (n + 2) = []).
    { unfold instructions. rewrite Hb4. unfold n. rewrite <- Hlen1.
      rewrite (list_lookup_middle (blocks s1) _ _ (length (blocks s1))) by done.
      by rewrite !lookup_app_at. }
    destruct Hnew4 as (Hthen4 & Helse4 & Hend4).
    apply bind_OK_inv in Hrun as (br & s5 & Hbr & Hrun).
    unfold createCondBr in Hbr. apply bind_OK_inv in Hbr as (cv & s4' & Hcv & Hbr).
    apply asValue_OK_inv in Hcv as [-> ->].
    assert (Hs5 : s5 = inserted (CondBr cv n (n + 1)) s4) by (inversion Hbr; reflexivity).
    clear Hbr.
    destruct (inserted_fields (CondBr cv n (n + 1)) s4) as (_ & Hi5 & Hlen5 & Hf5 & _).
    rewrite <- Hs5 in Hi5, Hlen5, Hf5.
    apply bind_OK_inv in Hrun as ([] & s6 & Hthen & Hrun).
    apply emitFoo_return in Hthen
      as (code1 & r1 & v1 & Hr1 & Hn1 & Ht6 & Ho6 & Hf6 & Hlen6 & Hi6); [|lia].
    apply bind_OK_inv in Hrun as ([] & s7 & Helse & Hrun).
    apply emitFoo_return in Helse
      as (code2 & r2 & v2 & Hr2 & Hn2 & Ht7 & Ho7 & Hf7 & Hlen7 & Hi7); [|lia].
    inversion Hrun; subst s'; clear Hrun.
    assert (He5 : instructions s5 entryBlock
                  = instructions s4 entryBlock
                    ++ [{| inst_id := nextInst s4; inst_op := CondBr cv n (n + 1) |}])
      by (rewrite Hs5; apply instructions_inserted; [done | lia]).
    assert (Ho5 : forall x, x <> entryBlock -> instructions s5 x = instructions s4 x)
      by (intros x Hx; rewrite Hs5; apply instructions_inserted_other; congruence).
    change (blocksOf (set_insertBlock (Some (n + 2)) s7) f) with (blocksOf s7 f).
    change (ifElseShape (set_insertBlock (Some (n + 2)) s7) f) with (ifElseShape s7 f).
    change (instructions (set_insertBlock (Some (n + 2)) s7)) with (instructions s7).
    assert (Hblocks : blocksOf s7 f = [entryBlock; n; n + 1; n + 2]).
    { unfold blocksOf. rewrite Hf7, Hf6, Hf5, Hf4, !list_lookup_alter_eq.
      fold f in Hfn. rewrite Hfn. simpl. by rewrite Hfb. }
    assert (Hthen : instructions s7 n = code1 ++ [r1]).
    { rewrite Ho7 by lia. rewrite Ht6, Ho5 by lia. by rewrite Hthen4. }
    assert (Helse : instructions s7 (n + 1) = code2 ++ [r2]).
    { rewrite Ht7, Ho6 by lia. rewrite Ho5 by lia. by rewrite Helse4. }
    split; [exact Hblocks|].
    split.
    { destruct (Hc1 entryBlock) as (code & Hcode & Hnon & _).
      exists code, {| inst_id := nextInst s4; inst_op := CondBr cv n (n + 1) |}, cv.
      split; [exact Hnon|]. split; [reflexivity|].
      rewrite Ho7 by lia. rewrite Ho6 by lia. rewrite He5, Hins4 by lia.
      rewrite Hcode. unfold instructions at 1. rewrite Hbb. simpl.
      by rewrite <- app_assoc. }
    split; [by exists code1, r1, v1|].
    split; [by exists code2, r2, v2|].
    split.
    { rewrite Ho7 by lia. rewrite Ho6 by lia. rewrite Ho5 by lia. exact Hend4. }
    split; [reflexivity|].
    unfold ifElseShape, endsWithReturn. rewrite Hblocks, Hthen, Helse, !last_snoc.
    destruct r1, r2. simpl in Hr1, Hr2. by rewrite Hr1, Hr2.
  }
Qed.

(** In the body of [function f(c: boolean): boolean], the statement
    [if (c) { return true; } else { return false; }]. *)
Lemma if_else_of_returns_witness :
  exists s',
    emitNode (ifReturnsBooleans "c" true false) 1 (stateInBody boolTy []) = OK tt s'
    /\ blocksOf s' 0 = [0; 1; 2; 3]
    /\ instructions s' 1 = [{| inst_id := 1; inst_op := Ret (Some (VConstantInt 1 1)) |}]
    /\ instructions s' 2 = [{| inst_id := 2; inst_op := Ret (Some (VConstantInt 1 0)) |}]
    /\ ifElseShape s' 0 = true.
Proof.
  assert (Hc : resolve (stateInBody boolTy []) (scopeStack (stateInBody boolTy [])) "c"
               = Some (SValue (VArgument 0 0))) by (vm_compute; reflexivity).
  assert (Hib : insertBlock (stateInBody boolTy []) = Some 0) by (vm_compute; reflexivity).
  assert (Hbb : blocks (stateInBody boolTy []) !! 0
                = Some {| bb_name := "entry"; bb_parent := 0; bb_insts := [] |})
    by (vm_compute; reflexivity).
  assert (Hfn : functions (stateInBody boolTy []) !! 0
                = Some {| fn_name := "f"; fn_returnType := boolTy;
                          fn_parameterTypes := [boolTy]; fn_linkage := ExternalLinkage;
                          fn_blocks := [0] |})
    by (vm_compute; reflexivity).
  destruct (proj2 if_else_of_returns "c" true false 1 _ _ _ _ _ Hc Hib Hbb Hfn eq_refl)
    as (s' & Hrun & Hblocks & _ & Hthen & Helse & _ & _ & Hshape).
  exists s'. split; [exact Hrun|].
  destruct (proj1 if_else_of_returns _ _ _ _ _ _ _ _ _ Hib Hbb Hfn eq_refl Hrun)
    as (Hblocks' & _ & _ & _ & _ & _ & Hshape').
  repeat split; assumption.
Defined.

(** C3 (as stated). With the numeric literals [1] and [2] the lowering of
    the statement stops at the first [return]: the four blocks exist, but
    the then-block and the else-block are empty and end in no return. *)
Lemma if_returns_numbers_not_lowered :
  ifReturnsNumbersOutcome
  = Err (UnsupportedExpression "Unhandled ts.Expression 'FirstLiteralToken'")
        (stateOf ifReturnsNumbersOutcome)
  /\ blocksOf (stateOf ifReturnsNumbersOutcome) 0 = [0; 1; 2; 3]
  /\ instructions (stateOf ifReturnsNumbersOutcome) 1 = []
  /\ instructions (stateOf ifReturnsNumbersOutcome) 2 = []
  /\ ifElseShape (stateOf ifReturnsNumbersOutcome) 0 = false.
Proof. vm_compute. repeat split. Qed.

(** ** Block structure *)

(** C2. Where the entry block of the current function already ends in a
    terminator, [createEntryBlockAlloca] appends the stack slot behind that
    terminator, and the block is ill-formed from then on.  Three functions
    show what the lowering leaves behind.  In [slotInBranch] every
    statement is lowered without error; the slot of [x] is in the entry
    block after the conditional branch, and the verification at the end
    rejects the function.  In [returnTwice] the entry block gets two
    returns.  In [callAfterFunction] the function is lowered, verified and
    bound, and the top-level call that follows is then appended to its
    entry block, after the return. *)
Theorem blocks_left_ill_formed :
  (forall type name s b bb fn entryBlock t,
      insertBlock s = Some b ->
      blocks s !! b = Some bb ->
      functions s !! bb_parent bb = Some fn ->
      head (fn_blocks fn) = Some entryBlock ->
      getTerminator s entryBlock = Some t ->
      exists s' before,
        createEntryBlockAlloca type name s = OK (VInstruction (nextInst s) AllocaInst) s'
        /\ instructions s entryBlock = before ++ [t]
        /\ isTerminator t = true
        /\ instructions s' entryBlock
           = before ++ [t; {| inst_id := nextInst s; inst_op := Alloca type |}]
        /\ blockWellFormed s' entryBlock = false)
  /\ (emitNode slotInBranch 0 initialState
      = Err (VerificationFailure 0) (stateOf (emitNode slotInBranch 0 initialState))
      /\ blocksOf (stateOf (emitNode slotInBranch 0 initialState)) 0 = [0; 1; 2; 3]
      /\ instructions (stateOf (emitNode slotInBranch 0 initialState)) 0
         = [{| inst_id := 0; inst_op := CondBr (VArgument 0 0) 1 2 |};
            {| inst_id := 1; inst_op := Alloca boolTy |}]
      /\ instructions (stateOf (emitNode slotInBranch 0 initialState)) 3
         = [{| inst_id := 5; inst_op := Ret None |}]
      /\ blockWellFormed (stateOf (emitNode slotInBranch 0 initialState)) 0 = false)
  /\ (emitNode returnTwice 0 initialState
      = Err (VerificationFailure 0) (stateOf (emitNode returnTwice 0 initialState))
      /\ instructions (stateOf (emitNode returnTwice 0 initialState)) 0
         = [{| inst_id := 0; inst_op := Ret None |};
            {| inst_id := 1; inst_op := Ret None |}]
      /\ blockWellFormed (stateOf (emitNode returnTwice 0 initialState)) 0 = false)
  /\ (emitSourceFile callAfterFunction initialState
      = OK tt (stateOf (emitSourceFile callAfterFunction initialState))
      /\ verified (stateOf (emitSourceFile callAfterFunction initialState)) = [0]
      /\ instructions (stateOf (emitSourceFile callAfterFunction initialState)) 0
         = [{| inst_id := 0; inst_op := Ret None |};
            {| inst_id := 1; inst_op := Call (VFunction 0) [] |}]
      /\ blockWellFormed (stateOf (emitSourceFile callAfterFunction initialState)) 0 = false).
Proof.
  split; [|vm_compute; repeat split].
  {
    intros type name s b bb fn entryBlock t Hb Hbb Hfn Hentry Hterm.
    unfold getTerminator in Hterm.
    destruct (blocks s !! entryBlock) as [eb|] eqn:Heb; [|done].
    destruct (last (bb_insts eb)) as [t'|] eqn:Hlast; [|done].
    destruct (isTerminator t') eqn:Ht; [|done]. inversion Hterm; subst t'.
    apply last_Some in Hlast as [before Hbefore].
    eexists. exists before. split; [|split; [|split; [exact Ht|split]]].
    + unfold createEntryBlockAlloca. erewrite bind_OK by (eapply currentFunction_at; eauto).
      rewrite Hfn. simpl. rewrite Hentry. reflexivity.
    + unfold instructions. by rewrite Heb.
    + unfold instructions. simpl. rewrite list_lookup_alter_eq, Heb. simpl.
      by rewrite Hbefore, <- app_assoc.
    + unfold blockWellFormed. simpl. rewrite list_lookup_alter_eq, Heb. simpl.
      unfold wellTerminated. by rewrite reverse_snoc.
  }
Qed.

(** In the then-branch of [if (c) { ... }] in [f], a stack slot lands in the
    entry block behind the conditional branch. *)
Lemma blocks_left_ill_formed_witness :
  exists s',
    createEntryBlockAlloca boolTy "x" stateInThen = OK (VInstruction 1 AllocaInst) s'
    /\ instructions s' 0
       = [{| inst_id := 0; inst_op := CondBr (VArgument 0 0) 1 2 |};
          {| inst_id := 1; inst_op := Alloca boolTy |}]
    /\ blockWellFormed s' 0 = false.
Proof.
  assert (Hb : insertBlock stateInThen = Some 1) by (vm_compute; reflexivity).
  assert (Hbb : blocks stateInThen !! 1
                = Some {| bb_name := "then"; bb_parent := 0; bb_insts := [] |})
    by (vm_compute; reflexivity).
  assert (Hfn : functions stateInThen !! 0
                = Some {| fn_name := "f"; fn_returnType := VoidTy;
                          fn_parameterTypes := [boolTy]; fn_linkage := ExternalLinkage;
                          fn_blocks := [0; 1; 2; 3] |})
    by (vm_compute; reflexivity).
  assert (Hterm : getTerminator stateInThen 0
                  = Some {| inst_id := 0; inst_op := CondBr (VArgument 0 0) 1 2 |})
    by (vm_compute; reflexivity).
  destruct (proj1 blocks_left_ill_formed boolTy "x" stateInThen 1 _ _ 0 _
              Hb Hbb Hfn eq_refl Hterm) as (s' & before & Hrun & Hold & _ & Hnew & Hwf).
  exists s'. split; [exact Hrun|]. split; [|exact Hwf].
  rewrite Hnew.
  assert (Hbefore : before = []).
  { assert (Hentry : instructions stateInThen 0
                     = [] ++ [{| inst_id := 0; inst_op := CondBr (VArgument 0 0) 1 2 |}])
      by (vm_compute; reflexivity).
    rewrite Hentry in Hold. symmetry in Hold.
    by apply app_inj_tail in Hold as [-> _]. }
  by rewrite Hbefore.
Defined.

(** * Further properties of the generator *)

(** ** Expressions *)

Lemma getTerminator_last s b :
  getTerminator s b
  = match last (instructions s b) with
    | Some i => if isTerminator i then Some i else None
    | None => None
    end.
Proof. unfold getTerminator, instructions. by destruct (blocks s !! b). Qed.

Lemma last_app_nonTerminators (l added : list Instruction) :
  nonTerminators added ->
  match last l with Some i => if isTerminator i then Some i else None | None => None end = None ->
  match last (l ++ added) with
  | Some i => if isTerminator i then Some i else None
  | None => None
  end = None.
Proof.
  intros Hnon Hl. destruct added as [|a added _] using rev_ind.
  - by rewrite app_nil_r.
  - rewrite app_assoc, last_snoc.
    apply Forall_app in Hnon as [_ Ha]. inversion Ha; subst. by rewrite H1.
Qed.

(** X1. Lowering an expression, whether it succeeds or fails, is
    straight-line code: the functions, the number of blocks, the insertion
    block, the scopes, the scope stack and the logs are the same afterwards;
    every block keeps its instructions, and only the insertion block can get
    more, none of which is a terminator.  So a block without terminator has
    none afterwards, and a block other than the insertion block that is
    well-formed stays well-formed. *)
Theorem expression_lowering_is_straight_line e s :
  let s' := stateOf (emitExpression e s) in
  functions s' = functions s
  /\ length (blocks s') = length (blocks s)
  /\ insertBlock s' = insertBlock s
  /\ scopes s' = scopes s
  /\ scopeStack s' = scopeStack s
  /\ warnings s' = warnings s
  /\ verified s' = verified s
  /\ (forall x, exists added,
        instructions s' x = instructions s x ++ added
        /\ nonTerminators added
        /\ (insertBlock s <> Some x -> added = []))
  /\ (forall x, getTerminator s x = None -> getTerminator s' x = None)
  /\ (forall x, insertBlock s <> Some x -> blockWellFormed s' x = blockWellFormed s x).
Proof.
  intros s'.
  destruct (straight_emitExpression e s)
    as (Hf & Hi & Hsc & Hst & Hw & Hv & Hlen & Hn & Hp & Hc).
  fold s' in Hf, Hi, Hsc, Hst, Hw, Hv, Hlen, Hn, Hp, Hc.
  do 7 (split; [assumption|]).
  split; [exact Hc|]. split.
  - intros x Hx. rewrite getTerminator_last in *.
    destruct (Hc x) as (added & -> & Hnon & _).
    by apply last_app_nonTerminators.
  - intros x Hx. destruct (Hc x) as (added & Hadded & _ & Hnil).
    rewrite (Hnil Hx), app_nil_r in Hadded.
    unfold blockWellFormed. unfold instructions in Hadded.
    pose proof (Hp x) as Hpx.
    destruct (blocks s' !! x) as [bb'|], (blocks s !! x) as [bb|];
      simpl in *; try discriminate; [by rewrite Hadded | done].
Qed.

(** ** Return statements *)

(** X2. [return;] appends a void return at the insertion point.  [return e;]
    lowers [e]; when that gives a value, a stack slot is loaded from first,
    and the return of the value (of the loaded value, for a slot) is
    appended, so that the insertion block then ends in that return.  When
    [e] lowers to something that is not a value ([undefined], a namespace)
    the statement fails after the code of [e], and no return is appended. *)
Theorem return_statement_lowering :
  (forall parentScope s,
      emitNode (ReturnStatement None) parentScope s = OK tt (inserted (Ret None) s))
  /\ (forall e parentScope s d s1,
      emitExpression e s = OK d s1 ->
      match d with
      | Some (SValue v) =>
          let n := nextInst s1 in
          let returned := if isAlloca v then VInstruction n LoadInst else v in
          let ops := if isAlloca v then [Load v; Ret (Some returned)]
                     else [Ret (Some returned)] in
          emitNode (ReturnStatement (Some e)) parentScope s = OK tt (insertedAll ops s1)
          /\ forall b, insertBlock s1 = Some b -> b < length (blocks s1) ->
               instructions (insertedAll ops s1) b = instructions s1 b ++ numbered n ops
               /\ getTerminator (insertedAll ops s1) b
                  = Some {| inst_id := n + length ops - 1; inst_op := Ret (Some returned) |}
      | _ =>
          emitNode (ReturnStatement (Some e)) parentScope s = Err (TypeError "createRet") s1
      end).
Proof.
  split; [reflexivity|].
  intros e parentScope s d s1 He.
  simpl emitNode. unfold emitReturnStatement.
  rewrite (bind_OK _ _ _ _ _ He).
  destruct d as [[v|scope]|]; [|reflexivity..].
  destruct v as [ | | | | | |id []]; simpl isAlloca; cbv iota;
    (split; [reflexivity|]); intros b Hb Hlt;
    match goal with
    | |- context [insertedAll ?ops s1] =>
        pose proof (instructions_insertedAll ops s1 b Hb Hlt) as Hcode
    end;
    (split; [exact Hcode|]);
    rewrite getTerminator_last, Hcode, last_app; simpl;
    do 2 f_equal; lia.
Qed.

(** In the body of [f], after [let x = true], [return x;] loads the slot of
    [x] and returns the loaded value. *)
Lemma return_statement_lowering_witness :
  emitNode (ReturnStatement (Some (Identifier "x"))) 1 stateAfterLet
  = OK tt (insertedAll [Load (VInstruction 0 AllocaInst);
                        Ret (Some (VInstruction 2 LoadInst))] stateAfterLet)
  /\ getTerminator
       (insertedAll [Load (VInstruction 0 AllocaInst);
                     Ret (Some (VInstruction 2 LoadInst))] stateAfterLet) 0
     = Some {| inst_id := 3; inst_op := Ret (Some (VInstruction 2 LoadInst)) |}.
Proof.
  assert (He : emitExpression (Identifier "x") stateAfterLet
               = OK (value (VInstruction 0 AllocaInst)) stateAfterLet)
    by (vm_compute; reflexivity).
  destruct (proj2 return_statement_lowering (Identifier "x") 1 stateAfterLet _ _ He)
    as (Hrun & Hcode).
  split; [exact Hrun|].
  apply (Hcode 0); [vm_compute; reflexivity | vm_compute; lia].
Defined.

(** ** Addition and calls *)

(** X3. In [a + b] both operands are lowered before either is loaded; when
    both give values, a stack slot among them is loaded from, the left one
    first.  When the two values are constants (literals, functions), the
    builder folds the addition: no instruction is inserted and the value of
    the expression is the constant sum.  Otherwise the floating-point
    addition of the two (loaded) values is appended last, and it is the
    value of the expression. *)
Theorem addition_lowering lhs rhs s lv rv s1 s2 :
  emitExpression lhs s = OK (value lv) s1 ->
  emitExpression rhs s1 = OK (value rv) s2 ->
  let n := nextInst s2 in
  let loadLeft := if isAlloca lv then [Load lv] else [] in
  let loadRight := if isAlloca rv then [Load rv] else [] in
  let l := if isAlloca lv then VInstruction n LoadInst else lv in
  let r := if isAlloca rv then VInstruction (n + length loadLeft) LoadInst else rv in
  let folded := isConstant lv && isConstant rv in
  let ops := if folded then [] else loadLeft ++ loadRight ++ [FAdd l r] in
  let sum := if folded then VConstantFAdd lv rv
             else VInstruction (n + length ops - 1) BinaryOperator in
  emitExpression (BinaryExpression lhs PlusToken rhs) s = OK (value sum) (insertedAll ops s2)
  /\ (folded = true -> insertedAll ops s2 = s2)
  /\ forall b, insertBlock s2 = Some b -> b < length (blocks s2) ->
       instructions (insertedAll ops s2) b = instructions s2 b ++ numbered n ops.
Proof.
  intros Hl Hr n loadLeft loadRight l r folded ops sum.
  split; [|split; [|intros b Hb Hlt; by apply instructions_insertedAll]].
  2: { subst ops. by intros ->. }
  simpl. unfold emitBinaryExpression.
  rewrite (bind_OK _ _ _ _ _ Hl), (bind_OK _ _ _ _ _ Hr).
  subst n loadLeft loadRight l r folded ops sum.
  assert (Hn0 : forall m, m + 0 = m) by (intros; lia).
  assert (Hn1 : forall m, m + 1 - 1 = m) by (intros; lia).
  assert (Hn2 : forall m, m + 2 - 1 = S m) by (intros; lia).
  assert (Hn3 : forall m, m + 3 - 1 = S (S m)) by (intros; lia).
  assert (Hn4 : forall m, m + 1 = S m) by (intros; lia).
  destruct lv as [ | | | | | |idl []], rv as [ | | | | | |idr []]; simpl;
    rewrite ?Hn0, ?Hn1, ?Hn2, ?Hn3, ?Hn4; reflexivity.
Qed.

(** In the body of [f], after [let x = true], [x + x] loads the slot of [x]
    twice and adds the two loaded values; [true + false] inserts nothing. *)
Lemma addition_lowering_witness :
  emitExpression (BinaryExpression (Identifier "x") PlusToken (Identifier "x")) stateAfterLet
  = OK (value (VInstruction 4 BinaryOperator))
       (insertedAll [Load (VInstruction 0 AllocaInst); Load (VInstruction 0 AllocaInst);
                     FAdd (VInstruction 2 LoadInst) (VInstruction 3 LoadInst)] stateAfterLet)
  /\ emitExpression (BinaryExpression TrueKeyword PlusToken FalseKeyword) stateAfterLet
     = OK (value (VConstantFAdd (VConstantInt 1 1) (VConstantInt 1 0))) stateAfterLet.
Proof.
  assert (Hx : emitExpression (Identifier "x") stateAfterLet
               = OK (value (VInstruction 0 AllocaInst)) stateAfterLet)
    by (vm_compute; reflexivity).
  assert (Ht : emitExpression TrueKeyword stateAfterLet
               = OK (value (VConstantInt 1 1)) stateAfterLet)
    by (vm_compute; reflexivity).
  assert (Hf : emitExpression FalseKeyword stateAfterLet
               = OK (value (VConstantInt 1 0)) stateAfterLet)
    by (vm_compute; reflexivity).
  split.
  - exact (proj1 (addition_lowering _ _ _ _ _ _ _ Hx Hx)).
  - destruct (addition_lowering _ _ _ _ _ _ _ Ht Hf) as (Hrun & Hsame & _).
    rewrite (Hsame eq_refl) in Hrun. exact Hrun.
Defined.

Lemma mapM_asValue_values method vs s :
  mapM (asValue method) (map value vs) s = OK vs s.
Proof.
  induction vs as [|v vs IH]; [reflexivity|].
  change (mapM (asValue method) (map value (v :: vs)) s)
    with ((ys <- mapM (asValue method) (map value vs) ;; ret (v :: ys)) s).
  by rewrite (bind_OK _ _ _ _ _ IH).
Qed.

(** X4. A call lowers the callee, then the arguments from left to right,
    and appends one call instruction, which is the value of the expression.
    The arguments are passed as they come out of the lowering: a stack slot
    among them is not loaded from, the call gets the slot itself.  When the
    callee does not lower to a value, the arguments are lowered all the same
    and the call then fails. *)
Theorem call_lowering callee arguments s d s1 ds s2 :
  emitExpression callee s = OK d s1 ->
  mapM emitExpression arguments s1 = OK ds s2 ->
  (forall c vs, d = value c -> ds = map value vs ->
     emitExpression (CallExpression callee arguments) s
     = OK (value (VInstruction (nextInst s2) CallInst)) (inserted (Call c vs) s2)
     /\ forall b, insertBlock s2 = Some b -> b < length (blocks s2) ->
          instructions (inserted (Call c vs) s2) b
          = instructions s2 b ++ [{| inst_id := nextInst s2; inst_op := Call c vs |}])
  /\ ((forall c, d <> value c) ->
      emitExpression (CallExpression callee arguments) s = Err (TypeError "createCall") s2).
Proof.
  intros Hc Ha.
  assert (Hrun : emitExpression (CallExpression callee arguments) s
                 = (call <- createCall d ds ;; ret (value call)) s2).
  { simpl. unfold emitCallExpression.
    rewrite (bind_OK _ _ _ _ _ Hc).
    change ((args <- mapM emitExpression arguments ;;
             call <- createCall d args ;; ret (value call)) s1
            = (call <- createCall d ds ;; ret (value call)) s2).
    by rewrite (bind_OK _ _ _ _ _ Ha). }
  split.
  - intros c vs -> ->. split; [|intros b Hb Hlt; by apply instructions_inserted].
    assert (Hcall : createCall (value c) (map value vs) s2
                    = OK (VInstruction (nextInst s2) CallInst) (inserted (Call c vs) s2)).
    { unfold createCall.
      rewrite (bind_OK _ _ _ _ _ (eq_refl : asValue "createCall" (value c) s2 = OK c s2)).
      by rewrite (bind_OK _ _ _ _ _ (mapM_asValue_values "createCall" vs s2)). }
    by rewrite Hrun, (bind_OK _ _ _ _ _ Hcall).
  - intros Hd. rewrite Hrun.
    destruct d as [[c|scope]|]; [by destruct (Hd c) | reflexivity..].
Qed.

(** In the body of [f], after [let x = true], the call [g(x)] passes the
    slot of [x] to [g]. *)
Lemma call_lowering_witness :
  emitExpression (CallExpression (Identifier "g") [Identifier "x"]) stateInCaller
  = OK (value (VInstruction 2 CallInst))
       (inserted (Call (VFunction 0) [VInstruction 0 AllocaInst]) stateInCaller)
  /\ emitExpression (CallExpression (PropertyAccessExpression (Identifier "M") "h") [Identifier "h"])
       stateWithNamespace
     = Err (TypeError "createCall") stateWithNamespace.
Proof.
  assert (Hg : emitExpression (Identifier "g") stateInCaller
               = OK (value (VFunction 0)) stateInCaller) by (vm_compute; reflexivity).
  assert (Hx : mapM emitExpression [Identifier "x"] stateInCaller
               = OK (map value [VInstruction 0 AllocaInst]) stateInCaller)
    by (vm_compute; reflexivity).
  assert (HMh : emitExpression (PropertyAccessExpression (Identifier "M") "h") stateWithNamespace
               = OK None stateWithNamespace) by (vm_compute; reflexivity).
  assert (Hh : mapM emitExpression [Identifier "h"] stateWithNamespace
               = OK [value (VFunction 1)] stateWithNamespace) by (vm_compute; reflexivity).
  split.
  - exact (proj1 (proj1 (call_lowering _ _ _ _ _ _ _ Hg Hx) _ _ eq_refl eq_refl)).
  - apply (proj2 (call_lowering _ _ _ _ _ _ _ HMh Hh)). discriminate.
Defined.

(** ** Mangled names *)

Lemma string_app_not_empty (a b : string) : a <> "" -> a +:+ b <> "".
Proof. by destruct a. Qed.

(** X5. Within one scope distinct declaration names get distinct mangled
    names.  Across scopes they need not: the separator can occur in a
    name, and a function [b__f] of a scope named [a] gets the mangled name
    of a function [f] of a scope named [a__b]. *)
Theorem mangle_injective_within_scope :
  (forall name1 name2 parentScope,
      mangleFunctionDeclaration name1 parentScope = mangleFunctionDeclaration name2 parentScope ->
      name1 = name2)
  /\ (forall a b f entries1 entries2,
        a <> "" ->
        mangleFunctionDeclaration (b +:+ "__" +:+ f)
          {| scope_name := Some a; scope_entries := entries1 |}
        = mangleFunctionDeclaration f
            {| scope_name := Some (a +:+ "__" +:+ b); scope_entries := entries2 |}).
Proof.
  split.
  - intros name1 name2 parentScope. unfold mangleFunctionDeclaration.
    apply string_app_inj.
  - intros a b f entries1 entries2 Ha. unfold mangleFunctionDeclaration. simpl.
    rewrite decide_False by done.
    rewrite decide_False by (by apply string_app_not_empty).
    by rewrite !string_app_assoc.
Qed.

(** * The frame of a lowering *)

(** ** Hoare rules *)

Lemma hoare_ret {A} (P : State -> Prop) (a : A) Q (E : State -> Prop) :
  (forall s, P s -> Q a s) -> hoare P (ret a) Q E.
Proof. intros H s Hs. by apply H. Qed.

Lemma hoare_bind {A B} (P : State -> Prop) (c : M A) (Q : A -> State -> Prop)
    (k : A -> M B) (R : B -> State -> Prop) (E : State -> Prop) :
  hoare P c Q E -> (forall a, hoare (Q a) (k a) R E) -> hoare P (bind c k) R E.
Proof.
  intros Hc Hk s Hs. unfold bind. specialize (Hc s Hs).
  destruct (c s) as [a s1|e s1]; [by apply Hk | done].
Qed.

Lemma hoare_conseq {A} (P P' : State -> Prop) (c : M A) (Q Q' : A -> State -> Prop)
    (E E' : State -> Prop) :
  hoare P' c Q' E' ->
  (forall s, P s -> P' s) -> (forall a s, Q' a s -> Q a s) -> (forall s, E' s -> E s) ->
  hoare P c Q E.
Proof.
  intros Hc HP HQ HE s Hs. specialize (Hc s (HP s Hs)).
  destruct (c s); auto.
Qed.

Lemma hoare_forEach {A} (I E : State -> Prop) (f : A -> M unit) (l : list A) :
  Forall (fun x => hoare I (f x) (fun _ => I) E) l ->
  hoare I (forEach f l) (fun _ => I) E.
Proof.
  induction 1 as [|x l Hx Hl IH].
  - by apply hoare_ret.
  - rewrite forEach_cons. eapply hoare_bind; [exact Hx|]. intros []. exact IH.
Qed.

(** ** Induction on nodes *)

Lemma Node_nested_ind (P : Node -> Prop) :
  (forall name parameters returnType body,
      (forall statements, body = Some statements -> Forall P statements) ->
      P (FunctionDeclaration name parameters returnType body)) ->
  (forall name body, Forall P body -> P (ModuleDeclaration name body)) ->
  (forall statements, Forall P statements -> P (Block statements)) ->
  (forall expression, P (ExpressionStatement expression)) ->
  (forall expression thenStatement elseStatement,
      P thenStatement ->
      (forall statement, elseStatement = Some statement -> P statement) ->
      P (IfStatement expression thenStatement elseStatement)) ->
  (forall expression, P (ReturnStatement expression)) ->
  (forall declarations, P (VariableStatement declarations)) ->
  P EndOfFileToken ->
  (forall kind, P (OtherNode kind)) ->
  forall node, P node.
Proof.
  intros HF HM HB HE HI HR HV HEnd HO.
  fix IH 1.
  assert (IHlist : forall l : list Node, Forall P l).
  { fix IHl 1. intros [|x l]; constructor; [apply IH | apply IHl]. }
  intros [name parameters returnType body|name body|statements|expression
         |expression thenStatement elseStatement|expression|declarations| |kind].
  - apply HF. destruct body as [statements|]; [|discriminate].
    intros ? [= <-]. apply IHlist.
  - apply HM, IHlist.
  - apply HB, IHlist.
  - apply HE.
  - apply HI; [apply IH|]. destruct elseStatement as [statement|]; [|discriminate].
    intros ? [= <-]. apply IH.
  - apply HR.
  - apply HV.
  - apply HEnd.
  - apply HO.
Qed.

(** ** The module and the builder *)

Lemma codeFrame_refl s : codeFrame s s.
Proof.
  repeat split; try done.
  - exists []. by rewrite app_nil_r.
  - exists []. by rewrite app_nil_r.
  - by left.
  - intros b f Hb. unfold parentOf. by rewrite (lookup_ge_None_2 _ _ Hb).
  - intros f e Hf. unfold entryBlockOf, blocksOf. by rewrite (lookup_ge_None_2 _ _ Hf).
Qed.

(** The frame looks at a state through these observations only. *)
Lemma codeFrame_observed s0 s s' :
  codeFrame s0 s ->
  length (functions s') = length (functions s) ->
  length (blocks s') = length (blocks s) ->
  (forall f, signatureOf s' f = signatureOf s f) ->
  (forall f, blocksOf s' f = blocksOf s f) ->
  (forall b, parentOf s' b = parentOf s b) ->
  (forall b, instructions s' b = instructions s b) ->
  insertBlock s' = insertBlock s ->
  codeFrame s0 s'.
Proof.
  intros (A1 & A2 & A3 & A4 & A5 & A6 & A7) Hlf Hlb Hsig Hbl Hpar Hins Hib.
  unfold codeFrame, entryBlockOf in *.
  rewrite Hlf, Hlb, Hib.
  repeat split; try done.
  - rewrite Hsig. by apply A3.
  - rewrite Hbl. by apply A3.
  - rewrite Hpar. by apply A4.
  - rewrite Hins. by apply A4.
  - intros b f. rewrite Hpar. apply A6.
  - intros f e. rewrite Hbl. apply A7.
Qed.

Lemma codeFrame_same s0 s s' :
  codeFrame s0 s ->
  functions s' = functions s -> blocks s' = blocks s -> insertBlock s' = insertBlock s ->
  codeFrame s0 s'.
Proof.
  intros H Hf Hb Hi.
  apply (codeFrame_observed s0 s s' H);
    unfold signatureOf, blocksOf, parentOf, instructions; congruence.
Qed.

Lemma codeFrame_insertBlock s0 s b :
  codeFrame s0 s -> insertBlock s = Some b ->
  insertBlock s0 = Some b \/ length (blocks s0) <= b.
Proof.
  intros (_ & _ & _ & _ & [A5|(b' & A5 & Hb')] & _) Hb.
  - left. congruence.
  - right. congruence.
Qed.

Lemma codeFrame_currentFunction s0 s f :
  codeFrame s0 s -> currentFunctionOf s = Some f ->
  currentFunctionOf s0 = Some f \/ length (functions s0) <= f.
Proof.
  intros H Hf. pose proof H as (_ & _ & _ & A4 & _ & A6 & _).
  unfold currentFunctionOf in Hf.
  destruct (insertBlock s) as [b|] eqn:Hb; [simpl in Hf|done].
  destruct (decide (b < length (blocks s0))) as [Hlt|Hge].
  - destruct (codeFrame_insertBlock s0 s b H Hb) as [Hb0|?]; [|lia].
    left. unfold currentFunctionOf. rewrite Hb0. simpl.
    destruct (A4 b Hlt) as (<- & _). done.
  - apply (A6 b); [lia | done].
Qed.

Lemma codeFrame_currentEntry s0 s e :
  codeFrame s0 s -> currentEntryBlock s = Some e ->
  currentEntryBlock s0 = Some e \/ length (blocks s0) <= e.
Proof.
  intros H He. pose proof H as (_ & _ & A3 & _ & _ & _ & A7).
  unfold currentEntryBlock in He.
  destruct (currentFunctionOf s) as [f|] eqn:Hf; [simpl in He|done].
  destruct (decide (f < length (functions s0))) as [Hlt|Hge].
  - destruct (codeFrame_currentFunction s0 s f H Hf) as [Hf0|?]; [|lia].
    destruct (A3 f Hlt) as (_ & added & Hadded & Hfresh & _).
    unfold entryBlockOf in He. rewrite Hadded in He.
    destruct (blocksOf s0 f) as [|e0 l] eqn:Hbl; simpl in He.
    + right. destruct added as [|a added]; [done|]. simpl in He.
      inversion He; subst. by inversion Hfresh.
    + left. unfold currentEntryBlock. rewrite Hf0. simpl.
      unfold entryBlockOf. by rewrite Hbl.
  - right. apply (A7 f); [lia | done].
Qed.

(** Instructions are appended to the block the builder is on, or to the
    entry block of the function it is in. *)
Lemma codeFrame_appended s0 s s' :
  codeFrame s0 s ->
  functions s' = functions s ->
  insertBlock s' = insertBlock s ->
  length (blocks s') = length (blocks s) ->
  (forall b, parentOf s' b = parentOf s b) ->
  (forall b, exists added,
      instructions s' b = instructions s b ++ added
      /\ (insertBlock s <> Some b -> currentEntryBlock s <> Some b -> added = [])) ->
  codeFrame s0 s'.
Proof.
  intros H Hf Hib Hlb Hpar Hins.
  pose proof H as (A1 & A2 & A3 & A4 & A5 & A6 & A7).
  unfold codeFrame, entryBlockOf, signatureOf, blocksOf in *.
  rewrite Hf, Hlb, Hib.
  repeat split; try done.
  - by apply A3.
  - by apply A3.
  - rewrite Hpar. by apply A4.
  - destruct (A4 b H0) as (_ & added & Hadded & Hnone).
    destruct (Hins b) as (added' & Hadded' & Hnone').
    exists (added ++ added'). split; [by rewrite Hadded', Hadded, app_assoc|].
    intros Hb0 He0. rewrite (Hnone Hb0 He0), Hnone'; [done| |].
    + intros Hb. destruct (codeFrame_insertBlock s0 s b H Hb); [done|lia].
    + intros He. destruct (codeFrame_currentEntry s0 s b H He); [done|lia].
  - intros b f. rewrite Hpar. apply A6.
Qed.

Lemma codeFrame_straightLine s0 s s' :
  codeFrame s0 s -> straightLine s s' -> codeFrame s0 s'.
Proof.
  intros H (Hf & Hi & _ & _ & _ & _ & Hlen & _ & Hp & Hc).
  apply (codeFrame_appended s0 s s' H); try done.
  intros b. destruct (Hc b) as (added & Hadded & _ & Hnone).
  exists added. split; [done|]. intros Hb _. by apply Hnone.
Qed.

Lemma parentOf_alter_appendInst s i b x :
  bb_parent <$> alter (appendInst i) b (blocks s) !! x = parentOf s x.
Proof.
  unfold parentOf. rewrite list_lookup_alter. case_decide; [subst|done].
  by destruct (blocks s !! x).
Qed.

Lemma codeFrame_insertAtEnd s0 s b op :
  codeFrame s0 s ->
  insertBlock s = Some b \/ currentEntryBlock s = Some b ->
  codeFrame s0 (stateOf (insertAtEnd (Some b) op s)).
Proof.
  intros H Hb.
  apply (codeFrame_appended s0 s _ H); try done.
  - simpl. apply length_alter.
  - intros x. apply parentOf_alter_appendInst.
  - intros x. unfold instructions. simpl. rewrite list_lookup_alter.
    case_decide; [subst x|].
    + destruct (blocks s !! b) as [bb|]; simpl.
      * eexists. split; [reflexivity|]. intros ? ?. by destruct Hb.
      * exists []. done.
    + exists []. by rewrite app_nil_r.
Qed.

Lemma codeFrame_setName s0 s v n :
  codeFrame s0 s -> codeFrame s0 (stateOf (setName v n s)).
Proof.
  intros H. destruct v; try (by apply (codeFrame_same s0 s)).
  simpl. case_decide; [by apply (codeFrame_same s0 s)|].
  apply (codeFrame_observed s0 s _ H); try done; simpl.
  - apply length_alter.
  - intros x. unfold signatureOf. simpl. rewrite list_lookup_alter.
    case_decide; [subst|done]. by destruct (functions s !! x).
  - intros x. unfold blocksOf. simpl. rewrite list_lookup_alter.
    case_decide; [subst|done]. by destruct (functions s !! x).
Qed.

Lemma codeFrame_Function_create s0 s returnType parameterTypes linkage name :
  codeFrame s0 s ->
  codeFrame s0 (stateOf (Function_create returnType parameterTypes linkage name s)).
Proof.
  intros (A1 & A2 & A3 & A4 & A5 & A6 & A7).
  unfold codeFrame, entryBlockOf, signatureOf, blocksOf in *. simpl.
  rewrite length_app. simpl.
  repeat split; try done; try lia.
  - rewrite lookup_app_l by lia. by apply A3.
  - rewrite lookup_app_l by lia. by apply A3.
  - by apply A4.
  - by apply A4.
  - intros f e Hf. destruct (decide (f < length (functions s))) as [Hlt|Hge].
    + rewrite lookup_app_l by lia. by apply A7.
    + rewrite lookup_app_r by lia.
      by destruct (f - length (functions s)) as [|[|k]].
Qed.

Lemma codeFrame_BasicBlock_create s0 s name parent :
  codeFrame s0 s ->
  currentFunctionOf s0 = Some parent \/ length (functions s0) <= parent ->
  codeFrame s0 (stateOf (BasicBlock_create name parent s)).
Proof.
  intros (A1 & A2 & A3 & A4 & A5 & A6 & A7) Hparent.
  assert (Hbl : forall f, blocksOf (stateOf (BasicBlock_create name parent s)) f
                = blocksOf s f ++ (if decide (f = parent) then
                                     if decide (f < length (functions s))
                                     then [length (blocks s)] else []
                                   else [])).
  { intros f. unfold blocksOf. simpl.
    destruct (decide (f = parent)) as [->|Hne].
    - rewrite list_lookup_alter_eq. case_decide.
      + destruct (lookup_lt_is_Some_2 _ _ H) as [fn ->]. done.
      + rewrite lookup_ge_None_2 by lia. done.
    - rewrite list_lookup_alter_ne by done. by rewrite app_nil_r. }
  unfold codeFrame, entryBlockOf in *. rewrite Hbl || idtac.
  repeat split.
  - simpl. by rewrite length_alter.
  - simpl. rewrite length_app. lia.
  - destruct (A3 f H) as (<- & _). unfold signatureOf. simpl.
    rewrite list_lookup_alter.
    case_decide; [subst|done]. by destruct (functions s !! f).
  - destruct (A3 f H) as (_ & added & Hadded & Hfresh & Hnone).
    rewrite Hbl, Hadded, <- app_assoc. eexists. split; [reflexivity|]. split.
    + apply Forall_app. split; [done|].
      repeat case_decide; repeat constructor. lia.
    + intros Hcur. rewrite (Hnone Hcur). simpl.
      case_decide; [subst f|done]. destruct Hparent; [done|lia].
  - unfold parentOf. simpl. rewrite lookup_app_l by lia. by apply A4.
  - unfold instructions. simpl. rewrite lookup_app_l by lia. by apply A4.
  - done.
  - intros b f Hb. unfold parentOf. simpl.
    destruct (decide (b < length (blocks s))) as [Hlt|Hge].
    + rewrite lookup_app_l by lia. by apply A6.
    + rewrite lookup_app_r by lia.
      destruct (b - length (blocks s)) as [|[|k]]; simpl; try done.
      intros [= <-]. done.
  - intros f e Hf. rewrite Hbl.
    destruct (blocksOf s f) as [|e0 l] eqn:Hf0; simpl.
    + repeat case_decide; simpl; try done. intros [= <-]. lia.
    + intros [= <-]. apply (A7 f); [done|]. by rewrite Hf0.
Qed.

Lemma codeFrame_setInsertionPoint s0 s b :
  codeFrame s0 s -> length (blocks s0) <= b ->
  codeFrame s0 (set_insertBlock (Some b) s).
Proof.
  intros (A1 & A2 & A3 & A4 & A5 & A6 & A7) Hb.
  repeat split; try done; try (by apply A3); try (by apply A4).
  right. by exists b.
Qed.

(** ** The scopes and the logs *)

Lemma scopeFrame_refl s parentScope : scopeFrame s parentScope s.
Proof. by repeat split. Qed.

Lemma scopeFrame_same s0 parentScope s s' :
  scopeFrame s0 parentScope s -> scopes s' = scopes s -> scopeFrame s0 parentScope s'.
Proof.
  intros H Hs. unfold scopeFrame, Scope_get, getScope in *. by rewrite Hs.
Qed.

Lemma scopeFrame_Scope_new s0 parentScope s name :
  scopeFrame s0 parentScope s ->
  scopeFrame s0 parentScope (stateOf (Scope_new name s)).
Proof.
  intros (S1 & S2). unfold scopeFrame, Scope_get, getScope in *. simpl.
  rewrite length_app. split; [lia|]. intros scope Hscope.
  rewrite lookup_app_l by lia. by apply S2.
Qed.

Lemma scopeFrame_Scope_set s0 parentScope s scope k v :
  scopeFrame s0 parentScope s ->
  scope = parentScope \/ length (scopes s0) <= scope ->
  scopeFrame s0 parentScope (stateOf (Scope_set scope k v s)).
Proof.
  intros (S1 & S2) Hscope. unfold scopeFrame, Scope_get, getScope in *. simpl.
  rewrite length_alter. split; [done|]. intros x Hx.
  destruct (S2 x Hx) as (Hname & Hdom & Hsame).
  rewrite list_lookup_alter. case_decide; [subst x|done].
  repeat split.
  - rewrite <- Hname. by destruct (scopes s !! scope).
  - intros j Hj. specialize (Hdom j Hj).
    destruct (scopes s !! scope) as [sc|]; simpl in *; [|done].
    destruct (decide (j = k)) as [->|Hne].
    + rewrite lookup_insert_eq. by eexists.
    + by rewrite lookup_insert_ne.
  - intros Hne. destruct Hscope; [done|lia].
Qed.

Lemma logFrame_refl s : logFrame s s.
Proof. by repeat split. Qed.

Lemma logFrame_step s0 s s' :
  logFrame s0 s ->
  warnings s `prefix_of` warnings s' ->
  verified s `prefix_of` verified s' ->
  nextInst s <= nextInst s' ->
  logFrame s0 s'.
Proof.
  intros (L1 & L2 & L3) H1 H2 H3.
  repeat split; [by etrans | by etrans | lia].
Qed.

Lemma logFrame_same s0 s s' :
  logFrame s0 s ->
  warnings s' = warnings s -> verified s' = verified s -> nextInst s' = nextInst s ->
  logFrame s0 s'.
Proof.
  intros H H1 H2 H3. apply (logFrame_step s0 s s' H); [by rewrite H1 | by rewrite H2 | lia].
Qed.

Lemma inv_invE s0 parentScope stack s : inv s0 parentScope stack s -> invE s0 parentScope stack s.
Proof. intros (H & <-). by split. Qed.

Lemma inv_refl s parentScope : inv s parentScope (scopeStack s) s.
Proof.
  split; [|done].
  split; [apply codeFrame_refl | split; [apply scopeFrame_refl | apply logFrame_refl]].
Qed.

Lemma inv_straightLine s0 parentScope stack s s' :
  inv s0 parentScope stack s -> straightLine s s' -> inv s0 parentScope stack s'.
Proof.
  intros ((Hc & Hs & Hl) & Hst) Hline.
  pose proof Hline as (Hf & Hi & Hsc & Hstack & Hw & Hv & Hlen & Hn & Hp & Hadd).
  split; [split; [|split]|].
  - by apply (codeFrame_straightLine s0 s).
  - by apply (scopeFrame_same s0 parentScope s).
  - apply (logFrame_step s0 s s' Hl); [by rewrite Hw | by rewrite Hv | done].
  - congruence.
Qed.

(** ** What each operation keeps of the frame *)

Lemma hoare_pure {A} (fact : Prop) (P : State -> Prop) (c : M A) Q (E : State -> Prop) :
  (fact -> hoare P c Q E) -> hoare (fun s => P s /\ fact) c Q E.
Proof. intros H s (Hs & Hfact). by apply H. Qed.

Lemma framed_ret {A} (a : A) : framed (ret a).
Proof. intros s0 ps st s Hs. exact Hs. Qed.

Lemma framed_throw {A} e : framed (@throw A e).
Proof. intros s0 ps st s Hs. by apply inv_invE. Qed.

Lemma framed_bind {A B} (c : M A) (k : A -> M B) :
  framed c -> (forall a, framed (k a)) -> framed (bind c k).
Proof.
  intros Hc Hk s0 ps st. eapply hoare_bind; [apply Hc|]. intros a. apply Hk.
Qed.

Lemma framed_straight {A} (c : M A) : straight c -> framed c.
Proof.
  intros Hc s0 ps st s Hs. specialize (Hc s).
  destruct (c s) as [a s'|e s']; simpl in Hc.
  - by apply (inv_straightLine s0 ps st s).
  - by apply inv_invE, (inv_straightLine s0 ps st s).
Qed.

Lemma framed_pure {A} (c : M A) :
  (forall s, stateOf (c s) = s) -> framed c.
Proof.
  intros Hc s0 ps st s Hs. specialize (Hc s).
  destruct (c s) as [a s'|e s']; simpl in Hc; subst s'; [done | by apply inv_invE].
Qed.

Lemma insertAtEnd_fields b op s :
  let s' := stateOf (insertAtEnd b op s) in
  functions s' = functions s /\ insertBlock s' = insertBlock s /\ scopes s' = scopes s
  /\ scopeStack s' = scopeStack s /\ warnings s' = warnings s /\ verified s' = verified s
  /\ nextInst s' = S (nextInst s).
Proof. by destruct b. Qed.

Lemma inv_insertAtEnd s0 ps st s b op :
  inv s0 ps st s ->
  match b with
  | Some b => insertBlock s = Some b \/ currentEntryBlock s = Some b
  | None => True
  end ->
  inv s0 ps st (stateOf (insertAtEnd b op s)).
Proof.
  intros ((Hc & Hsc & Hl) & Hst) Hb.
  destruct (insertAtEnd_fields b op s) as (Hf & Hi & Hs & Hstack & Hw & Hv & Hn).
  split; [split; [|split]|].
  - destruct b as [b|]; [by apply codeFrame_insertAtEnd|by apply (codeFrame_same s0 s)].
  - by apply (scopeFrame_same s0 ps s).
  - apply (logFrame_step s0 s _ Hl); [by rewrite Hw | by rewrite Hv | lia].
  - congruence.
Qed.

Lemma framed_insert op : framed (insert op).
Proof.
  intros s0 ps st s Hs. unfold insert.
  change (inv s0 ps st (stateOf (insertAtEnd (insertBlock s) op s))).
  apply inv_insertAtEnd; [done|]. destruct (insertBlock s); auto.
Qed.

Lemma framed_setName v n : framed (setName v n).
Proof.
  intros s0 ps st s ((Hc & Hsc & Hl) & Hst).
  assert (H : inv s0 ps st (stateOf (setName v n s))).
  { split; [split; [|split]|].
    - by apply codeFrame_setName.
    - apply (scopeFrame_same s0 ps s); [done|].
      by destruct (setName_fields v n s) as (_ & _ & -> & _).
    - apply (logFrame_same s0 s); [done|destruct v; simpl; try case_decide; done..].
    - destruct (setName_fields v n s) as (_ & _ & _ & -> & _). done. }
  by rewrite setName_OK.
Qed.

Lemma framed_warn message : framed (warn message).
Proof.
  intros s0 ps st s ((Hc & Hsc & Hl) & Hst). simpl.
  split; [split; [|split]|]; try done.
  apply (logFrame_step s0 s _ Hl); simpl; [by apply prefix_app_r | done | done].
Qed.

Lemma framed_verifyFunction f : framed (verifyFunction f).
Proof.
  intros s0 ps st s Hs. unfold verifyFunction.
  destruct (functionWellFormed s f); [|by apply inv_invE].
  destruct Hs as ((Hc & Hsc & Hl) & Hst).
  split; [split; [|split]|]; try done.
  apply (logFrame_step s0 s _ Hl); simpl; [done | by apply prefix_app_r | done].
Qed.

Lemma framed_asValue method d : framed (asValue method d).
Proof. apply framed_straight, straight_asValue. Qed.

Lemma framed_emitExpression e : framed (emitExpression e).
Proof. apply framed_straight, straight_emitExpression. Qed.

Lemma framed_createLoadIfAlloca d : framed (createLoadIfAlloca d).
Proof. apply framed_straight, straight_createLoadIfAlloca. Qed.

Lemma framed_insertBlockTerminator : framed insertBlockTerminator.
Proof. apply framed_pure. intros s. unfold insertBlockTerminator. by destruct (insertBlock s). Qed.

Lemma framed_createRet d : framed (createRet d).
Proof.
  apply framed_bind; [apply framed_asValue|]. intros v. apply framed_insert.
Qed.

Lemma framed_createStore v p : framed (createStore v p).
Proof.
  apply framed_bind; [apply framed_asValue|]. intros v'.
  apply framed_bind; [apply framed_asValue|]. intros p'. apply framed_insert.
Qed.

Lemma framed_createCondBr c thenBlock elseBlock : framed (createCondBr c thenBlock elseBlock).
Proof.
  apply framed_bind; [apply framed_asValue|]. intros v. apply framed_insert.
Qed.

Lemma currentFunction_currentFunctionOf s :
  currentFunction s = match currentFunctionOf s with
                      | Some f => OK f s
                      | None => Err (TypeError "parent") s
                      end.
Proof.
  unfold currentFunction, currentFunctionOf, parentOf.
  destruct (insertBlock s) as [b|]; simpl; [|done]. by destruct (blocks s !! b).
Qed.

Lemma framed_createEntryBlockAlloca type name : framed (createEntryBlockAlloca type name).
Proof.
  intros s0 ps st s Hs. unfold createEntryBlockAlloca, bind at 1.
  rewrite currentFunction_currentFunctionOf.
  destruct (currentFunctionOf s) as [f|] eqn:Hf; [|by apply inv_invE].
  destruct (functions s !! f ≫= λ fn, head (fn_blocks fn)) as [entryBlock|] eqn:He;
    [|by apply inv_invE].
  assert (Hentry : currentEntryBlock s = Some entryBlock).
  { unfold currentEntryBlock. rewrite Hf. simpl. unfold entryBlockOf, blocksOf.
    by destruct (functions s !! f). }
  pose proof (inv_insertAtEnd s0 ps st s (Some entryBlock) (Alloca type) Hs (or_intror Hentry))
    as Hinserted.
  unfold bind. unfold insertAtEnd at 1.
  pose proof (framed_setName (VInstruction (nextInst s) AllocaInst) name s0 ps st _ Hinserted)
    as Hnamed.
  exact Hnamed.
Qed.

Section Frame.
Variable s0 : State.
Variable parentScope : nat.

Lemma hoare_Function_create stack returnType parameterTypes linkage name :
  hoare (inv s0 parentScope stack)
    (Function_create returnType parameterTypes linkage name)
    (fun f s => inv s0 parentScope stack s /\ length (functions s0) <= f)
    (invE s0 parentScope stack).
Proof.
  intros s ((Hc & Hsc & Hl) & Hst).
  split; [|simpl; destruct Hc as (A1 & _); exact A1].
  split; [split; [|split]|]; try done.
  by apply (codeFrame_Function_create s0 s).
Qed.

Lemma hoare_BasicBlock_create stack name parent :
  currentFunctionOf s0 = Some parent \/ length (functions s0) <= parent ->
  hoare (inv s0 parentScope stack)
    (BasicBlock_create name parent)
    (fun b s => inv s0 parentScope stack s /\ length (blocks s0) <= b)
    (invE s0 parentScope stack).
Proof.
  intros Hparent s ((Hc & Hsc & Hl) & Hst).
  split; [|simpl; destruct Hc as (_ & A2 & _); exact A2].
  split; [split; [|split]|]; try done.
  by apply (codeFrame_BasicBlock_create s0 s).
Qed.

Lemma hoare_currentFunction stack :
  hoare (inv s0 parentScope stack) currentFunction
    (fun f s => inv s0 parentScope stack s
                /\ (currentFunctionOf s0 = Some f \/ length (functions s0) <= f))
    (invE s0 parentScope stack).
Proof.
  intros s Hs. rewrite currentFunction_currentFunctionOf.
  destruct (currentFunctionOf s) as [f|] eqn:Hf; [|by apply inv_invE].
  split; [done|]. destruct Hs as ((Hc & _) & _).
  by apply (codeFrame_currentFunction s0 s).
Qed.

Lemma hoare_setInsertionPoint stack b :
  length (blocks s0) <= b ->
  hoare (inv s0 parentScope stack) (setInsertionPoint b)
    (fun _ => inv s0 parentScope stack) (invE s0 parentScope stack).
Proof.
  intros Hb s ((Hc & Hsc & Hl) & Hst).
  split; [split; [|split]|]; try done.
  by apply codeFrame_setInsertionPoint.
Qed.

Lemma hoare_Scope_new stack name :
  hoare (inv s0 parentScope stack) (Scope_new name)
    (fun scope s => inv s0 parentScope stack s /\ length (scopes s0) <= scope)
    (invE s0 parentScope stack).
Proof.
  intros s ((Hc & Hsc & Hl) & Hst).
  split; [|simpl; destruct Hsc as (S1 & _); exact S1].
  split; [split; [|split]|]; try done.
  by apply scopeFrame_Scope_new.
Qed.

Lemma hoare_Scope_set stack scope k v :
  scope = parentScope \/ length (scopes s0) <= scope ->
  hoare (inv s0 parentScope stack) (Scope_set scope k v)
    (fun _ => inv s0 parentScope stack) (invE s0 parentScope stack).
Proof.
  intros Hscope s ((Hc & Hsc & Hl) & Hst).
  split; [split; [|split]|]; try done.
  by apply scopeFrame_Scope_set.
Qed.

Lemma hoare_withScope stack name (body : nat -> M unit) :
  (forall scope, length (scopes s0) <= scope ->
     hoare (inv s0 parentScope (scope :: stack)) (body scope)
       (fun _ => inv s0 parentScope (scope :: stack))
       (invE s0 parentScope (scope :: stack))) ->
  hoare (inv s0 parentScope stack) (withScope name body)
    (fun _ => inv s0 parentScope stack) (invE s0 parentScope stack).
Proof.
  intros Hbody. unfold withScope.
  eapply hoare_bind; [apply hoare_Scope_new|]. intros scope.
  apply hoare_pure. intros Hscope.
  eapply hoare_bind with (Q := fun _ => inv s0 parentScope (scope :: stack)).
  { intros s (Hs & Hst). split; [exact Hs | simpl; by rewrite Hst]. }
  intros _.
  eapply hoare_bind with (Q := fun _ => inv s0 parentScope (scope :: stack)).
  { eapply hoare_conseq; [apply (Hbody scope Hscope) | done | done |].
    intros s (Hs & Hst). split; [exact Hs|]. etrans; [|exact Hst]. by apply suffix_cons_r. }
  intros _ s (Hs & Hst). split; [exact Hs | simpl; by rewrite Hst].
Qed.
End Frame.

(** ** What the lowering of a node keeps of the frame *)

Lemma framed_terminateBody returnType : framed (terminateBody returnType).
Proof.
  unfold terminateBody.
  apply framed_bind; [apply framed_insertBlockTerminator|].
  intros [i|]; [apply framed_ret|].
  destruct (isVoidTy returnType); [|apply framed_ret].
  apply framed_bind; [apply framed_insert | intros; apply framed_ret].
Qed.

Lemma framed_emitReturnStatement expression : framed (emitReturnStatement expression).
Proof.
  destruct expression as [e|]; simpl.
  - apply framed_bind; [apply framed_emitExpression|]. intros d.
    apply framed_bind; [apply framed_createLoadIfAlloca|]. intros v.
    apply framed_bind; [apply framed_createRet | intros; apply framed_ret].
  - apply framed_bind; [apply framed_insert | intros; apply framed_ret].
Qed.

Lemma framed_emitExpressionStatement expression : framed (emitExpressionStatement expression).
Proof.
  apply framed_bind; [apply framed_emitExpression | intros; apply framed_ret].
Qed.

Section NodeFrame.
Variable s0 : State.
Variable parentScope : nat.

Local Abbreviation keeps stack c :=
  (hoare (inv s0 parentScope stack) c (fun _ => inv s0 parentScope stack)
     (invE s0 parentScope stack)).

Lemma keeps_bind {A B} stack (c : M A) (k : A -> M B) :
  keeps stack c -> (forall a, keeps stack (k a)) -> keeps stack (bind c k).
Proof. intros Hc Hk. eapply hoare_bind; [exact Hc | exact Hk]. Qed.

Lemma keeps_emitVariableDeclaration stack declaration scope :
  scope = parentScope \/ length (scopes s0) <= scope ->
  keeps stack (emitVariableDeclaration declaration scope).
Proof.
  intros Hscope. unfold emitVariableDeclaration.
  apply keeps_bind.
  { destruct (declaration_initializer declaration);
      [apply framed_emitExpression | apply framed_throw]. }
  intros e. apply keeps_bind; [apply framed_createLoadIfAlloca|]. intros initializer.
  destruct (declaration_isConst declaration).
  - destruct initializer as [[v|sc]|]; try apply framed_throw.
    apply keeps_bind; [|intros; by apply hoare_Scope_set].
    intros s Hs. destruct (hasName s v); [exact Hs | by apply framed_setName].
  - apply keeps_bind; [apply framed_createEntryBlockAlloca|]. intros alloca.
    apply keeps_bind; [apply framed_createStore|]. intros _.
    by apply hoare_Scope_set.
Qed.

Lemma keeps_emitFoo stack (emitNode' : Node -> nat -> M unit) block destination continuation scope :
  length (blocks s0) <= destination ->
  (forall node, block = Some node -> keeps stack (emitNode' node scope)) ->
  keeps stack (emitFoo emitNode' block destination continuation scope).
Proof.
  intros Hd Hblock. unfold emitFoo.
  apply keeps_bind; [by apply hoare_setInsertionPoint|]. intros _.
  apply keeps_bind.
  { destruct block as [node|]; [by apply Hblock | apply framed_ret]. }
  intros _. apply keeps_bind; [apply framed_insertBlockTerminator|].
  intros [i|]; [apply framed_ret|].
  apply keeps_bind; [apply framed_insert | intros; apply framed_ret].
Qed.

Lemma keeps_functionBody stack (emitNode' : Node -> nat -> M unit) func qualifiedName
    parameters returnType body :
  length (functions s0) <= func ->
  (forall statements, body = Some statements ->
     Forall (fun node => forall scope stack', length (scopes s0) <= scope ->
                           keeps stack' (emitNode' node scope)) statements) ->
  keeps stack
    match body with
    | Some statements =>
        withScope (Some qualifiedName) (fun bodyScope =>
          forEach (fun '(parameter, argument) =>
                     setName argument (parameter_name parameter) ;;;
                     Scope_set bodyScope (parameter_name parameter) (SValue argument))
                  (zip (signatureParameters parameters)
                     (getArguments func (map parameter_type parameters))) ;;;
          entryBlock <- BasicBlock_create "entry" func ;;
          setInsertionPoint entryBlock ;;;
          forEach (fun node => emitNode' node bodyScope) statements ;;;
          terminateBody returnType)
    | None => ret tt
    end.
Proof.
  intros Hfunc Hbody.
  destruct body as [statements|]; [|apply framed_ret].
  apply hoare_withScope. intros bodyScope HbodyScope.
  apply keeps_bind.
  { apply hoare_forEach, Forall_forall. intros [parameter argument] _.
    apply keeps_bind; [apply framed_setName|]. intros _.
    apply hoare_Scope_set. by right. }
  intros _. eapply hoare_bind; [apply hoare_BasicBlock_create; by right|].
  intros entryBlock. apply hoare_pure. intros HentryBlock.
  apply keeps_bind; [by apply hoare_setInsertionPoint|]. intros _.
  apply keeps_bind; [|intros _; apply framed_terminateBody].
  apply hoare_forEach. eapply Forall_impl; [exact (Hbody statements eq_refl)|].
  intros node Hnode. by apply Hnode.
Qed.
End NodeFrame.

(** Whatever the node and whether its lowering succeeds or fails, the frame
    of the lowering it is part of is kept, when the scope it is given is the
    one of that lowering or a scope created since. *)
Lemma emitNode_keeps node :
  forall scope s0 parentScope stack,
    scope = parentScope \/ length (scopes s0) <= scope ->
    hoare (inv s0 parentScope stack) (emitNode node scope)
      (fun _ => inv s0 parentScope stack) (invE s0 parentScope stack).
Proof.
  induction node as [name parameters returnType body IH|name body IH|statements IH
                    |expression|expression thenStatement elseStatement IHthen IHelse
                    |expression|declarations| |kind] using Node_nested_ind;
    intros scope s0 parentScope stack Hscope; simpl emitNode.
  - unfold emitFunctionDeclaration.
    apply keeps_bind; [by intros s Hs|]. intros qualifiedName.
    eapply hoare_bind; [apply hoare_Function_create|]. intros func.
    apply hoare_pure. intros Hfunc.
    apply keeps_bind; [|intros _; apply keeps_bind;
                                   [apply framed_verifyFunction | intros _; by apply hoare_Scope_set]].
    apply keeps_functionBody; [done|]. intros statements Hbody.
    eapply Forall_impl; [exact (IH statements Hbody)|].
    intros node Hnode bodyScope stack' HbodyScope. apply Hnode. by right.
  - unfold emitModuleDeclaration.
    eapply hoare_bind; [apply hoare_Scope_new|]. intros moduleScope.
    apply hoare_pure. intros HmoduleScope.
    apply keeps_bind; [|intros _; by apply hoare_Scope_set].
    apply hoare_forEach. eapply Forall_impl; [exact IH|].
    intros node Hnode. apply Hnode. by right.
  - unfold emitBlock. apply hoare_withScope. intros blockScope HblockScope.
    apply hoare_forEach. eapply Forall_impl; [exact IH|].
    intros node Hnode. apply Hnode. by right.
  - apply framed_emitExpressionStatement.
  - unfold emitIfStatement.
    apply keeps_bind; [apply framed_emitExpression|]. intros condition.
    eapply hoare_bind; [apply hoare_currentFunction|]. intros f1.
    apply hoare_pure. intros Hf1.
    eapply hoare_bind; [by apply hoare_BasicBlock_create|]. intros thenBlock.
    apply hoare_pure. intros HthenBlock.
    eapply hoare_bind; [apply hoare_currentFunction|]. intros f2.
    apply hoare_pure. intros Hf2.
    eapply hoare_bind; [by apply hoare_BasicBlock_create|]. intros elseBlock.
    apply hoare_pure. intros HelseBlock.
    eapply hoare_bind; [apply hoare_currentFunction|]. intros f3.
    apply hoare_pure. intros Hf3.
    eapply hoare_bind; [by apply hoare_BasicBlock_create|]. intros endBlock.
    apply hoare_pure. intros HendBlock.
    apply keeps_bind; [apply framed_createCondBr|]. intros _.
    apply keeps_bind.
    { apply keeps_emitFoo; [done|]. intros node [= <-]. by apply IHthen. }
    intros _. apply keeps_bind.
    { apply keeps_emitFoo; [done|]. intros node Hnode. by apply (IHelse node Hnode). }
    intros _. by apply hoare_setInsertionPoint.
  - apply framed_emitReturnStatement.
  - unfold emitVariableStatement. apply hoare_forEach, Forall_forall.
    intros declaration _. by apply keeps_emitVariableDeclaration.
  - apply framed_ret.
  - apply framed_warn.
Qed.

Lemma emitNode_frame node scope s :
  match emitNode node scope s with
  | OK _ s' => inv s scope (scopeStack s) s'
  | Err _ s' => invE s scope (scopeStack s) s'
  end.
Proof. apply (emitNode_keeps node scope s scope (scopeStack s)); [by left | apply inv_refl]. Qed.

(** ** What a lowering leaves as it was *)

(** X6. Lowering a node only adds to what is there, whether it succeeds or
    fails: functions, blocks and scopes are never removed; a function keeps
    its type and its blocks, in their order, new blocks coming after them;
    a block keeps its function and its instructions, new instructions
    coming after them; a scope keeps its name and every name it binds; the
    warnings and the list of verified functions are only extended. *)
Theorem lowering_only_adds node scope s :
  let s' := stateOf (emitNode node scope s) in
  length (functions s) <= length (functions s')
  /\ length (blocks s) <= length (blocks s')
  /\ length (scopes s) <= length (scopes s')
  /\ (forall f, f < length (functions s) ->
        signatureOf s' f = signatureOf s f /\ blocksOf s f `prefix_of` blocksOf s' f)
  /\ (forall b, b < length (blocks s) ->
        parentOf s' b = parentOf s b /\ instructions s b `prefix_of` instructions s' b)
  /\ (forall x, x < length (scopes s) ->
        scope_name <$> scopes s' !! x = scope_name <$> scopes s !! x
        /\ forall k, is_Some (Scope_get s x k) -> is_Some (Scope_get s' x k))
  /\ warnings s `prefix_of` warnings s'
  /\ verified s `prefix_of` verified s'
  /\ nextInst s <= nextInst s'.
Proof.
  intros s'.
  assert (H : frame s scope s').
  { pose proof (emitNode_frame node scope s) as H. subst s'.
    destruct (emitNode node scope s); apply H. }
  destruct H as ((A1 & A2 & A3 & A4 & _) & (S1 & S2) & (L1 & L2 & L3)).
  do 3 (split; [assumption|]).
  split; [|split; [|split; [|done]]].
  - intros f Hf. destruct (A3 f Hf) as (Hsig & added & Hadded & _).
    split; [done|]. by exists added.
  - intros b Hb. destruct (A4 b Hb) as (Hparent & added & Hadded & _).
    split; [done|]. by exists added.
  - intros x Hx. destruct (S2 x Hx) as (Hname & Hdom & _). done.
Qed.

(** X7. Lowering a node is local, whether it succeeds or fails: of the
    blocks that exist, only the block the builder is on and the entry block
    of the function it is in can get instructions; only the function the
    builder is in can get blocks; of the scopes that exist, only the scope
    the node is lowered in can change; and the builder is left where it
    was or on a block created by the lowering. *)
Theorem lowering_is_local node scope s :
  let s' := stateOf (emitNode node scope s) in
  (forall b, b < length (blocks s) ->
     insertBlock s <> Some b -> currentEntryBlock s <> Some b ->
     instructions s' b = instructions s b)
  /\ (forall f, f < length (functions s) ->
        currentFunctionOf s <> Some f -> blocksOf s' f = blocksOf s f)
  /\ (forall x, x < length (scopes s) -> x <> scope -> scopes s' !! x = scopes s !! x)
  /\ (insertBlock s' = insertBlock s
      \/ exists b, insertBlock s' = Some b /\ length (blocks s) <= b).
Proof.
  intros s'.
  assert (H : frame s scope s').
  { pose proof (emitNode_frame node scope s) as H. subst s'.
    destruct (emitNode node scope s); apply H. }
  destruct H as ((_ & _ & A3 & A4 & A5 & _) & (_ & S2) & _).
  split; [|split; [|split; [|exact A5]]].
  - intros b Hb Hib Hentry. destruct (A4 b Hb) as (_ & added & Hadded & Hnone).
    by rewrite Hadded, (Hnone Hib Hentry), app_nil_r.
  - intros f Hf Hcur. destruct (A3 f Hf) as (_ & added & Hadded & _ & Hnone).
    by rewrite Hadded, (Hnone Hcur), app_nil_r.
  - intros x Hx Hne. by apply S2.
Qed.

(** X8. Scopes are entered and left in pairs: a node that is lowered
    successfully leaves the scope stack as it found it, and one whose
    lowering fails leaves on it at least what it found. *)
Theorem scope_stack_balanced node scope s :
  match emitNode node scope s with
  | OK _ s' => scopeStack s' = scopeStack s
  | Err _ s' => scopeStack s `suffix_of` scopeStack s'
  end.
Proof.
  pose proof (emitNode_frame node scope s) as H.
  destruct (emitNode node scope s); apply H.
Qed.

Lemma resolve_same_bindings s s' stack identifier :
  Forall (fun x => Scope_get s' x identifier = Scope_get s x identifier) stack ->
  resolve s' stack identifier = resolve s stack identifier.
Proof.
  induction 1 as [|x stack Hx Hstack IH]; [done|].
  simpl. by rewrite Hx, IH.
Qed.

(** X9. What a block declares ends with the block: lowering a block leaves
    every scope that existed as it was, and after a block that is lowered
    successfully every identifier resolves as it did before the block. *)
Theorem block_scope_is_discarded statements scope s s' :
  emitNode (Block statements) scope s = OK tt s' ->
  Forall (fun x => x < length (scopes s)) (scopeStack s) ->
  (forall x, x < length (scopes s) -> scopes s' !! x = scopes s !! x)
  /\ forall identifier,
       resolve s' (scopeStack s') identifier = resolve s (scopeStack s) identifier.
Proof.
  intros Hrun Hstack.
  assert (Hscopes : forall x, x < length (scopes s) -> scopes s' !! x = scopes s !! x).
  { intros x Hx.
    pose proof (emitNode_frame (Block statements) (length (scopes s)) s) as H.
    change (emitNode (Block statements) (length (scopes s)) s)
      with (emitNode (Block statements) scope s) in H.
    rewrite Hrun in H. destruct H as ((_ & (_ & S2) & _) & _).
    apply S2; lia. }
  split; [exact Hscopes|]. intros identifier.
  pose proof (scope_stack := emitNode_frame (Block statements) scope s).
  rewrite Hrun in scope_stack. destruct scope_stack as (_ & ->).
  apply resolve_same_bindings. eapply Forall_impl; [exact Hstack|].
  intros x Hx. unfold Scope_get, getScope. by rewrite (Hscopes x Hx).
Qed.

(** In the body of [f], after the block [{ let x = true; }], [x] is not
    bound. *)
Lemma block_scope_is_discarded_witness :
  resolve (stateOf (emitNode (Block [let_x_true]) 1 (stateInBody VoidTy [])))
    (scopeStack (stateOf (emitNode (Block [let_x_true]) 1 (stateInBody VoidTy [])))) "x"
  = None.
Proof.
  assert (Hrun : emitNode (Block [let_x_true]) 1 (stateInBody VoidTy [])
                 = OK tt (stateOf (emitNode (Block [let_x_true]) 1 (stateInBody VoidTy []))))
    by (vm_compute; reflexivity).
  assert (Hstack : Forall (fun x => x < length (scopes (stateInBody VoidTy [])))
                     (scopeStack (stateInBody VoidTy [])))
    by (vm_compute; repeat constructor).
  rewrite (proj2 (block_scope_is_discarded _ _ _ _ Hrun Hstack) "x").
  vm_compute. reflexivity.
Defined.

(** ** Declarations *)

Lemma forEach_app {A} (f : A -> M unit) l1 l2 s :
  forEach f (l1 ++ l2) s = (forEach f l1 ;;; forEach f l2) s.
Proof.
  revert s. induction l1 as [|x l1 IH]; intros s; [done|].
  rewrite <- app_comm_cons, !forEach_cons. unfold bind.
  destruct (f x s) as [[] s1|e s1]; [|done]. by rewrite IH.
Qed.

(** What a function declaration that is lowered successfully has done: the
    state [s2] is the one its function is verified in. *)
Lemma functionDeclaration_OK_inv name parameters returnType body scope s s' :
  emitNode (FunctionDeclaration name parameters returnType body) scope s = OK tt s' ->
  let func := length (functions s) in
  exists s2,
    s' = set_scopes (alter (bindEntry name (SValue (VFunction func))) scope (scopes s2))
           (set_verified (verified s2 ++ [func]) s2)
    /\ functionWellFormed s2 func = true
    /\ (forall x, x < length (scopes s) -> scopes s2 !! x = scopes s !! x)
    /\ length (scopes s) <= length (scopes s2)
    /\ scopeStack s2 = scopeStack s
    /\ length (functions s) <= length (functions s2).
Proof.
  intros H func. simpl in H. unfold emitFunctionDeclaration in H.
  apply bind_OK_inv in H as (qualifiedName & s0 & Hname & H).
  injection Hname as <- <-.
  apply bind_OK_inv in H as (f & s1 & Hf & H).
  injection Hf as <- <-.
  set (s1 := set_lastUnique _ _) in H.
  apply bind_OK_inv in H as ([] & s2 & Hbody & H).
  apply bind_OK_inv in H as ([] & s3 & Hverify & H).
  unfold verifyFunction in Hverify.
  destruct (functionWellFormed s2 (length (functions s))) eqn:Hwf; [|discriminate].
  injection Hverify as <-. unfold Scope_set in H. injection H as <-.
  exists s2. split; [done|]. split; [done|].
  assert (Hframe : inv s (length (scopes s)) (scopeStack s) s2).
  { pose proof (keeps_functionBody s (length (scopes s)) (scopeStack s) emitNode
                  (length (functions s))
                  (mangleFunctionDeclaration name (getScope s scope)) parameters returnType body)
      as Hkeeps.
    assert (Hstatements : forall statements, body = Some statements ->
              Forall (fun node => forall scope stack', length (scopes s) <= scope ->
                hoare (inv s (length (scopes s)) stack') (emitNode node scope)
                  (fun _ => inv s (length (scopes s)) stack')
                  (invE s (length (scopes s)) stack')) statements).
    { intros statements _. apply Forall_forall. intros node _ bodyScope stack' HbodyScope.
      apply emitNode_keeps. by right. }
    specialize (Hkeeps (le_n _) Hstatements s1).
    rewrite Hbody in Hkeeps. apply Hkeeps.
    apply (hoare_Function_create s (length (scopes s)) (scopeStack s) returnType
             (map parameter_type parameters) ExternalLinkage
             (mangleFunctionDeclaration name (getScope s scope)) s (inv_refl s _)). }
  destruct Hframe as (((A1 & _) & (S1 & S2) & _) & Hstack).
  split; [|split; [exact S1|split; [exact Hstack|]]].
  - intros x Hx. apply (S2 x); lia.
  - assert (Hs1 : inv s (length (scopes s)) (scopeStack s) s1 /\ True); [|tauto].
    split; [|done].
    apply (hoare_Function_create s (length (scopes s)) (scopeStack s) returnType
             (map parameter_type parameters) ExternalLinkage
             (mangleFunctionDeclaration name (getScope s scope)) s (inv_refl s _)).
Qed.

(** X10. A function declaration that is lowered successfully leaves a
    function that passes the verification, recorded
    as verified, and bound to its simple name in the scope the declaration
    is lowered in; every other binding of that scope, and every other scope
    that existed, is as before. *)
Theorem function_declaration_outcome name parameters returnType body scope s s' :
  emitNode (FunctionDeclaration name parameters returnType body) scope s = OK tt s' ->
  scope < length (scopes s) ->
  let func := length (functions s) in
  functionWellFormed s' func = true
  /\ func ∈ verified s'
  /\ scopeStack s' = scopeStack s
  /\ (forall k, Scope_get s' scope k
                = if decide (k = name) then Some (SValue (VFunction func))
                  else Scope_get s scope k)
  /\ (forall x, x < length (scopes s) -> x <> scope -> scopes s' !! x = scopes s !! x).
Proof.
  intros Hrun Hscope func.
  destruct (functionDeclaration_OK_inv _ _ _ _ _ _ _ Hrun)
    as (s2 & -> & Hwf & Hscopes & Hlen & Hstack & Hfunc).
  split; [exact Hwf|].
  split; [simpl; apply elem_of_app; right; constructor|].
  split; [exact Hstack|]. split.
  - intros k. unfold Scope_get, getScope. simpl.
    rewrite list_lookup_alter_eq, (Hscopes scope Hscope).
    destruct (lookup_lt_is_Some_2 _ _ Hscope) as [sc ->]. simpl.
    case_decide; [subst k; by rewrite lookup_insert_eq | by rewrite lookup_insert_ne].
  - intros x Hx Hne. simpl. rewrite list_lookup_alter_ne by done. by apply Hscopes.
Qed.

(** [function f(c: boolean): void { let x = true; }], lowered in the global
    scope of a new generator, is function 0, well-formed and bound to [f];
    [x] is not bound in the global scope. *)
Lemma function_declaration_outcome_witness :
  functionWellFormed
    (stateOf (emitNode (FunctionDeclaration "f" [parameter_c] VoidTy (Some [let_x_true]))
                0 initialState)) 0 = true
  /\ Scope_get
       (stateOf (emitNode (FunctionDeclaration "f" [parameter_c] VoidTy (Some [let_x_true]))
                   0 initialState)) 0 "x" = None.
Proof.
  assert (Hrun : emitNode (FunctionDeclaration "f" [parameter_c] VoidTy (Some [let_x_true]))
                   0 initialState
                 = OK tt (stateOf (emitNode (FunctionDeclaration "f" [parameter_c] VoidTy
                                              (Some [let_x_true])) 0 initialState)))
    by (vm_compute; reflexivity).
  assert (Hscope : 0 < length (scopes initialState)) by (vm_compute; lia).
  destruct (function_declaration_outcome _ _ _ _ _ _ _ Hrun Hscope)
    as (Hwf & _ & _ & Hbound & _).
  split; [exact Hwf|]. rewrite (Hbound "x"). reflexivity.
Defined.

Lemma forEach_emitNode_keeps nodes scope s0 parentScope stack :
  scope = parentScope \/ length (scopes s0) <= scope ->
  hoare (inv s0 parentScope stack) (forEach (fun node => emitNode node scope) nodes)
    (fun _ => inv s0 parentScope stack) (invE s0 parentScope stack).
Proof.
  intros Hscope. apply hoare_forEach, Forall_forall. intros node _.
  by apply emitNode_keeps.
Qed.

(** ** Declared variables *)









(** ** The start of a function body *)

Lemma bind_assoc_at {A B C} (c : M A) (k1 : A -> M B) (k2 : B -> M C) s :
  bind (bind c k1) k2 s = bind c (fun a => bind (k1 a) k2) s.
Proof. unfold bind. by destruct (c s). Qed.

(** The loop over the parameters binds each parameter name to the argument
    of the last parameter of that name, and no other name. *)
Lemma bind_parameters_bindings (bodyScope func : nat) :
  forall (parameters : list ParameterDeclaration) (types : list LType) (offset : nat) s,
    length parameters <= length types ->
    bodyScope < length (scopes s) ->
    exists s',
      forEach (fun '(parameter, argument) =>
                 setName argument (parameter_name parameter) ;;;
                 Scope_set bodyScope (parameter_name parameter) (SValue argument))
              (zip parameters (imap (fun i _ => VArgument func (offset + i)) types)) s
      = OK tt s'
      /\ sameCode s s'
      /\ (forall x, x <> bodyScope -> scopes s' !! x = scopes s !! x)
      /\ (forall i p, parameters !! i = Some p ->
            (forall j q, i < j -> parameters !! j = Some q ->
                         parameter_name q <> parameter_name p) ->
            Scope_get s' bodyScope (parameter_name p)
            = Some (SValue (VArgument func (offset + i))))
      /\ (forall k, k ∉ map parameter_name parameters ->
            Scope_get s' bodyScope k = Scope_get s bodyScope k).
Proof.
  induction parameters as [|p0 parameters IH]; intros types offset s Htypes Hscope.
  - exists s. split; [done|]. split; [apply sameCode_refl|]. by repeat split.
  - destruct types as [|type0 types]; [simpl in Htypes; lia|].
    set (s0 := set_scopes (alter (bindEntry (parameter_name p0)
                                    (SValue (VArgument func (offset + 0)))) bodyScope (scopes s))
                 (set_names ((VArgument func (offset + 0), parameter_name p0) :: names s) s)).
    assert (Hscope0 : bodyScope < length (scopes s0)) by (simpl; by rewrite length_alter).
    assert (Htypes0 : length parameters <= length types) by (simpl in Htypes; lia).
    destruct (IH types (S offset) s0 Htypes0 Hscope0)
      as (s' & Hrun & Hsame & Hother & Hbound & Hfree).
    assert (Hget0 : forall k, Scope_get s0 bodyScope k
                    = if decide (k = parameter_name p0)
                      then Some (SValue (VArgument func (offset + 0)))
                      else Scope_get s bodyScope k).
    { intros k. unfold Scope_get, getScope. simpl. rewrite list_lookup_alter_eq.
      destruct (lookup_lt_is_Some_2 _ _ Hscope) as [sc ->]. simpl.
      case_decide; [subst; by rewrite lookup_insert_eq | by rewrite lookup_insert_ne]. }
    exists s'. split; [|split; [|split; [|split]]].
    + assert (Hzip : zip (p0 :: parameters)
                       (imap (fun i _ => VArgument func (offset + i)) (type0 :: types))
                     = (p0, VArgument func (offset + 0))
                       :: zip parameters
                            (imap (fun i _ => VArgument func (S offset + i)) types)).
      { simpl. do 2 f_equal. apply imap_ext. intros i x _. simpl. f_equal. lia. }
      rewrite Hzip, forEach_cons.
      erewrite (bind_OK _ _ s tt s0); [exact Hrun | reflexivity].
    + destruct Hsame as (H1 & H2 & H3 & H4 & H5 & H6 & H7 & H8 & H9).
      repeat split; try done. rewrite H9. simpl. apply length_alter.
    + intros x Hx. rewrite (Hother x Hx). simpl. by rewrite list_lookup_alter_ne.
    + intros [|i] p Hp Hlast.
      * injection Hp as <-. rewrite Hfree.
        -- rewrite Hget0. by rewrite decide_True.
        -- intros Hin. change (parameter_name p0 ∈ parameter_name <$> parameters) in Hin.
           apply list_elem_of_fmap in Hin as (q & Hq & Hin).
           apply list_elem_of_lookup in Hin as (j & Hj).
           apply (Hlast (S j) q); [lia | done | done].
      * replace (offset + S i) with (S offset + i) by lia.
        apply Hbound; [done|]. intros j q Hij Hq. apply (Hlast (S j) q); [lia | done].
    + intros k Hk. rewrite Hfree.
      * rewrite Hget0. rewrite decide_False; [done|]. intros ->. apply Hk. simpl. left.
      * intros Hin. apply Hk. simpl. by right.
Qed.

Lemma signatureParameters_length parameters :
  length (signatureParameters parameters) <= length parameters.
Proof. destruct parameters as [|p rest]; simpl; [done|]. case_decide; simpl; lia. Qed.

(** The declaration of a function with a body, once the parameters are
    bound: what remains is run on the new entry block. *)
Lemma functionDeclaration_unfold name parameters returnType statements scope s sD :
  let func := length (functions s) in
  let bodyScope := length (scopes s) in
  let qualifiedName := mangleFunctionDeclaration name (getScope s scope) in
  let sA := stateOf (Function_create returnType (map parameter_type parameters)
                       ExternalLinkage qualifiedName s) in
  let sC := set_scopeStack (bodyScope :: scopeStack sA)
              (set_scopes (scopes sA ++ [newScope (Some qualifiedName)]) sA) in
  forEach (fun '(parameter, argument) =>
             setName argument (parameter_name parameter) ;;;
             Scope_set bodyScope (parameter_name parameter) (SValue argument))
          (zip (signatureParameters parameters)
             (getArguments func (map parameter_type parameters))) sC
  = OK tt sD ->
  emitNode (FunctionDeclaration name parameters returnType (Some statements)) scope s
  = (forEach (fun node => emitNode node bodyScope) statements ;;;
     terminateBody returnType ;;;
     (fun s => OK tt (set_scopeStack (tail (scopeStack s)) s)) ;;;
     verifyFunction func ;;;
     Scope_set scope name (SValue (VFunction func)))
      (set_insertBlock (Some (length (blocks sD)))
         (stateOf (BasicBlock_create "entry" func sD))).
Proof.
  intros func bodyScope qualifiedName sA sC Hloop.
  simpl emitNode. unfold emitFunctionDeclaration.
  erewrite (bind_OK _ _ s qualifiedName s); [|reflexivity].
  erewrite (bind_OK _ _ s func sA); [|reflexivity].
  unfold withScope.
  rewrite bind_assoc_at. erewrite (bind_OK _ _ sA bodyScope); [|reflexivity].
  rewrite bind_assoc_at. erewrite (bind_OK _ _ _ tt sC); [|reflexivity].
  rewrite !bind_assoc_at. erewrite (bind_OK _ _ sC tt sD); [|exact Hloop].
  rewrite ?bind_assoc_at.
  erewrite (bind_OK _ _ sD (length (blocks sD))); [|reflexivity].
  rewrite ?bind_assoc_at.
  erewrite (bind_OK _ _ _ tt); [|reflexivity].
  by rewrite ?bind_assoc_at.
Qed.

Lemma stateAtBodyStart_eq name parameters returnType scope s sD :
  let func := length (functions s) in
  let bodyScope := length (scopes s) in
  let qualifiedName := mangleFunctionDeclaration name (getScope s scope) in
  let sA := stateOf (Function_create returnType (map parameter_type parameters)
                       ExternalLinkage qualifiedName s) in
  let sC := set_scopeStack (bodyScope :: scopeStack sA)
              (set_scopes (scopes sA ++ [newScope (Some qualifiedName)]) sA) in
  forEach (fun '(parameter, argument) =>
             setName argument (parameter_name parameter) ;;;
             Scope_set bodyScope (parameter_name parameter) (SValue argument))
          (zip (signatureParameters parameters)
             (getArguments func (map parameter_type parameters))) sC
  = OK tt sD ->
  stateAtBodyStart name parameters returnType scope s
  = set_insertBlock (Some (length (blocks sD))) (stateOf (BasicBlock_create "entry" func sD)).
Proof.
  intros func bodyScope qualifiedName sA sC Hloop. unfold stateAtBodyStart.
  rewrite (functionDeclaration_unfold name parameters returnType _ scope s sD Hloop).
  erewrite bind_Err; [reflexivity|].
  rewrite forEach_cons. apply bind_Err. reflexivity.
Qed.

(** X13. The body of a function is lowered in a state [s1] that the
    declaration always reaches: the function is in the module, with the
    declared type and with the entry block as its only block, empty, and
    the builder on it; a new scope is on top of the scope stack; there the
    name of a parameter of the signature resolves to the argument at the
    position of the last parameter of that name, and every other name
    resolves as it did outside.  The parameters of the signature are the
    declared ones but for a leading [this]: with it, the parameters that
    follow are bound to the arguments one position to the left, and [this]
    itself is not bound.  The name of the function is bound after its body
    only: in the body it resolves as outside, so that a function not
    declared before cannot call itself. *)
Theorem function_body_start name parameters returnType statements scope s :
  let func := length (functions s) in
  let bodyScope := length (scopes s) in
  let entryBlock := length (blocks s) in
  let s1 := stateAtBodyStart name parameters returnType scope s in
  emitNode (FunctionDeclaration name parameters returnType (Some statements)) scope s
  = (forEach (fun node => emitNode node bodyScope) statements ;;;
     terminateBody returnType ;;;
     (fun s => OK tt (set_scopeStack (tail (scopeStack s)) s)) ;;;
     verifyFunction func ;;;
     Scope_set scope name (SValue (VFunction func))) s1
  /\ scopeStack s1 = bodyScope :: scopeStack s
  /\ insertBlock s1 = Some entryBlock
  /\ instructions s1 entryBlock = []
  /\ blocksOf s1 func = [entryBlock]
  /\ parentOf s1 entryBlock = Some func
  /\ signatureOf s1 func = Some (returnType, map parameter_type parameters)
  /\ (forall i p, signatureParameters parameters !! i = Some p ->
        (forall j q, i < j -> signatureParameters parameters !! j = Some q ->
                     parameter_name q <> parameter_name p) ->
        resolve s1 (scopeStack s1) (parameter_name p) = Some (SValue (VArgument func i)))
  /\ (forall k, k ∉ map parameter_name (signatureParameters parameters) ->
        resolve s1 (scopeStack s1) k = resolve s (scopeStack s) k).
Proof.
  intros func bodyScope entryBlock s1.
  set (qualifiedName := mangleFunctionDeclaration name (getScope s scope)).
  set (sA := stateOf (Function_create returnType (map parameter_type parameters)
                        ExternalLinkage qualifiedName s)).
  set (sC := set_scopeStack (bodyScope :: scopeStack sA)
               (set_scopes (scopes sA ++ [newScope (Some qualifiedName)]) sA)).
  assert (HbodyScope : bodyScope < length (scopes sC)).
  { simpl. rewrite length_app. simpl. unfold bodyScope. lia. }
  assert (Htypes : length (signatureParameters parameters)
                   <= length (map parameter_type parameters)).
  { rewrite length_map. apply signatureParameters_length. }
  destruct (bind_parameters_bindings bodyScope func (signatureParameters parameters)
              (map parameter_type parameters) 0 sC Htypes HbodyScope)
    as (sD & Hloop & Hsame & Hother & Hbound & Hfree).
  destruct Hsame as (Hf & Hb & _ & _ & Hi & Hst & _ & _ & Hlen).
  assert (HentryBlock : length (blocks sD) = entryBlock) by (by rewrite Hb).
  assert (Hs1 : s1 = set_insertBlock (Some entryBlock)
                       (stateOf (BasicBlock_create "entry" func sD))).
  { rewrite <- HentryBlock.
    apply (stateAtBodyStart_eq name parameters returnType scope s sD Hloop). }
  clearbody s1. subst s1.
  set (s1 := set_insertBlock (Some entryBlock)
               (stateOf (BasicBlock_create "entry" func sD))).
  assert (Hresolve : forall stack k, resolve s1 stack k = resolve sD stack k).
  { intros stack k. apply resolve_same_bindings, Forall_forall. by intros x _. }
  assert (Hstack1 : scopeStack s1 = bodyScope :: scopeStack s) by (simpl; by rewrite Hst).
  split; [|split; [|split; [|split; [|split; [|split; [|split; [|split]]]]]]].
  - rewrite (functionDeclaration_unfold name parameters returnType statements scope s sD Hloop).
    unfold s1. by rewrite HentryBlock.
  - exact Hstack1.
  - reflexivity.
  - unfold instructions. simpl. rewrite Hb. simpl.
    unfold entryBlock. by rewrite lookup_snoc.
  - unfold blocksOf. simpl. rewrite list_lookup_alter_eq, Hf. simpl.
    unfold func. rewrite lookup_snoc. simpl. by rewrite Hb.
  - unfold parentOf. simpl. rewrite Hb. simpl.
    unfold entryBlock. by rewrite lookup_snoc.
  - unfold signatureOf. simpl. rewrite list_lookup_alter_eq, Hf. simpl.
    unfold func. by rewrite lookup_snoc.
  - intros i p Hp Hlast. rewrite Hresolve, Hstack1. simpl.
    by rewrite (Hbound i p Hp Hlast).
  - intros k Hk. rewrite Hresolve, Hstack1. simpl. rewrite (Hfree k Hk).
    assert (Hnew : Scope_get sC bodyScope k = None).
    { unfold Scope_get, getScope. simpl. unfold bodyScope. by rewrite lookup_snoc. }
    rewrite Hnew. apply resolve_same_bindings, Forall_forall. intros x _.
    destruct (decide (x = bodyScope)) as [->|Hx].
    + rewrite (Hfree k Hk), Hnew. unfold Scope_get, getScope.
      by rewrite (lookup_ge_None_2 (scopes s) bodyScope).
    + unfold Scope_get, getScope. rewrite (Hother x Hx). simpl.
      destruct (decide (x < length (scopes s))).
      * by rewrite lookup_app_l.
      * rewrite !lookup_ge_None_2; [done | lia |].
        rewrite length_app. simpl. unfold bodyScope in Hx. lia.
Qed.

(** [function f(): void { f(); }] in a new generator: the call in the body
    does not find [f].  In the body of
    [function f(this: boolean, c: boolean): void], [c] is the first
    argument of [f], and [this] is not bound. *)
Lemma function_body_start_witness :
  emitNode (FunctionDeclaration "f" [] VoidTy
              (Some [ExpressionStatement (CallExpression (Identifier "f") [])]))
    0 initialState
  = Err (UnresolvedName "f") (stateAtBodyStart "f" [] VoidTy 0 initialState)
  /\ resolve (stateAtBodyStart "f" [parameter_this; parameter_c] VoidTy 0 initialState)
       (scopeStack (stateAtBodyStart "f" [parameter_this; parameter_c] VoidTy 0 initialState))
       "c"
     = Some (SValue (VArgument 0 0))
  /\ resolve (stateAtBodyStart "f" [parameter_this; parameter_c] VoidTy 0 initialState)
       (scopeStack (stateAtBodyStart "f" [parameter_this; parameter_c] VoidTy 0 initialState))
       "this"
     = None.
Proof.
  split; [|split].
  - destruct (function_body_start "f" [] VoidTy
                [ExpressionStatement (CallExpression (Identifier "f") [])] 0 initialState)
      as (Hrun & _ & _ & _ & _ & _ & _ & _ & Hfree).
    rewrite Hrun.
    set (s1 := stateAtBodyStart "f" [] VoidTy 0 initialState) in *.
    apply bind_Err. rewrite forEach_cons. apply bind_Err.
    change (emitExpressionStatement (CallExpression (Identifier "f") []) s1
            = Err (UnresolvedName "f") s1).
    apply bind_Err.
    change (emitCallExpression emitExpression (Identifier "f") [] s1
            = Err (UnresolvedName "f") s1).
    apply bind_Err.
    change (emitIdentifier "f" s1 = Err (UnresolvedName "f") s1).
    apply bind_Err. unfold SymbolTable_get.
    rewrite (Hfree "f"); [reflexivity|]. apply not_elem_of_nil.
  - destruct (function_body_start "f" [parameter_this; parameter_c] VoidTy [] 0 initialState)
      as (_ & _ & _ & _ & _ & _ & _ & Hbound & _).
    apply (Hbound 0 parameter_c eq_refl).
    intros [|[|j]] q Hj Hq; [lia | discriminate..].
  - destruct (function_body_start "f" [parameter_this; parameter_c] VoidTy [] 0 initialState)
      as (_ & _ & _ & _ & _ & _ & _ & _ & Hfree).
    rewrite (Hfree "this"); [reflexivity|].
    intros Hin. apply list_elem_of_singleton in Hin. discriminate.
Defined.

(** X14. The builder is not put back after a function: when a function
    declaration with a body has been lowered, or has failed, the builder is
    on a block created by the declaration, which belongs to the declared
    function or to a function declared inside it.  What is lowered next at
    the level of the declaration is appended there, and not to the
    function the declaration stands in. *)
Theorem function_declaration_keeps_the_builder name parameters returnType statements scope s :
  let s' := stateOf (emitNode (FunctionDeclaration name parameters returnType (Some statements))
                       scope s) in
  exists b,
    insertBlock s' = Some b
    /\ length (blocks s) <= b
    /\ forall f, parentOf s' b = Some f -> length (functions s) <= f.
Proof.
  intros s'.
  set (func := length (functions s)). set (bodyScope := length (scopes s)).
  set (qualifiedName := mangleFunctionDeclaration name (getScope s scope)).
  set (sA := stateOf (Function_create returnType (map parameter_type parameters)
                        ExternalLinkage qualifiedName s)).
  set (sC := set_scopeStack (bodyScope :: scopeStack sA)
               (set_scopes (scopes sA ++ [newScope (Some qualifiedName)]) sA)).
  destruct (bind_parameters_OK bodyScope (signatureParameters parameters)
              (getArguments func (map parameter_type parameters)) sC
              (getArguments_isArgument _ _))
    as (sD & Hloop & (Hf & Hb & _) & _).
  set (entryBlock := length (blocks sD)).
  set (s1 := set_insertBlock (Some entryBlock) (stateOf (BasicBlock_create "entry" func sD))).
  assert (Hentry : entryBlock = length (blocks s)) by (unfold entryBlock; by rewrite Hb).
  assert (Hparent : parentOf s1 entryBlock = Some func).
  { unfold parentOf, entryBlock. simpl. by rewrite lookup_snoc. }
  assert (Hblocks1 : length (blocks s1) = S entryBlock).
  { simpl. rewrite length_app. simpl. unfold entryBlock. lia. }
  assert (Hfunctions1 : length (functions s1) = S func).
  { simpl. rewrite length_alter, Hf. simpl. rewrite length_app. simpl. unfold func. lia. }
  assert (Hcurrent : currentFunctionOf s1 = Some func).
  { unfold currentFunctionOf. simpl insertBlock. simpl. exact Hparent. }
  (* where the builder is in a state that keeps the frame of the body *)
  assert (Hconclude : forall sX, codeFrame s1 sX ->
            exists b, insertBlock sX = Some b /\ length (blocks s) <= b
                      /\ forall f, parentOf sX b = Some f -> length (functions s) <= f).
  { intros sX (_ & _ & _ & A4 & A5 & A6 & _).
    destruct A5 as [A5|(b & A5 & Hfresh)].
    - exists entryBlock. split; [by rewrite A5|]. split; [lia|].
      intros f. destruct (A4 entryBlock) as (-> & _); [lia|].
      rewrite Hparent. intros [= <-]. done.
    - exists b. split; [done|]. split; [lia|].
      intros f Hbf. destruct (A6 b f Hfresh Hbf) as [Hcur|Hnew].
      + rewrite Hcurrent in Hcur. injection Hcur as <-. done.
      + fold func. lia. }
  subst s'.
  rewrite (functionDeclaration_unfold name parameters returnType statements scope s sD Hloop).
  fold func bodyScope entryBlock s1.
  pose proof (forEach_emitNode_keeps statements bodyScope s1 bodyScope (scopeStack s1)
                (or_introl eq_refl) s1 (inv_refl s1 _)) as Hbody.
  destruct (forEach (fun node => emitNode node bodyScope) statements s1) as [[] sF|e sF] eqn:HF.
  2: { rewrite (bind_Err _ _ _ _ _ HF). by apply Hconclude, Hbody. }
  rewrite (bind_OK _ _ _ _ _ HF).
  pose proof (framed_terminateBody returnType s1 bodyScope (scopeStack s1) sF Hbody) as Hend.
  destruct (terminateBody returnType sF) as [[] sT|e sT] eqn:HT.
  2: { rewrite (bind_Err _ _ _ _ _ HT). by apply Hconclude, Hend. }
  rewrite (bind_OK _ _ _ _ _ HT).
  destruct Hend as ((Hcode & _) & _).
  destruct (Hconclude sT Hcode) as (b & Hbuilder & Hfresh & Howner).
  exists b. unfold bind, verifyFunction. simpl.
  by destruct (functionWellFormed _ func).
Qed.

(** The function a declaration creates has the declared type, and keeps
    it to the end of the declaration, successful or not. *)
Lemma functionDeclaration_signature name parameters returnType body scope s :
  signatureOf
    (stateOf (emitNode (FunctionDeclaration name parameters returnType body) scope s))
    (length (functions s))
  = Some (returnType, map parameter_type parameters).
Proof.
  destruct body as [statements|].
  2: { simpl. unfold emitFunctionDeclaration, bind, Function_create, verifyFunction,
         Scope_set, ret. simpl.
       destruct (functionWellFormed _ _); unfold signatureOf; simpl; by rewrite lookup_snoc. }
  set (func := length (functions s)). set (bodyScope := length (scopes s)).
  set (qualifiedName := mangleFunctionDeclaration name (getScope s scope)).
  set (sA := stateOf (Function_create returnType (map parameter_type parameters)
                        ExternalLinkage qualifiedName s)).
  set (sC := set_scopeStack (bodyScope :: scopeStack sA)
               (set_scopes (scopes sA ++ [newScope (Some qualifiedName)]) sA)).
  destruct (bind_parameters_OK bodyScope (signatureParameters parameters)
              (getArguments func (map parameter_type parameters)) sC
              (getArguments_isArgument _ _))
    as (sD & Hloop & (Hf & Hb & _) & _).
  set (entryBlock := length (blocks sD)).
  set (s1 := set_insertBlock (Some entryBlock) (stateOf (BasicBlock_create "entry" func sD))).
  assert (Hfunctions1 : length (functions s1) = S func).
  { simpl. rewrite length_alter, Hf. simpl. rewrite length_app. simpl. unfold func. lia. }
  assert (Hsignature1 : signatureOf s1 func = Some (returnType, map parameter_type parameters)).
  { unfold signatureOf. simpl. rewrite list_lookup_alter_eq, Hf. simpl.
    unfold func. by rewrite lookup_snoc. }
  assert (Hconclude : forall sX, codeFrame s1 sX ->
            signatureOf sX func = Some (returnType, map parameter_type parameters)).
  { intros sX (_ & _ & A3 & _). destruct (A3 func) as (-> & _); [lia | done]. }
  rewrite (functionDeclaration_unfold name parameters returnType statements scope s sD Hloop).
  fold func bodyScope entryBlock s1.
  pose proof (forEach_emitNode_keeps statements bodyScope s1 bodyScope (scopeStack s1)
                (or_introl eq_refl) s1 (inv_refl s1 _)) as Hbody.
  destruct (forEach (fun node => emitNode node bodyScope) statements s1) as [[] sF|e sF] eqn:HF.
  2: { rewrite (bind_Err _ _ _ _ _ HF). by apply Hconclude, Hbody. }
  rewrite (bind_OK _ _ _ _ _ HF).
  pose proof (framed_terminateBody returnType s1 bodyScope (scopeStack s1) sF Hbody) as Hend.
  destruct (terminateBody returnType sF) as [[] sT|e sT] eqn:HT.
  2: { rewrite (bind_Err _ _ _ _ _ HT). by apply Hconclude, Hend. }
  rewrite (bind_OK _ _ _ _ _ HT).
  destruct Hend as ((Hcode & _) & _).
  pose proof (Hconclude sT Hcode) as Hsignature.
  unfold bind, verifyFunction. simpl.
  by destruct (functionWellFormed _ func).
Qed.

(** ** Members of a namespace *)

(** X11. After a namespace [m] whose last member is the declaration of a
    function [g] is lowered successfully, [m.g] is the function that this
    declaration has created: the one created next after the functions of
    the members that come before it, of the declared type, and accepted by
    the verification.  A plain [g] resolves as it did before the namespace:
    the members are not bound outside it. *)
Theorem namespace_member_access m before g parameters returnType body scope s s' :
  emitNode (ModuleDeclaration m (before ++ [FunctionDeclaration g parameters returnType body]))
    scope s = OK tt s' ->
  head (scopeStack s) = Some scope ->
  Forall (fun x => x < length (scopes s)) (scopeStack s) ->
  let func := length (functions (stateOf (emitNode (ModuleDeclaration m before) scope s))) in
  emitExpression (PropertyAccessExpression (Identifier m) g) s' = OK (value (VFunction func)) s'
  /\ length (functions s) <= func < length (functions s')
  /\ signatureOf s' func = Some (returnType, map parameter_type parameters)
  /\ functionWellFormed s' func = true
  /\ (g <> m -> resolve s' (scopeStack s') g = resolve s (scopeStack s) g).
Proof.
  intros Hrun Hhead Hstack func.
  assert (Hscope : scope < length (scopes s)).
  { destruct (scopeStack s) as [|x stack]; [done|].
    injection Hhead as ->. by inversion Hstack. }
  simpl in Hrun. unfold emitModuleDeclaration in Hrun.
  apply bind_OK_inv in Hrun as (moduleScope & s1 & Hnew & Hrun).
  injection Hnew as <- <-.
  set (moduleScope := length (scopes s)) in Hrun.
  set (s1 := set_scopes _ s) in Hrun.
  apply bind_OK_inv in Hrun as ([] & s4 & Hbody & Hrun).
  unfold Scope_set in Hrun. injection Hrun as <-.
  rewrite forEach_app in Hbody.
  apply bind_OK_inv in Hbody as ([] & s2 & Hbefore & Hdeclaration).
  rewrite forEach_cons in Hdeclaration.
  apply bind_OK_inv in Hdeclaration as ([] & s3 & Hdeclaration & Hs4).
  injection Hs4 as <-.
  (* the function of the declaration *)
  assert (Hfunc : func = length (functions s2)).
  { unfold func. simpl emitNode. unfold emitModuleDeclaration.
    erewrite (bind_OK _ _ s moduleScope s1); [|reflexivity].
    by rewrite (bind_OK _ _ _ _ _ Hbefore). }
  clearbody func. subst func.
  pose proof (functionDeclaration_signature g parameters returnType body moduleScope s2)
    as Hsignature.
  rewrite Hdeclaration in Hsignature. simpl in Hsignature.
  (* the members that come before *)
  pose proof (forEach_emitNode_keeps before moduleScope s1 moduleScope (scopeStack s1)
                (or_introl eq_refl) s1 (inv_refl s1 _)) as Hframe.
  rewrite Hbefore in Hframe.
  destruct Hframe as (((A1 & _) & (S1 & S2) & _) & Hstack2).
  assert (Hlen1 : length (scopes s1) = S moduleScope).
  { unfold s1. simpl. rewrite length_app. simpl. unfold moduleScope. lia. }
  assert (HmoduleScope0 : moduleScope = length (scopes s)) by reflexivity.
  clearbody moduleScope.
  (* the declaration of [g] *)
  assert (Hcreated : length (functions s2) < length (functions s3)).
  { apply lookup_lt_is_Some. unfold signatureOf in Hsignature.
    by destruct (functions s3 !! length (functions s2)). }
  destruct (functionDeclaration_OK_inv _ _ _ _ _ _ _ Hdeclaration)
    as (s2' & -> & Hwf & Hscopes & Hlen & Hstack3 & Hfunc).
  assert (Hold : forall x, x < length (scopes s) -> scopes s2' !! x = scopes s !! x).
  { intros x Hx. rewrite Hscopes by lia.
    assert (Hx1 : x < length (scopes s1)) by lia.
    assert (Hxm : x <> moduleScope) by lia.
    destruct (S2 x Hx1) as (_ & _ & Hsame). rewrite (Hsame Hxm).
    unfold s1. simpl. by rewrite lookup_app_l. }
  assert (HmoduleScope : moduleScope < length (scopes s2')) by lia.
  destruct (lookup_lt_is_Some_2 _ _ HmoduleScope) as [members Hmembers].
  destruct (lookup_lt_is_Some_2 _ _ Hscope) as [enclosing Henclosing].
  assert (Hne : scope <> moduleScope) by lia.
  split; [|split; [|split; [exact Hsignature|split; [exact Hwf|]]]].
  - simpl. unfold bind, SymbolTable_get. simpl.
    rewrite Hstack3, Hstack2. unfold s1. simpl.
    destruct (scopeStack s) as [|x stack]; [done|]. injection Hhead as ->.
    simpl. unfold Scope_get at 1, getScope. simpl.
    rewrite list_lookup_alter_eq, list_lookup_alter_ne, (Hold scope Hscope), Henclosing by done.
    simpl. rewrite lookup_insert_eq.
    unfold Scope_get, getScope. simpl.
    rewrite list_lookup_alter_ne, list_lookup_alter_eq, Hmembers by done.
    simpl. by rewrite lookup_insert_eq.
  - split; [exact A1 | exact Hcreated].
  - intros Hg. simpl. rewrite Hstack3, Hstack2. unfold s1. simpl.
    apply resolve_same_bindings. eapply Forall_impl; [exact Hstack|].
    intros x Hx. simpl in Hx. unfold Scope_get, getScope. simpl.
    assert (Hxm : x <> moduleScope) by lia.
    rewrite list_lookup_alter. case_decide.
    + subst x. rewrite list_lookup_alter_ne, (Hold scope Hscope), Henclosing by done.
      simpl. by rewrite lookup_insert_ne.
    + by rewrite list_lookup_alter_ne, (Hold x Hx) by done.
Qed.

(** After [namespace M { function h(): void;  function g(c: boolean): void; }]
    at the top of a source file, [M.g] is function 1, the function of the
    declaration of [g], and [g] is not bound. *)
Lemma namespace_member_access_witness :
  emitExpression (PropertyAccessExpression (Identifier "M") "g") stateWithMembers
  = OK (value (VFunction 1)) stateWithMembers
  /\ signatureOf stateWithMembers 1 = Some (VoidTy, [boolTy])
  /\ resolve stateWithMembers (scopeStack stateWithMembers) "g" = None.
Proof.
  assert (Hrun : emitNode (ModuleDeclaration "M"
                             ([FunctionDeclaration "h" [] VoidTy None]
                              ++ [FunctionDeclaration "g" [parameter_c] VoidTy None]))
                   0 initialState
                 = OK tt stateWithMembers)
    by (vm_compute; reflexivity).
  assert (Hstack : Forall (fun x => x < length (scopes initialState)) (scopeStack initialState))
    by (vm_compute; repeat constructor).
  destruct (namespace_member_access _ _ _ _ _ _ _ _ _ Hrun eq_refl Hstack)
    as (Haccess & _ & Hsignature & _ & Hplain).
  split; [exact Haccess|]. split; [exact Hsignature|].
  rewrite (Hplain ltac:(discriminate)). vm_compute. reflexivity.
Defined.

(** ** The blocks of an if statement *)

Lemma emitFoo_codeFrame block destination continuation scope s :
  codeFrame (set_insertBlock (Some destination) s)
    (stateOf (emitFoo emitNode block destination continuation scope s)).
Proof.
  set (s1 := set_insertBlock (Some destination) s).
  unfold emitFoo. rewrite (bind_OK _ _ s tt s1) by reflexivity.
  match goal with
  | |- codeFrame s1 (stateOf (?c s1)) =>
      assert (H : hoare (inv s1 scope (scopeStack s1)) c
                    (fun _ => inv s1 scope (scopeStack s1)) (invE s1 scope (scopeStack s1)))
  end.
  { apply keeps_bind.
    { destruct block as [node|]; [apply emitNode_keeps; by left | apply framed_ret]. }
    intros _. apply keeps_bind; [apply framed_insertBlockTerminator|].
    intros [i|]; [apply framed_ret|].
    apply keeps_bind; [apply framed_insert | intros; apply framed_ret]. }
  specialize (H s1 (inv_refl s1 scope)).
  match goal with |- codeFrame s1 (stateOf ?r) => destruct r end; apply H.
Qed.

Lemma blocksOf_BasicBlock_create name parent s f :
  blocksOf (stateOf (BasicBlock_create name parent s)) f
  = blocksOf s f ++ (if decide (f = parent) then
                       if decide (f < length (functions s)) then [length (blocks s)] else []
                     else []).
Proof.
  unfold blocksOf. simpl.
  destruct (decide (f = parent)) as [->|Hne].
  - rewrite list_lookup_alter_eq. case_decide as Hlt.
    + destruct (lookup_lt_is_Some_2 _ _ Hlt) as [fn ->]. done.
    + rewrite lookup_ge_None_2 by lia. done.
  - rewrite list_lookup_alter_ne by done. by rewrite app_nil_r.
Qed.

Lemma BasicBlock_create_facts name parent s :
  let s' := stateOf (BasicBlock_create name parent s) in
  insertBlock s' = insertBlock s
  /\ length (blocks s') = S (length (blocks s))
  /\ length (functions s') = length (functions s)
  /\ (forall x, x < length (blocks s) ->
        parentOf s' x = parentOf s x /\ instructions s' x = instructions s x)
  /\ parentOf s' (length (blocks s)) = Some parent
  /\ instructions s' (length (blocks s)) = [].
Proof.
  simpl. unfold parentOf, instructions. simpl.
  rewrite length_app, length_alter, lookup_snoc. simpl.
  repeat split; try lia; by rewrite lookup_app_l.
Qed.

Lemma currentFunctionOf_BasicBlock_create name parent s f :
  currentFunctionOf s = Some f ->
  currentFunctionOf (stateOf (BasicBlock_create name parent s)) = Some f.
Proof.
  destruct (BasicBlock_create_facts name parent s) as (Hi & _ & _ & Hold & _).
  unfold currentFunctionOf. rewrite Hi.
  destruct (insertBlock s) as [b|]; [|done].
  change (parentOf s b = Some f ->
          parentOf (stateOf (BasicBlock_create name parent s)) b = Some f).
  intros Hb.
  destruct (decide (b < length (blocks s))) as [Hlt|Hge].
  - by rewrite (proj1 (Hold b Hlt)).
  - unfold parentOf in Hb. by rewrite lookup_ge_None_2 in Hb by lia.
Qed.

(** The three blocks of an if statement, created in the function the
    builder is in. *)
Lemma ifBlocks_created {A} (k : nat -> nat -> nat -> M A) s f :
  currentFunctionOf s = Some f ->
  (f1 <- currentFunction ;; thenBlock <- BasicBlock_create "then" f1 ;;
   f2 <- currentFunction ;; elseBlock <- BasicBlock_create "else" f2 ;;
   f3 <- currentFunction ;; endBlock <- BasicBlock_create "endif" f3 ;;
   k thenBlock elseBlock endBlock) s
  = k (length (blocks s)) (S (length (blocks s))) (S (S (length (blocks s))))
      (stateOf (BasicBlock_create "endif" f
         (stateOf (BasicBlock_create "else" f
            (stateOf (BasicBlock_create "then" f s)))))).
Proof.
  intros Hf.
  set (sb := stateOf (BasicBlock_create "then" f s)).
  set (sc := stateOf (BasicBlock_create "else" f sb)).
  assert (Hfb : currentFunctionOf sb = Some f) by (by apply currentFunctionOf_BasicBlock_create).
  assert (Hfc : currentFunctionOf sc = Some f) by (by apply currentFunctionOf_BasicBlock_create).
  assert (Hcurrent : forall x, currentFunctionOf x = Some f -> currentFunction x = OK f x).
  { intros x Hx. by rewrite currentFunction_currentFunctionOf, Hx. }
  rewrite (bind_OK _ _ s f s (Hcurrent s Hf)).
  rewrite (bind_OK _ _ s (length (blocks s)) sb eq_refl).
  rewrite (bind_OK _ _ sb f sb (Hcurrent sb Hfb)).
  rewrite (bind_OK _ _ sb (length (blocks sb)) sc eq_refl).
  rewrite (bind_OK _ _ sc f sc (Hcurrent sc Hfc)).
  rewrite (bind_OK _ _ sc (length (blocks sc)) (stateOf (BasicBlock_create "endif" f sc)) eq_refl).
  assert (Hlb : length (blocks sb) = S (length (blocks s))).
  { unfold sb. simpl. rewrite length_app. simpl. lia. }
  assert (Hlc : length (blocks sc) = S (S (length (blocks s)))).
  { unfold sc, sb. simpl. rewrite !length_app. simpl. lia. }
  by rewrite Hlc, Hlb.
Qed.

Lemma inserted_frame op s :
  let s' := inserted op s in
  functions s' = functions s
  /\ insertBlock s' = insertBlock s
  /\ length (blocks s') = length (blocks s)
  /\ (forall x, parentOf s' x = parentOf s x)
  /\ (forall x, insertBlock s <> Some x -> instructions s' x = instructions s x).
Proof.
  destruct (inserted_fields op s) as (_ & Hi & Hl & Hf & _).
  repeat split; try done.
  - intros x. unfold inserted, insert, insertAtEnd.
    destruct (insertBlock s) as [b|]; [|done]. apply parentOf_alter_appendInst.
  - intros x. apply instructions_inserted_other.
Qed.

Lemma ifBlocks_facts s f :
  let n := length (blocks s) in
  let sd := stateOf (BasicBlock_create "endif" f
              (stateOf (BasicBlock_create "else" f
                 (stateOf (BasicBlock_create "then" f s))))) in
  insertBlock sd = insertBlock s
  /\ length (blocks sd) = S (S (S n))
  /\ length (functions sd) = length (functions s)
  /\ (forall x, x < n -> parentOf sd x = parentOf s x /\ instructions sd x = instructions s x)
  /\ (forall x, n <= x < n + 3 -> parentOf sd x = Some f /\ instructions sd x = [])
  /\ blocksOf sd f
     = blocksOf s f ++ (if decide (f < length (functions s)) then [n; S n; S (S n)] else []).
Proof.
  intros n.
  set (sb := stateOf (BasicBlock_create "then" f s)).
  set (sc := stateOf (BasicBlock_create "else" f sb)).
  intros sd.
  destruct (BasicBlock_create_facts "then" f s) as (Hib & Hlb & Hfb & Hob & Hpb & Hnb).
  destruct (BasicBlock_create_facts "else" f sb) as (Hic & Hlc & Hfc & Hoc & Hpc & Hnc).
  destruct (BasicBlock_create_facts "endif" f sc) as (Hid & Hld & Hfd & Hod & Hpd & Hnd).
  fold sb in Hib, Hlb, Hfb, Hob, Hpb, Hnb. fold sc in Hic, Hlc, Hfc, Hoc, Hpc, Hnc.
  fold sd in Hid, Hld, Hfd, Hod, Hpd, Hnd. fold n in Hlb, Hob, Hpb, Hnb.
  rewrite Hlb in Hlc, Hoc, Hpc, Hnc. rewrite Hlc in Hld, Hod, Hpd, Hnd.
  split; [congruence|]. split; [done|]. split; [congruence|]. split; [|split].
  - intros x Hx.
    destruct (Hod x) as (-> & ->); [lia|]. destruct (Hoc x) as (-> & ->); [lia|].
    by apply Hob.
  - intros x Hx.
    destruct (decide (x = n)) as [->|]; [|destruct (decide (x = S n)) as [->|]].
    + destruct (Hod n) as (-> & ->); [lia|]. destruct (Hoc n) as (-> & ->); [lia|]. done.
    + destruct (Hod (S n)) as (-> & ->); [lia|]. done.
    + assert (x = S (S n)) as -> by lia. done.
  - unfold sd, sc, sb. rewrite !blocksOf_BasicBlock_create.
    destruct (decide (f = f)) as [_|]; [|done].
    fold sb. fold sc. rewrite Hfc, Hfb, Hlc, Hlb. fold n.
    case_decide; by rewrite <- ?app_assoc.
Qed.

(** What an if statement that is lowered successfully has done: [sf] is the
    state after the then branch, [sg] the state after the else branch. *)
Lemma ifStatement_OK_inv expression thenStatement elseStatement scope s s' :
  emitNode (IfStatement expression thenStatement elseStatement) scope s = OK tt s' ->
  (forall e, currentEntryBlock s = Some e -> e < length (blocks s)) ->
  let n := length (blocks s) in
  exists sf sg,
    s' = set_insertBlock (Some (S (S n))) sg
    /\ emitFoo emitNode elseStatement (S n) (S (S n)) scope sf = OK tt sg
    /\ S (S n) < length (blocks sf)
    /\ (forall x, S n <= x < n + 3 ->
          parentOf sf x = currentFunctionOf s /\ instructions sf x = [])
    /\ parentOf sg (S (S n)) = currentFunctionOf s
    /\ instructions sg (S (S n)) = []
    /\ (forall f, currentFunctionOf s = Some f -> f < length (functions s) ->
          S (S n) ∈ blocksOf sg f).
Proof.
  intros Hrun Hentry n0.
  simpl in Hrun. unfold emitIfStatement in Hrun.
  apply bind_OK_inv in Hrun as (condition & sa & Hcondition & Hrun).
  pose proof (straight_emitExpression expression s) as Hline.
  rewrite Hcondition in Hline. simpl in Hline.
  destruct Hline as (Hfa & Hia & _ & _ & _ & _ & Hla & _ & Hpa & _).
  assert (Hn : length (blocks sa) = length (blocks s)) by done.
  assert (Hcurrent : currentFunctionOf sa = currentFunctionOf s).
  { unfold currentFunctionOf, parentOf. rewrite Hia.
    destruct (insertBlock s) as [b|]; [simpl|done]. apply Hpa. }
  assert (Hentrya : currentEntryBlock sa = currentEntryBlock s).
  { unfold currentEntryBlock, entryBlockOf, blocksOf. by rewrite Hcurrent, Hfa. }
  destruct (currentFunctionOf sa) as [f|] eqn:Hf.
  2: { rewrite (bind_Err _ _ sa (TypeError "parent") sa) in Hrun; [discriminate|].
       by rewrite currentFunction_currentFunctionOf, Hf. }
  rewrite (ifBlocks_created _ sa f Hf) in Hrun.
  destruct (ifBlocks_facts sa f) as (Hid & Hld & Hfd & Hod & Hnew & Hbd).
  set (sd := stateOf (BasicBlock_create "endif" f _)) in *. clearbody sd.
  rewrite Hn in *. subst n0.
  set (n := length (blocks s)) in *.
  (* the builder is on an old block *)
  assert (Hb0 : forall x, insertBlock sd = Some x -> x < n).
  { intros x Hx. rewrite Hid in Hx. unfold currentFunctionOf in Hf. rewrite Hx in Hf.
    simpl in Hf. unfold parentOf in Hf.
    destruct (decide (x < n)) as [|Hge]; [done|].
    rewrite lookup_ge_None_2 in Hf by lia. done. }
  (* the entry block of the function is an old block or the then block *)
  assert (Hhead : forall x, head (blocksOf sd f) = Some x -> x < n \/ x = n).
  { intros x. rewrite Hbd.
    destruct (blocksOf sa f) as [|e0 l] eqn:Hbl; simpl.
    - case_decide; simpl; [|done]. intros [= <-]. by right.
    - intros [= <-]. left. apply Hentry. rewrite <- Hentrya.
      unfold currentEntryBlock. rewrite Hf. simpl. unfold entryBlockOf. by rewrite Hbl. }
  (* the conditional branch *)
  apply bind_OK_inv in Hrun as (branch & se & Hbranch & Hrun).
  assert (Hse : se = inserted (CondBr (default (VFunction 0) (match condition with
                                         | Some (SValue v) => Some v | _ => None end))
                                 n (S n)) sd).
  { unfold createCondBr in Hbranch.
    apply bind_OK_inv in Hbranch as (c & s0 & Hc & Hbranch).
    apply asValue_OK_inv in Hc as (-> & ->). by injection Hbranch as _ <-. }
  destruct (inserted_frame (CondBr (default (VFunction 0) (match condition with
                                         | Some (SValue v) => Some v | _ => None end))
                              n (S n)) sd) as (Hfe & Hie & Hle & Hpe & Hoe).
  rewrite <- Hse in Hfe, Hie, Hle, Hpe, Hoe. clear Hse Hbranch.
  assert (Hnewe : forall x, n <= x < n + 3 -> parentOf se x = Some f /\ instructions se x = []).
  { intros x Hx. rewrite Hpe, Hoe; [by apply Hnew|].
    intros Hbx. specialize (Hb0 x Hbx). lia. }
  assert (Hbe : blocksOf se f = blocksOf sd f) by (unfold blocksOf; by rewrite Hfe).
  (* the then branch *)
  apply bind_OK_inv in Hrun as ([] & sf & Hthen & Hrun).
  pose proof (emitFoo_codeFrame (Some thenStatement) n (S (S n)) scope se) as Hframe1.
  rewrite Hthen in Hframe1. simpl stateOf in Hframe1.
  destruct Hframe1 as (B1 & B2 & B3 & B4 & _ & _ & B7).
  simpl in B1, B2, B3, B4, B7.
  assert (Hentry1 : forall x, currentEntryBlock (set_insertBlock (Some n) se) = Some x ->
                      x < n \/ x = n).
  { intros x. unfold currentEntryBlock, currentFunctionOf. simpl.
    change (parentOf (set_insertBlock (Some n) se) n) with (parentOf se n).
    rewrite (proj1 (Hnewe n ltac:(lia))). simpl.
    change (entryBlockOf (set_insertBlock (Some n) se) f) with (head (blocksOf se f)).
    rewrite Hbe. apply Hhead. }
  assert (Hnewf : forall x, S n <= x < n + 3 -> parentOf sf x = Some f /\ instructions sf x = []).
  { intros x Hx. destruct (B4 x) as (Hparent & added & Hadded & Hnone); [lia|].
    change (parentOf (set_insertBlock (Some n) se) x) with (parentOf se x) in Hparent.
    change (instructions (set_insertBlock (Some n) se) x) with (instructions se x) in Hadded.
    rewrite Hparent, Hadded, Hnone.
    - rewrite app_nil_r. apply Hnewe. lia.
    - intros [= ?]. lia.
    - intros He. destruct (Hentry1 x He); lia. }
  assert (Hheadf : forall x, entryBlockOf sf f = Some x -> x <> S (S n)).
  { intros x Hx. destruct (decide (f < length (functions se))) as [Hlt|Hge].
    - destruct (B3 f Hlt) as (_ & added & Hadded & _).
      change (blocksOf (set_insertBlock (Some n) se) f) with (blocksOf se f) in Hadded.
      unfold entryBlockOf in Hx. rewrite Hadded, Hbe, Hbd in Hx.
      rewrite decide_True in Hx by (rewrite <- Hfd, <- Hfe; done).
      destruct (Hhead x); [|lia|lia].
      rewrite Hbd, decide_True by (rewrite <- Hfd, <- Hfe; done).
      by destruct (blocksOf sa f).
    - specialize (B7 f x ltac:(lia) Hx). lia. }
  (* the else branch *)
  apply bind_OK_inv in Hrun as ([] & sg & Helse & Hrun).
  pose proof (emitFoo_codeFrame elseStatement (S n) (S (S n)) scope sf) as Hframe2.
  rewrite Helse in Hframe2. simpl stateOf in Hframe2.
  destruct Hframe2 as (_ & _ & C3 & C4 & _).
  simpl in C3, C4.
  injection Hrun as <-.
  destruct (C4 (S (S n))) as (Hparent & added & Hadded & Hnone); [lia|].
  change (parentOf (set_insertBlock (Some (S n)) sf) (S (S n))) with (parentOf sf (S (S n)))
    in Hparent.
  change (instructions (set_insertBlock (Some (S n)) sf) (S (S n)))
    with (instructions sf (S (S n))) in Hadded.
  rewrite Hnone in Hadded.
  2: { intros [= ?]. lia. }
  2: { unfold currentEntryBlock, currentFunctionOf. simpl.
       change (parentOf (set_insertBlock (Some (S n)) sf) (S n)) with (parentOf sf (S n)).
       rewrite (proj1 (Hnewf (S n) ltac:(lia))). simpl.
       change (entryBlockOf (set_insertBlock (Some (S n)) sf) f) with (entryBlockOf sf f).
       intros Hx. by apply (Hheadf _ Hx). }
  exists sf, sg. split; [reflexivity|]. split; [exact Helse|]. split; [lia|].
  rewrite <- Hcurrent. split; [exact Hnewf|]. split; [|split].
  - rewrite Hparent. apply Hnewf. lia.
  - rewrite Hadded, app_nil_r. apply Hnewf. lia.
  - intros f' [= <-] Hlt.
    assert (Hlte : f < length (functions se)) by (by rewrite Hfe, Hfd, Hfa).
    destruct (B3 f) as (_ & added1 & Hadded1 & _); [done|].
    change (blocksOf (set_insertBlock (Some n) se) f) with (blocksOf se f) in Hadded1.
    destruct (C3 f) as (_ & added2 & Hadded2 & _); [lia|].
    change (blocksOf (set_insertBlock (Some (S n)) sf) f) with (blocksOf sf f) in Hadded2.
    rewrite Hadded2, Hadded1, Hbe, Hbd, decide_True by (by rewrite Hfa).
    apply elem_of_app. left. apply elem_of_app. left. apply elem_of_app. right.
    do 2 constructor. constructor.
Qed.

(** X15. After an if statement is lowered successfully, the builder is on
    the end block of the statement, a new block of the function the
    statement stands in, which is still empty: neither branch can have put
    anything there.  Without an else branch, the else block holds the
    branch to the end block and nothing more. *)
Theorem if_statement_join expression thenStatement elseStatement scope s s' :
  emitNode (IfStatement expression thenStatement elseStatement) scope s = OK tt s' ->
  (forall e, currentEntryBlock s = Some e -> e < length (blocks s)) ->
  let elseBlock := S (length (blocks s)) in
  let endBlock := S (S (length (blocks s))) in
  insertBlock s' = Some endBlock
  /\ instructions s' endBlock = []
  /\ parentOf s' endBlock = currentFunctionOf s
  /\ (elseStatement = None ->
      exists id, instructions s' elseBlock = [{| inst_id := id; inst_op := Br endBlock |}]).
Proof.
  intros Hrun Hentry elseBlock endBlock.
  destruct (ifStatement_OK_inv _ _ _ _ _ _ Hrun Hentry)
    as (sf & sg & -> & Helse & Hlen & Hnew & Hparent & Hempty & _).
  fold elseBlock endBlock in Helse, Hlen, Hnew, Hparent, Hempty.
  split; [reflexivity|]. split; [exact Hempty|]. split; [exact Hparent|].
  intros ->. rewrite emitFoo_unfold in Helse. unfold ret in Helse.
  simpl insertBlock in Helse. cbv beta iota in Helse.
  rewrite getTerminator_last in Helse.
  change (instructions (set_insertBlock (Some elseBlock) sf) elseBlock)
    with (instructions sf elseBlock) in Helse.
  assert (Hnone : instructions sf elseBlock = []).
  { apply Hnew. unfold elseBlock. lia. }
  rewrite Hnone in Helse. simpl in Helse. injection Helse as <-.
  exists (nextInst sf).
  change (instructions (inserted (Br endBlock) (set_insertBlock (Some elseBlock) sf)) elseBlock
          = [{| inst_id := nextInst sf; inst_op := Br endBlock |}]).
  rewrite instructions_inserted; [|done|simpl; unfold elseBlock; lia].
  change (instructions (set_insertBlock (Some elseBlock) sf) elseBlock)
    with (instructions sf elseBlock).
  by rewrite Hnone.
Qed.

(** [if (c) { return; }] at the start of the body of [f]: the builder ends
    on block 3, which is empty, and the else block, block 2, holds the
    branch to block 3. *)
Lemma if_statement_join_witness :
  insertBlock (stateOf (emitNode (IfStatement (Identifier "c") (Block [ReturnStatement None]) None)
                          1 (stateInBody VoidTy []))) = Some 3
  /\ instructions (stateOf (emitNode (IfStatement (Identifier "c") (Block [ReturnStatement None])
                                        None) 1 (stateInBody VoidTy []))) 3 = []
  /\ exists id,
       instructions (stateOf (emitNode (IfStatement (Identifier "c") (Block [ReturnStatement None])
                                          None) 1 (stateInBody VoidTy []))) 2
       = [{| inst_id := id; inst_op := Br 3 |}].
Proof.
  assert (Hrun : emitNode (IfStatement (Identifier "c") (Block [ReturnStatement None]) None)
                   1 (stateInBody VoidTy [])
                 = OK tt (stateOf (emitNode (IfStatement (Identifier "c")
                                              (Block [ReturnStatement None]) None)
                                     1 (stateInBody VoidTy []))))
    by (vm_compute; reflexivity).
  assert (Hentry : forall e, currentEntryBlock (stateInBody VoidTy []) = Some e ->
                     e < length (blocks (stateInBody VoidTy []))).
  { intros e. vm_compute. intros [= <-]. repeat constructor. }
  destruct (if_statement_join _ _ _ _ _ _ Hrun Hentry) as (Hbuilder & Hempty & _ & Helse).
  split; [exact Hbuilder|]. split; [exact Hempty|]. exact (Helse eq_refl).
Defined.

(** X16. A function with a return type other than [void] whose body is an
    if statement is never accepted.  When the if statement itself is
    lowered, whatever the branches are, both returning included, the
    builder is left on the end block of the statement, a block of the
    function that is empty; nothing is emitted at the end of the body; the
    verification of the function rejects it, and that is how the
    declaration fails, its scope left.  When the if statement is not
    lowered, the declaration fails with the error of the statement, in the
    state the statement failed in. *)
Theorem if_as_body_of_non_void_function name parameters returnType
    expression thenStatement elseStatement scope s :
  isVoidTy returnType = false ->
  let func := length (functions s) in
  let bodyScope := length (scopes s) in
  let s1 := stateAtBodyStart name parameters returnType scope s in
  let endBlock := length (blocks s) + 3 in
  match emitNode (IfStatement expression thenStatement elseStatement) bodyScope s1 with
  | OK _ s2 =>
      insertBlock s2 = Some endBlock
      /\ instructions s2 endBlock = []
      /\ endBlock ∈ blocksOf s2 func
      /\ functionWellFormed s2 func = false
      /\ emitNode (FunctionDeclaration name parameters returnType
                     (Some [IfStatement expression thenStatement elseStatement])) scope s
         = Err (VerificationFailure func) (set_scopeStack (tail (scopeStack s2)) s2)
  | Err e s2 =>
      emitNode (FunctionDeclaration name parameters returnType
                  (Some [IfStatement expression thenStatement elseStatement])) scope s
      = Err e s2
  end.
Proof.
  intros Hvoid func bodyScope s1 endBlock.
  set (qualifiedName := mangleFunctionDeclaration name (getScope s scope)).
  set (sA := stateOf (Function_create returnType (map parameter_type parameters)
                        ExternalLinkage qualifiedName s)).
  set (sC := set_scopeStack (bodyScope :: scopeStack sA)
               (set_scopes (scopes sA ++ [newScope (Some qualifiedName)]) sA)).
  destruct (bind_parameters_OK bodyScope (signatureParameters parameters)
              (getArguments func (map parameter_type parameters)) sC
              (getArguments_isArgument _ _))
    as (sD & Hloop & (Hf & Hb & _) & _).
  rewrite (functionDeclaration_unfold name parameters returnType _ scope s sD Hloop).
  fold func bodyScope.
  assert (Hs1 : s1 = set_insertBlock (Some (length (blocks sD)))
                       (stateOf (BasicBlock_create "entry" func sD)))
    by apply (stateAtBodyStart_eq name parameters returnType scope s sD Hloop).
  clearbody s1. subst s1.
  set (entryBlock := length (blocks sD)) in *.
  set (s1 := set_insertBlock (Some entryBlock) (stateOf (BasicBlock_create "entry" func sD)))
    in *.
  assert (Hfunctions1 : length (functions s1) = S func).
  { simpl. rewrite length_alter, Hf. simpl. rewrite length_app. simpl. unfold func. lia. }
  assert (Hblocks1 : length (blocks s1) = S entryBlock).
  { simpl. rewrite length_app. simpl. unfold entryBlock. lia. }
  assert (Hparent : parentOf s1 entryBlock = Some func).
  { unfold parentOf, entryBlock. simpl. by rewrite lookup_snoc. }
  assert (Hcurrent : currentFunctionOf s1 = Some func).
  { unfold currentFunctionOf. simpl insertBlock. simpl. exact Hparent. }
  assert (Hentry : forall e, currentEntryBlock s1 = Some e -> e < length (blocks s1)).
  { intros e. unfold currentEntryBlock. rewrite Hcurrent. simpl.
    unfold entryBlockOf, blocksOf. simpl.
    rewrite list_lookup_alter_eq, Hf. simpl. unfold func. rewrite lookup_snoc. simpl.
    intros [= <-]. rewrite length_app. simpl. lia. }
  assert (HendBlock : endBlock = S (S (length (blocks s1)))).
  { rewrite Hblocks1. unfold endBlock, entryBlock. rewrite Hb. simpl. lia. }
  clearbody s1 endBlock. subst endBlock.
  rewrite forEach_cons.
  destruct (emitNode (IfStatement expression thenStatement elseStatement) bodyScope s1)
    as [[] s2|e s2] eqn:Hif.
  2: { apply bind_Err, bind_Err, Hif. }
  (* the if statement *)
  destruct (ifStatement_OK_inv _ _ _ _ _ _ Hif Hentry)
    as (sf & sg & Hs2 & _ & _ & _ & _ & Hempty & Hmember).
  specialize (Hmember func Hcurrent ltac:(lia)).
  set (endBlock := S (S (length (blocks s1)))) in *.
  assert (Hempty2 : instructions s2 endBlock = []) by (by rewrite Hs2).
  assert (Hmember2 : endBlock ∈ blocksOf s2 func) by (by rewrite Hs2).
  assert (Hbuilder : insertBlock s2 = Some endBlock) by (by rewrite Hs2).
  (* the verification *)
  assert (Hwf : functionWellFormed s2 func = false).
  { destruct (functionWellFormed s2 func) eqn:Hwf; [exfalso|done].
    unfold functionWellFormed in Hwf. unfold blocksOf in Hmember2.
    destruct (functions s2 !! func) as [fn|]; [simpl in Hmember2|discriminate].
    rewrite forallb_forall in Hwf.
    specialize (Hwf endBlock (proj1 (list_elem_of_In _ _) Hmember2)).
    unfold blockWellFormed in Hwf.
    unfold instructions in Hempty2.
    destruct (blocks s2 !! endBlock) as [bb|]; [|discriminate].
    simpl in Hempty2. rewrite Hempty2 in Hwf. discriminate. }
  split; [exact Hbuilder|]. split; [exact Hempty2|]. split; [exact Hmember2|].
  split; [exact Hwf|].
  (* nothing is emitted at the end of the body *)
  assert (Hstatements : (emitNode (IfStatement expression thenStatement elseStatement) bodyScope ;;;
                         forEach (fun node => emitNode node bodyScope) []) s1 = OK tt s2)
    by (by rewrite (bind_OK _ _ _ _ _ Hif)).
  rewrite (bind_OK _ _ _ _ _ Hstatements).
  assert (Hterminate : terminateBody returnType s2 = OK tt s2).
  { unfold terminateBody, bind, insertBlockTerminator.
    rewrite Hbuilder, getTerminator_last, Hempty2, Hvoid. reflexivity. }
  rewrite (bind_OK _ _ _ _ _ Hterminate).
  unfold bind, verifyFunction.
  change (functionWellFormed (set_scopeStack (tail (scopeStack s2)) s2) func)
    with (functionWellFormed s2 func).
  by rewrite Hwf.
Qed.

(** [function f(c: boolean): boolean { if (c) { return true; } else
    { return false; } }] is rejected by the verification: block 3, the end
    block of the if statement, is empty. *)
Lemma if_as_body_of_non_void_function_witness :
  exists s2,
    emitNode (FunctionDeclaration "f" [parameter_c] boolTy
                (Some [ifReturnsBooleans "c" true false])) 0 initialState
    = Err (VerificationFailure 0) (set_scopeStack (tail (scopeStack s2)) s2)
    /\ insertBlock s2 = Some 3
    /\ instructions s2 3 = [].
Proof.
  pose proof (if_as_body_of_non_void_function "f" [parameter_c] boolTy (Identifier "c")
                (Block [ReturnStatement (Some TrueKeyword)])
                (Some (Block [ReturnStatement (Some FalseKeyword)])) 0 initialState eq_refl)
    as H.
  cbv zeta in H.
  destruct (emitNode (IfStatement (Identifier "c") (Block [ReturnStatement (Some TrueKeyword)])
                        (Some (Block [ReturnStatement (Some FalseKeyword)])))
              (length (scopes initialState))
              (stateAtBodyStart "f" [parameter_c] boolTy 0 initialState))
    as [[] s2|e s2] eqn:Hif.
  - destruct H as (Hbuilder & Hempty & _ & _ & Hrun).
    exists s2. split; [exact Hrun|]. split; [exact Hbuilder | exact Hempty].
  - exfalso. revert Hif. vm_compute. discriminate.
Defined.

(** ** Whole programs *)

Lemma signatureDeclaration_lowered d s :
  scope_name (getScope s 0) = None ->
  d.1.1 ∉ fn_name <$> functions s ->
  emitNode (signatureDeclaration d) 0 s
  = OK tt (set_scopes (alter (bindEntry d.1.1 (SValue (VFunction (length (functions s))))) 0
                         (scopes s))
             (set_verified (verified s ++ [length (functions s)])
                (set_functions (functions s ++ [externalFunction d]) s))).
Proof.
  destruct d as [[name parameters] returnType]. intros Hglobal Hfree.
  assert (Hname : mangleFunctionDeclaration name (getScope s 0) = name)
    by (unfold mangleFunctionDeclaration; by rewrite Hglobal).
  simpl emitNode. unfold emitFunctionDeclaration, bind, Function_create, ret.
  rewrite Hname, (proj1 (uniqueName_outcome _ name (lastUnique s)) (or_intror Hfree)).
  unfold verifyFunction, functionWellFormed, Scope_set. simpl.
  by rewrite lookup_snoc.
Qed.

Lemma signatureDeclarations_lowered declarations : forall s,
  scope_name (getScope s 0) = None ->
  NoDup (map (fun d => d.1.1) declarations) ->
  (forall d, d ∈ declarations -> d.1.1 ∉ fn_name <$> functions s) ->
  exists s',
    forEach (fun node => emitNode node 0) (map signatureDeclaration declarations) s = OK tt s'
    /\ functions s' = functions s ++ map externalFunction declarations
    /\ blocks s' = blocks s
    /\ warnings s' = warnings s
    /\ scopeStack s' = scopeStack s
    /\ verified s' = verified s ++ seq (length (functions s)) (length declarations).
Proof.
  induction declarations as [|d declarations IH]; intros s Hglobal Hnames Hfree.
  - exists s. by rewrite !app_nil_r.
  - set (s1 := set_scopes (alter (bindEntry d.1.1 (SValue (VFunction (length (functions s))))) 0
                             (scopes s))
                 (set_verified (verified s ++ [length (functions s)])
                    (set_functions (functions s ++ [externalFunction d]) s))).
    apply NoDup_cons in Hnames as (Hd & Hnames).
    destruct (IH s1) as (s' & Hrun & Hf & Hb & Hw & Hst & Hv).
    { unfold getScope. simpl. rewrite list_lookup_alter_eq.
      unfold getScope in Hglobal. by destruct (scopes s !! 0). }
    { exact Hnames. }
    { intros d' Hd'. simpl. rewrite fmap_app. intros Hin.
      apply elem_of_app in Hin as [Hin|Hin].
      - apply (Hfree d'); [by right | done].
      - apply list_elem_of_singleton in Hin.
        apply Hd. apply list_elem_of_fmap. exists d'. split; [|done].
        rewrite Hin. by destruct d as [[? ?] ?]. }
    exists s'. split; [|split; [|split; [done|split; [done|split; [done|]]]]].
    + simpl map. rewrite forEach_cons.
      assert (Hfirst : d.1.1 ∉ fn_name <$> functions s) by (apply Hfree; by left).
      by rewrite (bind_OK _ _ s tt s1 (signatureDeclaration_lowered d s Hglobal Hfirst)).
    + rewrite Hf. simpl. by rewrite <- app_assoc.
    + rewrite Hv. simpl. rewrite length_app, <- app_assoc. simpl.
      by rewrite Nat.add_1_r.
Qed.

(** X17. A program made of one source file that holds function signatures
    only, of pairwise distinct names, always compiles: every signature
    becomes an external function under its own name, in the order of the
    file, all of them recorded as verified; there is no block and no
    warning, and the verification of the module accepts the result.  (The
    names are taken distinct because LLVM renames a function whose name is
    in use.) *)
Theorem signatures_only_program declarations :
  NoDup (map (fun d => d.1.1) declarations) ->
  exists s',
    emitLLVM [map signatureDeclaration declarations ++ [EndOfFileToken]] = OK tt s'
    /\ functions s' = map externalFunction declarations
    /\ blocks s' = []
    /\ warnings s' = []
    /\ verified s' = seq 0 (length declarations).
Proof.
  intros Hnames.
  destruct (signatureDeclarations_lowered declarations initialState eq_refl Hnames)
    as (s' & Hrun & Hf & Hb & Hw & Hst & Hv).
  { intros d _. apply not_elem_of_nil. }
  exists s'. split; [|done].
  unfold emitLLVM. rewrite forEach_cons, !bind_assoc_at.
  assert (Hfile : emitSourceFile (map signatureDeclaration declarations ++ [EndOfFileToken])
                    initialState = OK tt s').
  { unfold emitSourceFile. rewrite forEach_app.
    change (globalScope initialState) with 0.
    by rewrite (bind_OK _ _ _ _ _ Hrun). }
  rewrite (bind_OK _ _ _ _ _ Hfile).
  change ((forEach emitSourceFile [] ;;; verifyModule) s') with (verifyModule s').
  unfold verifyModule.
  assert (Hnone : list_find (fun f => functionWellFormed s' f = false)
                    (seq 0 (length (functions s'))) = None); [|by rewrite Hnone].
  apply list_find_None, Forall_forall. intros f Hin.
  apply elem_of_seq in Hin as (_ & Hlt).
  unfold functionWellFormed. rewrite Hf in *. simpl in *.
  change (map externalFunction declarations) with (externalFunction <$> declarations) in *.
  rewrite list_lookup_fmap. rewrite length_fmap in Hlt.
  destruct (lookup_lt_is_Some_2 declarations f) as [[[name parameters] returnType] ->]; [lia|].
  done.
Qed.

(** [declare function g(c: boolean): boolean; declare function h(): void;] *)
Lemma signatures_only_program_witness :
  exists s',
    emitLLVM [[FunctionDeclaration "g" [parameter_c] boolTy None;
               FunctionDeclaration "h" [] VoidTy None; EndOfFileToken]] = OK tt s'
    /\ fn_name <$> functions s' = ["g"; "h"].
Proof.
  assert (Hnames : NoDup (map (fun d : string * list ParameterDeclaration * LType => d.1.1)
                            [("g", [parameter_c], boolTy); ("h", [], VoidTy)])).
  { apply NoDup_cons. split; [|apply NoDup_singleton].
    intros Hin. apply list_elem_of_singleton in Hin. discriminate. }
  destruct (signatures_only_program _ Hnames) as (s' & Hrun & Hf & _).
  exists s'. split; [exact Hrun|]. by rewrite Hf.
Defined.

(** X18. A source file is lowered node by node in the global scope, and
    the global scope is the outermost scope of the stack before and after:
    lowering a file is lowering a first part of it and then the rest. *)
Theorem source_file_in_two_parts nodes1 nodes2 s :
  emitSourceFile (nodes1 ++ nodes2) s = (emitSourceFile nodes1 ;;; emitSourceFile nodes2) s
  /\ match emitSourceFile nodes1 s with
     | OK _ s' => globalScope s' = globalScope s
     | Err _ _ => True
     end.
Proof.
  unfold emitSourceFile. rewrite forEach_app. unfold bind.
  pose proof (forEach_emitNode_keeps nodes1 (globalScope s) s (globalScope s) (scopeStack s)
                (or_introl eq_refl) s (inv_refl s _)) as Hkeeps.
  destruct (forEach (fun node => emitNode node (globalScope s)) nodes1 s) as [[] s1|e s1];
    [|done].
  destruct Hkeeps as (_ & Hstack).
  assert (Hglobal : globalScope s1 = globalScope s) by (unfold globalScope; by rewrite Hstack).
  by rewrite Hglobal.
Qed.
